(** * Arrow Domain: the chain-reaction puzzle engine of [ArrowDomainGame.tsx]

    A shallow embedding of the engine part of
    [src/components/ArrowDomainGame.tsx]: the geometry helpers, the
    random growth tree, the arrow layout builder, the wave simulator,
    the generate-and-test loop of [createPuzzle] and the synchronous
    guard of the session's [playAttempt].

    Conventions of the embedding.
    - JavaScript numbers that hold grid coordinates, sizes, indices and
      serials are integers of [Z]: they stay far below 2^53, where the
      arithmetic of doubles is exact.  The numbers drawn from [rng] and the
      two chances of a difficulty profile are doubles, carried as the
      rationals of [Q] they denote; the product [rng() * n] is rounded to
      the nearest double by [toDouble], as the source rounds it.
    - A [Map<string, V>] that is only read with [get]/[has], written with
      [set]/[delete] and measured with [size] is a [gmap string V]; a [Set]
      that is iterated ([Array.from], spread) is a duplicate-free list in
      insertion order; a [Set] that is only tested and measured is a [gset].
    - Template strings are built with [pretty], the decimal printer.
    - A [while] loop takes a budget of iterations and answers [Err OutOfFuel]
      when the budget is used up; the properties show that the budgets given
      by the callers are never used up.
    - [rng] is a closure with hidden state: a state type [St] with a
      transition [next : St -> Q * St].
    - Arrays and objects that are only read are values.  [simulateAttempt]
      is embedded a second time, as [simulateAttemptAt], on a store of
      objects addressed by references: the caller's array, its blocks and
      their arrays of directions, and the maps that the call creates and
      updates in place.  The two embeddings return the same result
      ([simulateAttemptAt_spec]).
    - An array read outside its bounds ends the computation with
      [Err Undefined]; the source would go on with [undefined].  This
      happens only when [rng] leaves [[0,1)] or on a grid whose cells have
      no neighbour. *)

From Stdlib Require Import ZArith QArith Qround Qpower Lia Lqa Ascii.
From stdpp Require Import base tactics numbers strings pretty option list gmap.

Local Open Scope string_scope.
Local Open Scope list_scope.
Local Open Scope Z_scope.

(** ** Outcomes *)

(** [OutOfFuel]: a loop budget of the embedding was used up.
    [Undefined]: the source goes on with the value [undefined] (an array
    read outside its bounds); this needs [rng] to leave [[0,1)] or a grid
    without neighbours.
    [TypeError]: the source reads a property of [undefined] and throws. *)
Inductive Fault := OutOfFuel | Undefined | TypeError.

Inductive Res (A : Type) : Type :=
  | Ok (a : A)
  | Err (e : Fault).
Arguments Ok {A} a.
Arguments Err {A} e.

Definition res_bind {A B} (f : A -> Res B) (m : Res A) : Res B :=
  match m with
  | Ok a => f a
  | Err e => Err e
  end.

#[global] Instance Res_ret : MRet Res := fun _ a => Ok a.
#[global] Instance Res_bind : MBind Res := fun _ _ f m => res_bind f m.
#[global] Instance Res_fmap : FMap Res := fun _ _ f m => res_bind (fun a => Ok (f a)) m.

(** [traverse f l] runs [f] on the elements of [l] from left to right, as
    [Array.prototype.map] does with a callback that may fail. *)
Fixpoint traverse {A B} (f : A -> Res B) (l : list A) : Res (list B) :=
  match l with
  | [] => Ok []
  | x :: l' => y ← f x; ys ← traverse f l'; Ok (y :: ys)
  end.

(** ** Numbers *)

(** A JavaScript number is a double.  A finite double is carried as the
    rational it denotes, and the result of an arithmetic operation is the
    exact result rounded to the nearest double, ties to the even
    significand.  Overflow to an infinity is left out: the only rounded
    operation of the engine is the product [rng() * n] of a number below one
    and an array length. *)

Definition pow2 (e : Z) : Q := Qpower 2 e.

(** The binade of a positive rational: the [e] with [2^e <= q < 2^(e+1)]. *)
Definition binade (q : Q) : Z :=
  let d := Z.log2 (Qnum q) - Z.log2 (Zpos (Qden q)) in
  if Qle_bool (pow2 d) q then d else d - 1.

(** The integer nearest to a rational, ties to the even one. *)
Definition roundHalfEven (q : Q) : Z :=
  let f := Qfloor q in
  match Qcompare (q - inject_Z f) (1 # 2) with
  | Lt => f
  | Gt => f + 1
  | Eq => if Z.even f then f else f + 1
  end.

(** The spacing of the doubles around a positive rational: 53 significant
    bits, and [2^-1074] in the subnormal range. *)
Definition quantum (q : Q) : Q := pow2 (Z.max (binade q - 52) (-1074)).

(** The double nearest to a rational. *)
Definition toDouble (q : Q) : Q :=
  match Qcompare q 0 with
  | Eq => 0
  | Gt => inject_Z (roundHalfEven (q / quantum q)) * quantum q
  | Lt => - (inject_Z (roundHalfEven (- q / quantum (- q))) * quantum (- q))
  end.

(** ** Data model *)

Inductive ArrowDir := N | NE | E | SE | S | SW | W | NW.

#[global] Instance ArrowDir_eq_dec : EqDecision ArrowDir.
Proof. solve_decision. Defined.

Inductive DifficultyId := easy | normal | hard | expert | master.

Inductive GamePhase := idle | animating | resolved.

Inductive ResolveResult := success_result | fail_result.

Record ArrowBlock := mkBlock {
  b_id : string;
  b_row : Z;
  b_col : Z;
  b_dirs : list ArrowDir
}.

Record DirectionCast := mkCast {
  c_dir : ArrowDir;
  c_toId : option string;
  c_rayCells : list (Z * Z)
}.

Record WaveSource := mkSource {
  fromId : string;
  casts : list DirectionCast
}.

Record AttemptWave := mkWave {
  sources : list WaveSource
}.

Record PuzzleState := mkPuzzle {
  p_serial : Z;
  p_difficulty : DifficultyId;
  p_rows : Z;
  p_cols : Z;
  initialBlocks : list ArrowBlock;
  solutionStartId : string
}.

Record DifficultyConfig := mkConfig {
  cfg_rows : Z;
  cfg_cols : Z;
  maxDirs : Z;
  extraDirChance : Q;
  leafDecoyChance : Q
}.

Record Point := mkPoint {
  pt_row : Z;
  pt_col : Z
}.

Record GrowthTree := mkTree {
  root : Point;
  childrenByKey : gmap string (list Point)
}.

Record AttemptResult := mkResult {
  waves : list AttemptWave;
  success : bool
}.

Definition DIFFICULTY_CONFIGS (d : DifficultyId) : DifficultyConfig :=
  match d with
  | easy => mkConfig 5 5 2 (toDouble (12 # 100)) (toDouble (84 # 100))
  | normal => mkConfig 6 6 2 (toDouble (14 # 100)) (toDouble (80 # 100))
  | hard => mkConfig 7 7 2 (toDouble (16 # 100)) (toDouble (76 # 100))
  | expert => mkConfig 8 8 2 (toDouble (18 # 100)) (toDouble (72 # 100))
  | master => mkConfig 9 9 2 (toDouble (20 # 100)) (toDouble (68 # 100))
  end.

Definition INITIAL_SEED (d : DifficultyId) : Z :=
  match d with
  | easy => 1573
  | normal => 2987
  | hard => 4431
  | expert => 6163
  | master => 7993
  end.

Definition ALL_DIRECTIONS : list ArrowDir := [N; NE; E; SE; S; SW; W; NW].

Definition DIR_VECTORS (dir : ArrowDir) : Z * Z :=
  match dir with
  | N => (-1, 0)
  | NE => (-1, 1)
  | E => (0, 1)
  | SE => (1, 1)
  | S => (1, 0)
  | SW => (1, -1)
  | W => (0, -1)
  | NW => (-1, -1)
  end.

(** [new Map(entries)]: a later entry replaces an earlier one with the same
    key. *)
Definition mapOfEntries {V} (entries : list (string * V)) : gmap string V :=
  foldl (fun m kv => <[kv.1 := kv.2]> m) ∅ entries.

(** [`${dr},${dc}`], the key of [DELTA_TO_DIR]. *)
Definition deltaKey (dr dc : Z) : string := pretty dr +:+ "," +:+ pretty dc.

Definition DELTA_TO_DIR : gmap string ArrowDir :=
  mapOfEntries
    (map (fun dir => let '(dr, dc) := DIR_VECTORS dir in (deltaKey dr dc, dir))
         ALL_DIRECTIONS).

Definition GENERATE_RETRIES : nat := 220.
Definition TARGET_MAX_WINNERS : nat := 2.
Definition WINNER_SCAN_STOP : nat := TARGET_MAX_WINNERS + 1.

(** ** Geometry *)

Definition coordKey (row col : Z) : string := pretty row +:+ ":" +:+ pretty col.

Definition inBounds (row col rows cols : Z) : bool :=
  (0 <=? row) && (row <? rows) && (0 <=? col) && (col <? cols).

Definition cloneBlocks (blocks : list ArrowBlock) : list ArrowBlock :=
  map (fun block => mkBlock (b_id block) (b_row block) (b_col block) (b_dirs block))
      blocks.

Record NeighborEntry := mkEntry {
  n_dir : ArrowDir;
  n_row : Z;
  n_col : Z;
  n_key : string
}.

Definition getNeighborEntries (row col rows cols : Z) : list NeighborEntry :=
  filter (fun next => inBounds (n_row next) (n_col next) rows cols = true)
    (map (fun dir =>
            let '(dr, dc) := DIR_VECTORS dir in
            let nextRow := row + dr in
            let nextCol := col + dc in
            mkEntry dir nextRow nextCol (coordKey nextRow nextCol))
         ALL_DIRECTIONS).

Definition directionBetween (from to : Point) : option ArrowDir :=
  let dr := pt_row to - pt_row from in
  let dc := pt_col to - pt_col from in
  DELTA_TO_DIR !! deltaKey dr dc.

Definition buildAllPoints (rows cols : Z) : list Point :=
  r ← seqZ 0 rows; c ← seqZ 0 cols; [mkPoint r c].

(** ** The wave simulator *)

(** JavaScript truthiness of a [string | undefined]: [undefined] and the
    empty string are falsy. *)
Definition truthy (v : option string) : option string :=
  match v with
  | Some s => if decide (s = "") then None else Some s
  | None => None
  end.

(** The [while] loop of [castNearest]; [fuel] bounds the number of cells
    the ray may enter. *)
Fixpoint castLoop (fuel : nat) (dir : ArrowDir) (dr dc : Z)
    (byCoord : gmap string string) (rows cols : Z)
    (row col : Z) (rayCells : list (Z * Z)) : Res DirectionCast :=
  if inBounds row col rows cols then
    match fuel with
    | O => Err OutOfFuel
    | Datatypes.S fuel' =>
        let rayCells := rayCells ++ [(row, col)] in
        match truthy (byCoord !! coordKey row col) with
        | Some hitId => Ok (mkCast dir (Some hitId) rayCells)
        | None => castLoop fuel' dir dr dc byCoord rows cols (row + dr) (col + dc) rayCells
        end
    end
  else Ok (mkCast dir None rayCells).

Definition castFuel (rows cols : Z) : nat := Z.to_nat (Z.max rows cols).

Definition castNearest (block : ArrowBlock) (dir : ArrowDir)
    (byCoord : gmap string string) (rows cols : Z) : Res DirectionCast :=
  let '(dr, dc) := DIR_VECTORS dir in
  castLoop (castFuel rows cols) dir dr dc byCoord rows cols
    (b_row block + dr) (b_col block + dc) [].

(** [Set.prototype.add] on an insertion-ordered set. *)
Definition setAdd {A} `{EqDecision A} (s : list A) (x : A) : list A :=
  if decide (x ∈ s) then s else s ++ [x].

(** The store of one run of [simulateAttempt]: the array [blocks] the
    caller passed, the constant [layoutById] and the mutable locals. *)
Record SimState := mkSim {
  sim_blocks : list ArrowBlock;
  layoutById : gmap string ArrowBlock;
  aliveById : gmap string ArrowBlock;
  byCoord : gmap string string;
  sim_waves : list AttemptWave;
  frontier : list string
}.

Definition has {V} (m : gmap string V) (k : string) : bool :=
  bool_decide (is_Some (m !! k)).

(** Body of the [currentWaveIds.forEach] that makes a wave vanish. *)
Definition vanishOne (maps : gmap string ArrowBlock * gmap string string)
    (id : string) : gmap string ArrowBlock * gmap string string :=
  match maps.1 !! id with
  | None => maps
  | Some block =>
      (delete id maps.1, delete (coordKey (b_row block) (b_col block)) maps.2)
  end.

Definition vanishWave (currentWaveIds : list string)
    (alive : gmap string ArrowBlock) (index : gmap string string)
    : gmap string ArrowBlock * gmap string string :=
  foldl vanishOne (alive, index) currentWaveIds.

(** The [currentWaveIds.flatMap] that casts the rays of a wave. *)
Definition castWave (layout : gmap string ArrowBlock)
    (currentWaveIds : list string) (index : gmap string string)
    (rows cols : Z) : Res (list WaveSource) :=
  @List.concat _ <$> traverse (fun id =>
    match layout !! id with
    | None => Ok []
    | Some block =>
        cs ← traverse (fun dir => castNearest block dir index rows cols) (b_dirs block);
        Ok [mkSource id cs]
    end) currentWaveIds.

(** The two nested [forEach] that collect the next frontier. *)
Definition collectHits (alive : gmap string ArrowBlock)
    (srcs : list WaveSource) : list string :=
  foldl (fun nextFrontier source =>
    foldl (fun nextFrontier cast =>
      match truthy (c_toId cast) with
      | Some toId => if has alive toId then setAdd nextFrontier toId else nextFrontier
      | None => nextFrontier
      end) nextFrontier (casts source)) [] srcs.

(** The [while (frontier.size > 0)] loop; [fuel] bounds the number of
    waves. *)
Fixpoint waveLoop (fuel : nat) (rows cols : Z) (st : SimState) : Res SimState :=
  match frontier st with
  | [] => Ok st
  | _ :: _ =>
    match filter (fun id => has (aliveById st) id = true) (frontier st) with
    | [] => Ok st
    | currentWaveIds =>
      match fuel with
      | O => Err OutOfFuel
      | Datatypes.S fuel' =>
        let '(alive, index) := vanishWave currentWaveIds (aliveById st) (byCoord st) in
        srcs ← castWave (layoutById st) currentWaveIds index rows cols;
        let nextFrontier := collectHits alive srcs in
        waveLoop fuel' rows cols
          (mkSim (sim_blocks st) (layoutById st) alive index
                 (sim_waves st ++ [mkWave srcs]) nextFrontier)
      end
    end
  end.

Definition layoutOf (blocks : list ArrowBlock) : gmap string ArrowBlock :=
  mapOfEntries (map (fun block => (b_id block, block)) blocks).

Definition indexOf (blocks : list ArrowBlock) : gmap string string :=
  mapOfEntries (map (fun block => (coordKey (b_row block) (b_col block), b_id block)) blocks).

Definition initialSim (blocks : list ArrowBlock) (startId : string) : SimState :=
  mkSim blocks (layoutOf blocks) (layoutOf blocks) (indexOf blocks) [] [startId].

(** The run of [simulateAttempt] with a budget of [fuel] waves, up to the
    [return]: the final store. *)
Definition runAttempt (fuel : nat) (blocks : list ArrowBlock)
    (startId : string) (rows cols : Z) : Res SimState :=
  waveLoop fuel rows cols (initialSim blocks startId).

Definition resultOf (st : SimState) : AttemptResult :=
  mkResult (sim_waves st) (bool_decide (size (aliveById st) = 0%nat)).

Definition simulateAttemptWith (fuel : nat) (blocks : list ArrowBlock)
    (startId : string) (rows cols : Z) : Res AttemptResult :=
  resultOf <$> runAttempt fuel blocks startId rows cols.

(** [simulateAttempt]: every wave removes a block, so [blocks.length]
    waves are enough. *)
Definition simulateAttempt (blocks : list ArrowBlock) (startId : string)
    (rows cols : Z) : Res AttemptResult :=
  simulateAttemptWith (length blocks) blocks startId rows cols.

(** ** Random number generators *)

(** A computation that draws from [rng]: it reads and advances the hidden
    state of the closure, and it may fail. *)
Definition Gen (St A : Type) : Type := St -> Res (A * St).

#[global] Instance Gen_ret {St} : MRet (Gen St) := fun _ a s => Ok (a, s).
#[global] Instance Gen_bind {St} : MBind (Gen St) :=
  fun _ _ f m s => res_bind (fun as' => f as'.1 as'.2) (m s).

Definition raise {St A} (e : Fault) : Gen St A := fun _ => Err e.

Definition liftRes {St A} (m : Res A) : Gen St A :=
  fun s => res_bind (fun a => Ok (a, s)) m.

(** Run a computation with its own, fresh closure and drop the closure. *)
Definition runWith {St A} (m : Gen St A) (s : St) : Res A :=
  res_bind (fun as' => Ok as'.1) (m s).

(** [createSeededRandom]: xorshift32 on JavaScript's 32-bit integers. *)
Definition toInt32 (x : Z) : Z := (x + 2 ^ 31) mod 2 ^ 32 - 2 ^ 31.
Definition toUint32 (x : Z) : Z := x mod 2 ^ 32.

Definition createSeededRandom (seed : Z) : Z := toUint32 seed.

Definition seededNext (current : Z) : Q * Z :=
  let current := Z.lxor (toInt32 current) (toInt32 (Z.shiftl (toInt32 current) 13)) in
  let current := Z.lxor (toInt32 current) (toInt32 (Z.shiftr (toUint32 current) 17)) in
  let current := Z.lxor (toInt32 current) (toInt32 (Z.shiftl (toInt32 current) 5)) in
  (Qmake (toUint32 current) 4294967296, current).

(** The closure [() => q]. *)
Definition constNext (q : Q) (s : unit) : Q * unit := (q, s).

Section Generator.
Context {St : Type}.
Variable next : St -> Q * St.

(** [rng()] *)
Definition draw : Gen St Q := fun s => Ok (next s).

(** [min + Math.floor(rng() * (max - min + 1))]: the product is a product
    of doubles, rounded to the nearest double before the floor. *)
Definition randomInt (min max : Z) : Gen St Z :=
  r ← draw;
  mret (min + Qfloor (toDouble (r * inject_Z (max - min + 1)))).

(** [values[i]] for a number [i]. *)
Definition nth_Z {T} (values : list T) (i : Z) : option T :=
  if i <? 0 then None else values !! Z.to_nat i.

Definition chooseRandom {T} (values : list T) : Gen St T :=
  i ← randomInt 0 (Z.of_nat (length values) - 1);
  match nth_Z values i with
  | Some v => mret v
  | None => raise Undefined
  end.

(** The [for] loop of [shuffle], counting [index] down to 1. *)
Fixpoint shuffleFrom {T} (index : nat) (values : list T) : Gen St (list T) :=
  match index with
  | O => mret values
  | Datatypes.S index' =>
      swapIndex ← randomInt 0 (Z.of_nat index);
      match values !! index, nth_Z values swapIndex with
      | Some temp, Some other =>
          shuffleFrom index'
            (<[Z.to_nat swapIndex := temp]> (<[index := other]> values))
      | _, _ => raise Undefined
      end
  end.

Definition shuffle {T} (items : list T) : Gen St (list T) :=
  shuffleFrom (length items - 1) items.

(** *** The growth tree *)

(** The mutable locals of [buildRandomGrowthTree]. *)
Record GrowState := mkGrow {
  g_children : gmap string (list Point);
  inTree : list string;
  unassigned : gset string;
  outCount : gmap string Z
}.

(** The predicate of the [filter] that computes [expandableParents]. *)
Definition expandable (rows cols maxDirs : Z) (pointByKey : gmap string Point)
    (g : GrowState) (key : string) : bool :=
  if maxDirs <=? default 0 (outCount g !! key) then false
  else match pointByKey !! key with
       | None => false
       | Some point =>
           existsb (fun neighbor => bool_decide (n_key neighbor ∈ unassigned g))
             (getNeighborEntries (pt_row point) (pt_col point) rows cols)
       end.

Fixpoint growLoop (fuel : nat) (rows cols maxDirs : Z)
    (pointByKey : gmap string Point) (g : GrowState)
    : Gen St (option GrowState) :=
  if bool_decide (size (unassigned g) = 0%nat) then mret (Some g)
  else
    match fuel with
    | O => raise OutOfFuel
    | Datatypes.S fuel' =>
      let expandableParents :=
        filter (fun key => expandable rows cols maxDirs pointByKey g key = true)
               (inTree g) in
      match expandableParents with
      | [] => mret None
      | _ :: _ =>
        parentKey ← chooseRandom expandableParents;
        match pointByKey !! parentKey with
        | None => mret None
        | Some parent =>
          let nextCandidates :=
            filter (fun neighbor => n_key neighbor ∈ unassigned g)
              (getNeighborEntries (pt_row parent) (pt_col parent) rows cols) in
          match nextCandidates with
          | [] => growLoop fuel' rows cols maxDirs pointByKey g
          | _ :: _ =>
            childEntry ← chooseRandom nextCandidates;
            match pointByKey !! n_key childEntry with
            | None => mret None
            | Some child =>
              let children := alter (fun l => l ++ [child]) parentKey (g_children g) in
              let outCount1 :=
                <[parentKey := default 0 (outCount g !! parentKey) + 1]> (outCount g) in
              let outCount2 :=
                <[n_key childEntry := default 0 (outCount1 !! n_key childEntry)]> outCount1 in
              growLoop fuel' rows cols maxDirs pointByKey
                (mkGrow children
                        (setAdd (inTree g) (n_key childEntry))
                        (unassigned g ∖ {[n_key childEntry]})
                        outCount2)
            end
          end
        end
      end
    end.

Definition buildRandomGrowthTree (rows cols maxDirs : Z)
    : Gen St (option GrowthTree) :=
  let allPoints := buildAllPoints rows cols in
  match allPoints with
  | [] => mret None
  | _ :: _ =>
    root ← chooseRandom allPoints;
    let rootKey := coordKey (pt_row root) (pt_col root) in
    let pointByKey :=
      mapOfEntries (map (fun point => (coordKey (pt_row point) (pt_col point), point)) allPoints) in
    let childrenByKey :=
      mapOfEntries (map (fun point => (coordKey (pt_row point) (pt_col point), @nil Point)) allPoints) in
    let g := mkGrow childrenByKey [rootKey] (dom pointByKey ∖ {[rootKey]})
                    {[rootKey := 0]} in
    g' ← growLoop (length allPoints) rows cols maxDirs pointByKey g;
    mret ((fun g' => mkTree root (g_children g')) <$> g')
  end.
End Generator.

(** ** Winning starts *)

(** The [for ... of] loop of [collectWinningStarts]; [winners] is what has
    been pushed so far. *)
Fixpoint scanWinners (all rest : list ArrowBlock) (rows cols : Z)
    (stopAfter : nat) (winners : list string) : Res (list string) :=
  match rest with
  | [] => Ok winners
  | block :: rest' =>
      attempt ← simulateAttempt all (b_id block) rows cols;
      if negb (success attempt) then scanWinners all rest' rows cols stopAfter winners
      else
        let winners := winners ++ [b_id block] in
        if (stopAfter <=? length winners)%nat then Ok winners
        else scanWinners all rest' rows cols stopAfter winners
  end.

Definition collectWinningStarts (blocks : list ArrowBlock) (rows cols : Z)
    (stopAfter : nat) : Res (list string) :=
  scanWinners blocks blocks rows cols stopAfter [].

(** ** The arrow layout builder *)

(** [`arrow-${serial}-${row}-${col}`] *)
Definition blockId (serial row col : Z) : string :=
  "arrow-" +:+ pretty serial +:+ "-" +:+ pretty row +:+ "-" +:+ pretty col.

Section Builder.
Context {St : Type}.
Variable next : St -> Q * St.

(** [dirs.add(chooseRandom(candidates, rng))] guarded by
    [candidates.length > 0]. *)
Definition addRandom (dirs candidates : list ArrowDir) : Gen St (list ArrowDir) :=
  match candidates with
  | [] => mret dirs
  | _ :: _ => dir ← chooseRandom next candidates; mret (setAdd dirs dir)
  end.

(** The body of the two nested [for] loops of [createSparseBlocksFromTree]. *)
Definition sparseCell (tree : GrowthTree) (serial : Z) (config : DifficultyConfig)
    (row col : Z) : Gen St ArrowBlock :=
  let point := mkPoint row col in
  let key := coordKey row col in
  let children := default [] (childrenByKey tree !! key) in
  let dirs :=
    foldl (fun dirs child =>
             match directionBetween point child with
             | Some dir => setAdd dirs dir
             | None => dirs
             end) [] children in
  let neighbors :=
    map n_dir (getNeighborEntries row col (cfg_rows config) (cfg_cols config)) in
  dirs ← (if Z.of_nat (length dirs) <? maxDirs config then
            r ← draw next;
            if Qlt_le_dec r (extraDirChance config)
            then addRandom dirs (filter (fun dir => dir ∉ dirs) neighbors)
            else mret dirs
          else mret dirs);
  dirs ← (if (length dirs =? 0)%nat then
            r ← draw next;
            if Qlt_le_dec r (leafDecoyChance config)
            then addRandom dirs neighbors
            else mret dirs
          else mret dirs);
  dirs ← (if (length dirs =? 0)%nat then addRandom dirs neighbors else mret dirs);
  shuffled ← shuffle next dirs;
  mret (mkBlock (blockId serial row col) row col shuffled).

(** [List.map] with a callback that draws from [rng]. *)
Fixpoint traverseGen {A B} (f : A -> Gen St B) (l : list A) : Gen St (list B) :=
  match l with
  | [] => mret []
  | x :: l' => y ← f x; ys ← traverseGen f l'; mret (y :: ys)
  end.

Definition createSparseBlocksFromTree (tree : GrowthTree) (serial : Z)
    (config : DifficultyConfig) : Gen St (list ArrowBlock) :=
  rowsOfBlocks ← traverseGen (fun row =>
      traverseGen (fun col => sparseCell tree serial config row col)
                  (seqZ 0 (cfg_cols config)))
    (seqZ 0 (cfg_rows config));
  mret (List.concat rowsOfBlocks).

(** *** The search loop of [createPuzzle] *)

Record Fallback := mkFallback {
  f_blocks : list ArrowBlock;
  f_solutionStartId : string;
  f_winnerCount : nat
}.

(** What one iteration of the [for] loop ends with. *)
Inductive Attempt :=
  | Retry (fallback : option Fallback)
  | Accept (blocks : list ArrowBlock) (solutionStartId : string).

Definition attemptOnce (serial : Z) (config : DifficultyConfig)
    (fallback : option Fallback) : Gen St Attempt :=
  tree ← buildRandomGrowthTree next (cfg_rows config) (cfg_cols config) (maxDirs config);
  match tree with
  | None => mret (Retry fallback)
  | Some tree =>
    blocks ← createSparseBlocksFromTree tree serial config;
    let solutionStartId := blockId serial (pt_row (root tree)) (pt_col (root tree)) in
    rootValidation ← liftRes (simulateAttempt blocks solutionStartId
                                (cfg_rows config) (cfg_cols config));
    if negb (success rootValidation) then mret (Retry fallback)
    else
      winners ← liftRes (collectWinningStarts blocks (cfg_rows config) (cfg_cols config)
                           WINNER_SCAN_STOP);
      let winnerCount := length winners in
      let fallback :=
        match fallback with
        | None => Some (mkFallback blocks solutionStartId winnerCount)
        | Some fb =>
            if (winnerCount <? f_winnerCount fb)%nat
            then Some (mkFallback blocks solutionStartId winnerCount)
            else Some fb
        end in
      if (winnerCount <=? TARGET_MAX_WINNERS)%nat
      then mret (Accept blocks solutionStartId)
      else mret (Retry fallback)
  end.

(** [searchLoop n] is the [for] loop with [n] iterations left. *)
Fixpoint searchLoop (n : nat) (serial : Z) (config : DifficultyConfig)
    (fallback : option Fallback) : Gen St Attempt :=
  match n with
  | O => mret (Retry fallback)
  | Datatypes.S n' =>
      a ← attemptOnce serial config fallback;
      match a with
      | Retry fallback' => searchLoop n' serial config fallback'
      | Accept blocks solutionStartId => mret a
      end
  end.
End Builder.

(** The path through which [createPuzzle] returns. *)
Inductive ReturnPath := InBudget | BestFallback | Emergency | LastResort.

(** The last-resort layout: one arrow per cell, chosen with [() => 0.5]. *)
Definition basicBlocks (serial : Z) (config : DifficultyConfig) : Res (list ArrowBlock) :=
  traverse (fun point =>
      dir ← runWith (chooseRandom (constNext (1 # 2))
               (map n_dir (getNeighborEntries (pt_row point) (pt_col point)
                             (cfg_rows config) (cfg_cols config)))) tt;
      Ok (mkBlock (blockId serial (pt_row point) (pt_col point))
                  (pt_row point) (pt_col point) [dir]))
    (buildAllPoints (cfg_rows config) (cfg_cols config)).

(** What [createPuzzle] does once the [for] loop has ended without a
    fallback. *)
Definition degradedPuzzle (difficulty : DifficultyId) (serial : Z)
    : Res (ReturnPath * PuzzleState) :=
  let config := DIFFICULTY_CONFIGS difficulty in
  emergencyTree ← runWith (buildRandomGrowthTree (constNext (1 # 2))
                             (cfg_rows config) (cfg_cols config) 1) tt;
  match emergencyTree with
  | Some emergencyTree =>
      let emergencyConfig :=
        mkConfig (cfg_rows config) (cfg_cols config) 1 0 (1 # 2) in
      emergencyBlocks ← runWith (createSparseBlocksFromTree
                                   (constNext (toDouble (7 # 10)))
                                   emergencyTree serial emergencyConfig) tt;
      Ok (Emergency,
          mkPuzzle serial difficulty (cfg_rows config) (cfg_cols config) emergencyBlocks
            (blockId serial (pt_row (root emergencyTree)) (pt_col (root emergencyTree))))
  | None =>
      blocks ← basicBlocks serial config;
      match blocks with
      | [] => Err TypeError
      | first :: _ =>
          Ok (LastResort,
              mkPuzzle serial difficulty (cfg_rows config) (cfg_cols config) blocks
                (b_id first))
      end
  end.

Section CreatePuzzle.
Context {St : Type}.
Variable next : St -> Q * St.

(** [createPuzzle], returning also the path taken. *)
Definition createPuzzleVia (difficulty : DifficultyId) (serial : Z)
    : Gen St (ReturnPath * PuzzleState) :=
  let config := DIFFICULTY_CONFIGS difficulty in
  a ← searchLoop next GENERATE_RETRIES serial config None;
  match a with
  | Accept blocks solutionStartId =>
      mret (InBudget,
            mkPuzzle serial difficulty (cfg_rows config) (cfg_cols config)
                     blocks solutionStartId)
  | Retry (Some fallback) =>
      mret (BestFallback,
            mkPuzzle serial difficulty (cfg_rows config) (cfg_cols config)
                     (f_blocks fallback) (f_solutionStartId fallback))
  | Retry None => liftRes (degradedPuzzle difficulty serial)
  end.

Definition createPuzzle (difficulty : DifficultyId) (serial : Z) : Gen St PuzzleState :=
  via ← createPuzzleVia difficulty serial;
  mret via.2.
End CreatePuzzle.

(** ** The session *)

(** The state of the React component; ray visuals are kept by their ids. *)
Record Session := mkSession {
  puzzle : PuzzleState;
  blocks : list ArrowBlock;
  attempts : Z;
  phase : GamePhase;
  resolveResult : option ResolveResult;
  activeBlockIds : list string;
  hitBlockIds : list string;
  rayVisuals : list string;
  showSuccessModal : bool;
  hintStartId : option string;
  animationRun : Z
}.

Definition controlsLocked (s : Session) : bool :=
  match phase s with
  | animating => true
  | _ => false
  end.

(** [playAttempt] up to the start of the asynchronous playback. *)
Definition playAttempt (s : Session) (startId : string) : Res Session :=
  if controlsLocked s || (length (blocks s) =? 0)%nat then Ok s
  else if negb (existsb (fun block => bool_decide (b_id block = startId)) (blocks s))
  then Ok s
  else
    attempt ← simulateAttempt (blocks s) startId (p_rows (puzzle s)) (p_cols (puzzle s));
    if (length (waves attempt) =? 0)%nat then Ok s
    else
      Ok (mkSession (puzzle s) (blocks s) (attempts s + 1) animating None
                    [] [] [] false None (animationRun s + 1)).

(** [applyPuzzle]: a new puzzle resets the whole session and cancels any
    playback by bumping [animationRunRef]. *)
Definition applyPuzzle (s : Session) (nextPuzzle : PuzzleState) : Session :=
  mkSession nextPuzzle (cloneBlocks (initialBlocks nextPuzzle)) 0 idle None
            [] [] [] false None (animationRun s + 1).

Definition restartCurrentPuzzle (s : Session) : Session :=
  mkSession (puzzle s) (cloneBlocks (initialBlocks (puzzle s))) 0 idle None
            [] [] [] false None (animationRun s + 1).

Definition showFeasibleSolution (s : Session) : Session :=
  if controlsLocked s then s
  else mkSession (puzzle s) (blocks s) (attempts s) (phase s) (resolveResult s)
                 (activeBlockIds s) (hitBlockIds s) (rayVisuals s)
                 (showSuccessModal s) (Some (solutionStartId (puzzle s)))
                 (animationRun s).

(** ** The simulator on the store *)

(** [simulateAttempt] receives a reference to an array of references to
    [ArrowBlock] objects, each of which refers to its array of directions.
    The three maps that the call creates are objects of the same store: two
    of them hold references to the caller's block objects, and [delete]
    updates them in place.  The sets, arrays and objects of the result hold
    strings and numbers only and are carried as values. *)
Definition Ref := positive.

Inductive Obj :=
  | BlockObj (id : string) (row col : Z) (dirs : Ref)
  | DirsObj (items : list ArrowDir)
  | BlocksObj (items : list Ref)
  | BlockMapObj (entries : gmap string Ref)
  | IdMapObj (entries : gmap string string).

Definition Store := gmap Ref Obj.

(** [block.id], [block.row], [block.col], [block.dirs] *)
Definition getId (block : Ref) : Gen Store string :=
  fun h => match h !! block with
           | Some (BlockObj id _ _ _) => Ok (id, h)
           | _ => Err TypeError
           end.

Definition getRow (block : Ref) : Gen Store Z :=
  fun h => match h !! block with
           | Some (BlockObj _ row _ _) => Ok (row, h)
           | _ => Err TypeError
           end.

Definition getCol (block : Ref) : Gen Store Z :=
  fun h => match h !! block with
           | Some (BlockObj _ _ col _) => Ok (col, h)
           | _ => Err TypeError
           end.

Definition getDirs (block : Ref) : Gen Store Ref :=
  fun h => match h !! block with
           | Some (BlockObj _ _ _ dirs) => Ok (dirs, h)
           | _ => Err TypeError
           end.

(** The elements of an array of directions, as [dirs.map] visits them. *)
Definition getDirItems (dirs : Ref) : Gen Store (list ArrowDir) :=
  fun h => match h !! dirs with
           | Some (DirsObj items) => Ok (items, h)
           | _ => Err TypeError
           end.

(** The elements of an array of blocks, as [blocks.map] visits them. *)
Definition getBlockItems (blocks : Ref) : Gen Store (list Ref) :=
  fun h => match h !! blocks with
           | Some (BlocksObj items) => Ok (items, h)
           | _ => Err TypeError
           end.

(** A new object, at a reference that is not in use. *)
Definition alloc (o : Obj) : Gen Store Ref :=
  fun h => let ref := fresh (dom h) in Ok (ref, <[ref := o]> h).

(** [new Map(entries)] *)
Definition newBlockMap (entries : list (string * Ref)) : Gen Store Ref :=
  alloc (BlockMapObj (mapOfEntries entries)).

Definition newIdMap (entries : list (string * string)) : Gen Store Ref :=
  alloc (IdMapObj (mapOfEntries entries)).

(** [m.get(key)], [m.has(key)], [m.delete(key)] and [m.size] on a map of
    blocks. *)
Definition blockMapGet (m : Ref) (key : string) : Gen Store (option Ref) :=
  fun h => match h !! m with
           | Some (BlockMapObj entries) => Ok (entries !! key, h)
           | _ => Err TypeError
           end.

Definition blockMapHas (m : Ref) (key : string) : Gen Store bool :=
  fun h => match h !! m with
           | Some (BlockMapObj entries) => Ok (has entries key, h)
           | _ => Err TypeError
           end.

Definition blockMapDelete (m : Ref) (key : string) : Gen Store unit :=
  fun h => match h !! m with
           | Some (BlockMapObj entries) =>
               Ok (tt, <[m := BlockMapObj (delete key entries)]> h)
           | _ => Err TypeError
           end.

Definition blockMapSize (m : Ref) : Gen Store nat :=
  fun h => match h !! m with
           | Some (BlockMapObj entries) => Ok (size entries, h)
           | _ => Err TypeError
           end.

(** [m.get(key)] and [m.delete(key)] on the map from cells to ids. *)
Definition idMapGet (m : Ref) (key : string) : Gen Store (option string) :=
  fun h => match h !! m with
           | Some (IdMapObj entries) => Ok (entries !! key, h)
           | _ => Err TypeError
           end.

Definition idMapDelete (m : Ref) (key : string) : Gen Store unit :=
  fun h => match h !! m with
           | Some (IdMapObj entries) =>
               Ok (tt, <[m := IdMapObj (delete key entries)]> h)
           | _ => Err TypeError
           end.

(** [forEach] with a callback that accumulates into a local, [forEach] for
    its effect on the store, and [filter]. *)
Fixpoint foldGen {St A B} (f : A -> B -> Gen St A) (acc : A) (l : list B) : Gen St A :=
  match l with
  | [] => mret acc
  | x :: l' => acc' ← f acc x; foldGen f acc' l'
  end.

Fixpoint forEachGen {St A} (f : A -> Gen St unit) (l : list A) : Gen St unit :=
  match l with
  | [] => mret tt
  | x :: l' => f x;; forEachGen f l'
  end.

Fixpoint filterGen {St A} (f : A -> Gen St bool) (l : list A) : Gen St (list A) :=
  match l with
  | [] => mret []
  | x :: l' =>
      keep ← f x;
      rest ← filterGen f l';
      mret (if keep : bool then x :: rest else rest)
  end.

(** [blocks.map(f)] *)
Definition mapBlocks {A} (f : Ref -> Gen Store A) (blocks : Ref) : Gen Store (list A) :=
  items ← getBlockItems blocks;
  traverseGen f items.

Fixpoint castLoopAt (fuel : nat) (dir : ArrowDir) (dr dc : Z)
    (byCoord : Ref) (rows cols : Z)
    (row col : Z) (rayCells : list (Z * Z)) : Gen Store DirectionCast :=
  if inBounds row col rows cols then
    match fuel with
    | O => raise OutOfFuel
    | Datatypes.S fuel' =>
        let rayCells := rayCells ++ [(row, col)] in
        hitId ← idMapGet byCoord (coordKey row col);
        match truthy hitId with
        | Some hitId => mret (mkCast dir (Some hitId) rayCells)
        | None => castLoopAt fuel' dir dr dc byCoord rows cols (row + dr) (col + dc) rayCells
        end
    end
  else mret (mkCast dir None rayCells).

Definition castNearestAt (block : Ref) (dir : ArrowDir)
    (byCoord : Ref) (rows cols : Z) : Gen Store DirectionCast :=
  let '(dr, dc) := DIR_VECTORS dir in
  row ← getRow block;
  col ← getCol block;
  castLoopAt (castFuel rows cols) dir dr dc byCoord rows cols (row + dr) (col + dc) [].

(** Body of the [currentWaveIds.forEach] that makes a wave vanish. *)
Definition vanishOneAt (aliveById byCoord : Ref) (id : string) : Gen Store unit :=
  found ← blockMapGet aliveById id;
  match found with
  | None => mret tt
  | Some block =>
      blockMapDelete aliveById id;;
      row ← getRow block;
      col ← getCol block;
      idMapDelete byCoord (coordKey row col)
  end.

(** The [currentWaveIds.flatMap] that casts the rays of a wave. *)
Definition castWaveAt (layoutById : Ref) (currentWaveIds : list string)
    (byCoord : Ref) (rows cols : Z) : Gen Store (list WaveSource) :=
  sourcesOf ← traverseGen (fun id =>
    found ← blockMapGet layoutById id;
    match found with
    | None => mret []
    | Some block =>
        dirs ← getDirs block;
        items ← getDirItems dirs;
        cs ← traverseGen (fun dir => castNearestAt block dir byCoord rows cols) items;
        mret [mkSource id cs]
    end) currentWaveIds;
  mret (List.concat sourcesOf).

(** The two nested [forEach] that collect the next frontier. *)
Definition collectHitsAt (aliveById : Ref) (srcs : list WaveSource)
    : Gen Store (list string) :=
  foldGen (fun nextFrontier source =>
    foldGen (fun nextFrontier cast =>
      match truthy (c_toId cast) with
      | Some toId =>
          alive ← blockMapHas aliveById toId;
          mret (if alive : bool then setAdd nextFrontier toId else nextFrontier)
      | None => mret nextFrontier
      end) nextFrontier (casts source)) [] srcs.

(** The [while (frontier.size > 0)] loop; the three maps are references,
    [waves] and [frontier] are the locals that the loop assigns. *)
Fixpoint waveLoopAt (fuel : nat) (rows cols : Z) (layoutById aliveById byCoord : Ref)
    (waves : list AttemptWave) (frontier : list string)
    : Gen Store (list AttemptWave) :=
  match frontier with
  | [] => mret waves
  | _ :: _ =>
    currentWaveIds ← filterGen (blockMapHas aliveById) frontier;
    match currentWaveIds with
    | [] => mret waves
    | _ :: _ =>
      match fuel with
      | O => raise OutOfFuel
      | Datatypes.S fuel' =>
        forEachGen (vanishOneAt aliveById byCoord) currentWaveIds;;
        sources ← castWaveAt layoutById currentWaveIds byCoord rows cols;
        nextFrontier ← collectHitsAt aliveById sources;
        waveLoopAt fuel' rows cols layoutById aliveById byCoord
          (waves ++ [mkWave sources]) nextFrontier
      end
    end
  end.

(** [simulateAttempt] on the store: the argument [blocks] is the reference
    the caller passes; [blocks.length] waves are enough, as for
    [simulateAttempt] on values. *)
Definition simulateAttemptAt (blocks : Ref) (startId : string) (rows cols : Z)
    : Gen Store AttemptResult :=
  layoutEntries ← mapBlocks (fun block => id ← getId block; mret (id, block)) blocks;
  layoutById ← newBlockMap layoutEntries;
  aliveEntries ← mapBlocks (fun block => id ← getId block; mret (id, block)) blocks;
  aliveById ← newBlockMap aliveEntries;
  coordEntries ← mapBlocks (fun block =>
                    row ← getRow block;
                    col ← getCol block;
                    id ← getId block;
                    mret (coordKey row col, id)) blocks;
  byCoord ← newIdMap coordEntries;
  items ← getBlockItems blocks;
  waves ← waveLoopAt (length items) rows cols layoutById aliveById byCoord [] [startId];
  remaining ← blockMapSize aliveById;
  mret (mkResult waves (bool_decide (remaining = 0%nat))).

(** ** Vocabulary of the properties *)

(** The [k]-th cell, counted from 0, of the ray that enters at [(row, col)]
    and advances by [(dr, dc)]. *)
Definition rayCell (row col dr dc : Z) (k : nat) : Z * Z :=
  (row + Z.of_nat k * dr, col + Z.of_nat k * dc).
Arguments rayCell : simpl never.

Definition inGrid (rows cols : Z) (cell : Z * Z) : bool :=
  inBounds cell.1 cell.2 rows cols.

(** What the index holds at a cell, as the loop of [castNearest] sees it. *)
Definition seenAt (index : gmap string string) (cell : Z * Z) : option string :=
  truthy (index !! coordKey cell.1 cell.2).

(** How many more cells a ray at [(row, col)] can enter before it leaves
    the grid. *)
Definition remaining (dr dc rows cols row col : Z) : Z :=
  if dr =? 1 then rows - row
  else if dr =? -1 then row + 1
  else if dc =? 1 then cols - col
  else col + 1.

(** The cell [k] steps away from [block] along [dir]. *)
Definition rayFrom (block : ArrowBlock) (dir : ArrowDir) (k : nat) : Z * Z :=
  rayCell (b_row block) (b_col block) (DIR_VECTORS dir).1 (DIR_VECTORS dir).2 k.

(** The id that the coordinate index holds for a cell. *)
Definition occupant (index : gmap string string) (cell : Z * Z) : option string :=
  index !! coordKey cell.1 cell.2.

(** [cast] is the nearest hit of [block] along [dir]: its ray lists the
    cells 1..n of the direction, all inside the grid and all but the last
    free; [toId] is the occupant of cell n, or null when cells 1..n are
    free and cell n+1 is outside the grid. *)
Definition FirstHit (block : ArrowBlock) (dir : ArrowDir)
    (index : gmap string string) (rows cols : Z) (cast : DirectionCast) : Prop :=
  exists n : nat,
    c_dir cast = dir
    /\ c_rayCells cast = map (rayFrom block dir) (seq 1 n)
    /\ (forall k, (1 <= k <= n)%nat -> inGrid rows cols (rayFrom block dir k) = true)
    /\ (forall k, (1 <= k < n)%nat -> occupant index (rayFrom block dir k) = None)
    /\ match c_toId cast with
       | Some id => (1 <= n)%nat /\ occupant index (rayFrom block dir n) = Some id
       | None =>
           (forall k, (1 <= k <= n)%nat -> occupant index (rayFrom block dir k) = None)
           /\ inGrid rows cols (rayFrom block dir (Datatypes.S n)) = false
       end.

(** Scenario A: the 2 x 2 layout whose arrows form the cycle
    (0,0) -> E -> (0,1) -> S -> (1,1) -> W -> (1,0) -> N -> (0,0). *)
Definition cycle4 : list ArrowBlock :=
  [ mkBlock "arrow-1-0-0" 0 0 [E]; mkBlock "arrow-1-0-1" 0 1 [S];
    mkBlock "arrow-1-1-0" 1 0 [N]; mkBlock "arrow-1-1-1" 1 1 [W] ].

(** The ids of the sources of a wave, in the order of the wave. *)
Definition waveIds (w : AttemptWave) : list string := map fromId (sources w).

(** No character of [s] is a colon. *)
Fixpoint colonFree (s : string) : bool :=
  match s with
  | EmptyString => true
  | String a s' => bool_decide (a <> ":"%char) && colonFree s'
  end.

(** A layout as the data model has it: block ids are unique and no two
    blocks share a cell. *)
Definition wellFormed (blocks : list ArrowBlock) : Prop :=
  NoDup (map b_id blocks)
  /\ NoDup (map (fun block => (b_row block, b_col block)) blocks).

(** The ids of all sources of the waves [ws]. *)
Definition vanished (ws : list AttemptWave) : list string :=
  List.concat (map waveIds ws).

(** The alive map and the coordinate index once the sources of the waves
    [ws] have been deleted from the maps of the layout. *)
Definition mapsAfter (blocks : list ArrowBlock) (ws : list AttemptWave)
    : gmap string ArrowBlock * gmap string string :=
  foldl (fun maps w => vanishWave (waveIds w) maps.1 maps.2)
        (layoutOf blocks, indexOf blocks) ws.

(** The coordinate index holds [id] for no cell. *)
Definition absentFrom (index : gmap string string) (id : string) : Prop :=
  forall key, index !! key <> Some id.

(** The maps [maps] are those of the layout [blocks] without the ids [V]:
    the alive map holds the blocks whose id is not in [V], and the index
    holds, for the cell of each such block, its id. *)
Definition Consistent (blocks : list ArrowBlock) (V : list string)
    (maps : gmap string ArrowBlock * gmap string string) : Prop :=
  (forall k, maps.1 !! k = if decide (k ∈ V) then None else layoutOf blocks !! k)
  /\ (forall key id,
        maps.2 !! key = Some id <->
        exists b, b ∈ blocks /\ key = coordKey (b_row b) (b_col b)
                  /\ id = b_id b /\ id ∉ V).

(** The wave [w], which follows the waves [pre], was run by the loop of
    [simulateAttempt]: its sources were alive after [pre], and its casts
    were computed on the index from which [pre] and [w] itself had been
    deleted. *)
Definition WaveRun (blocks : list ArrowBlock) (rows cols : Z)
    (pre : list AttemptWave) (w : AttemptWave) : Prop :=
  (forall id, id ∈ waveIds w -> is_Some ((mapsAfter blocks pre).1 !! id))
  /\ castWave (layoutOf blocks) (waveIds w) (mapsAfter blocks (pre ++ [w])).2 rows cols
     = Ok (sources w).

(** The invariant of the loop of [simulateAttempt]. *)
Definition RunInv (blocks : list ArrowBlock) (rows cols : Z) (st : SimState) : Prop :=
  layoutById st = layoutOf blocks
  /\ (aliveById st, byCoord st) = mapsAfter blocks (sim_waves st)
  /\ forall pre w post, sim_waves st = pre ++ w :: post -> WaveRun blocks rows cols pre w.

(** The rational is a finite double: an integer of at most 53 bits times a
    power of two of the exponent range. *)
Definition IsDouble (q : Q) : Prop :=
  exists m e : Z,
    Z.abs m < 2 ^ 53 /\ -1074 <= e <= 971 /\ (q == inject_Z m * pow2 e)%Q.

(** [rng] returns numbers in [[0,1)]: each is a double, as every number of
    the source is, at least 0 and below 1. *)
Definition InRange {St} (next : St -> Q * St) : Prop :=
  forall s, IsDouble (next s).1 /\ (0 <= (next s).1)%Q /\ ((next s).1 < 1)%Q.

(** Whatever [m] returns satisfies [P]. *)
Definition Post {St A} (m : Gen St A) (P : A -> Prop) : Prop :=
  forall s a s', m s = Ok (a, s') -> P a.

(** [m] returns a value, whatever the state of the closure. *)
Definition Total {St A} (m : Gen St A) : Prop :=
  forall s, exists a s', m s = Ok (a, s').

(** Activating [block] alone clears the layout [blocks]. *)
Definition wins (blocks : list ArrowBlock) (rows cols : Z) (block : ArrowBlock) : bool :=
  match simulateAttempt blocks (b_id block) rows cols with
  | Ok r => success r
  | Err _ => false
  end.

(** The blocks of a layout whose activation alone clears it. *)
Definition winnersOf (blocks : list ArrowBlock) (rows cols : Z) : list ArrowBlock :=
  filter (fun block => wins blocks rows cols block = true) blocks.

(** The attempt started at [startId] clears the layout [blocks]. *)
Definition Solved (blocks : list ArrowBlock) (startId : string) (rows cols : Z) : Prop :=
  exists r, simulateAttempt blocks startId rows cols = Ok r /\ success r = true.

Definition NonEmptyDirs (blocks : list ArrowBlock) : Prop :=
  Forall (fun block => b_dirs block <> []) blocks.

(** A layout that the search loop validated from its root. *)
Definition Good (config : DifficultyConfig) (blocks : list ArrowBlock)
    (startId : string) : Prop :=
  NonEmptyDirs blocks /\ Solved blocks startId (cfg_rows config) (cfg_cols config).

Definition FallbackGood (config : DifficultyConfig) (fallback : option Fallback) : Prop :=
  match fallback with
  | None => True
  | Some fb => Good config (f_blocks fb) (f_solutionStartId fb)
  end.

(** What an iteration of the search loop guarantees about its outcome. *)
Definition AttemptGood (config : DifficultyConfig) (a : Attempt) : Prop :=
  match a with
  | Retry fallback => FallbackGood config fallback
  | Accept blocks startId =>
      Good config blocks startId
      /\ (length (winnersOf blocks (cfg_rows config) (cfg_cols config))
          <= TARGET_MAX_WINNERS)%nat
  end.

(** What [createPuzzle] guarantees on each of its return paths. *)
Definition PuzzleGood (difficulty : DifficultyId) (via : ReturnPath * PuzzleState) : Prop :=
  let config := DIFFICULTY_CONFIGS difficulty in
  let p := via.2 in
  p_difficulty p = difficulty
  /\ p_rows p = cfg_rows config
  /\ p_cols p = cfg_cols config
  /\ match via.1 with
     | InBudget =>
         Good config (initialBlocks p) (solutionStartId p)
         /\ (length (winnersOf (initialBlocks p) (cfg_rows config) (cfg_cols config))
             <= TARGET_MAX_WINNERS)%nat
     | BestFallback => Good config (initialBlocks p) (solutionStartId p)
     | Emergency => False
     | LastResort =>
         Forall (fun block => length (b_dirs block) = 1%nat) (initialBlocks p)
     end.

(** A session on the scenario A layout, before and after a click on the
    (0,0) block. *)
Definition sessionA : Session :=
  mkSession (mkPuzzle 1 easy 2 2 cycle4 "arrow-1-0-0") cycle4 0 idle None
            [] [] [] false None 0.

Definition sessionA_clicked : Session :=
  mkSession (mkPuzzle 1 easy 2 2 cycle4 "arrow-1-0-0") cycle4 1 animating None
            [] [] [] false None 1.

(** No character of [s] is [c]. *)
Fixpoint charFree (c : ascii) (s : string) : bool :=
  match s with
  | EmptyString => true
  | String a s' => bool_decide (a <> c) && charFree c s'
  end.

(** [q] is one step away from [p] along [dir]. *)
Definition stepTo (p : Point) (dir : ArrowDir) (q : Point) : Prop :=
  pt_row q = pt_row p + (DIR_VECTORS dir).1
  /\ pt_col q = pt_col p + (DIR_VECTORS dir).2.

(** [(row', col')] is one of the 8 cells around [(row, col)]. *)
Definition around (row col row' col' : Z) : Prop :=
  -1 <= row' - row <= 1 /\ -1 <= col' - col <= 1
  /\ (row', col') <> (row, col).

(** The first [n] values that the closure draws from the state [s]. *)
Fixpoint drawsFrom {St} (next : St -> Q * St) (n : nat) (s : St) : list Q :=
  match n with
  | O => []
  | Datatypes.S n' => (next s).1 :: drawsFrom next n' (next s).2
  end.

(** The ids that the casts of a wave hit, in the order of their first hit. *)
Definition hitIds (w : AttemptWave) : list string :=
  foldl (fun acc cast =>
           match c_toId cast with
           | Some t => setAdd acc t
           | None => acc
           end) [] (List.concat (map casts (sources w))).

(** The step of [collectHits] on one cast. *)
Definition hitStep (alive : gmap string ArrowBlock) (acc : list string)
    (cast : DirectionCast) : list string :=
  match truthy (c_toId cast) with
  | Some toId => if has alive toId then setAdd acc toId else acc
  | None => acc
  end.

(** What the loop of [simulateAttempt] keeps true of its store, for the
    layout [blocks] and the start [startId]: the maps are those of the layout
    without the vanished sources; frontier and vanished sources have no
    duplicate; no wave is empty; the frontier is the start before the first
    wave and the hits of the last wave after it; each wave is the alive part
    of the hits of the wave before it. *)
Definition SimInv (blocks : list ArrowBlock) (startId : string) (rows cols : Z)
    (st : SimState) : Prop :=
  RunInv blocks rows cols st
  /\ NoDup (frontier st)
  /\ NoDup (vanished (sim_waves st))
  /\ (forall w, w ∈ sim_waves st -> waveIds w <> [])
  /\ ((sim_waves st = [] /\ frontier st = [startId])
      \/ exists ws w, sim_waves st = ws ++ [w]
                      /\ frontier st = collectHits (aliveById st) (sources w))
  /\ (forall w post, sim_waves st = w :: post -> waveIds w = [startId])
  /\ (forall pre w1 w2 post,
        sim_waves st = pre ++ w1 :: w2 :: post ->
        let alive := (mapsAfter blocks (pre ++ [w1])).1 in
        waveIds w2
        = filter (fun id => has alive id = true) (collectHits alive (sources w1))).

(** The block [b] has an arrow whose first cell is the cell of [c]. *)
Definition pointsAt (b c : ArrowBlock) : Prop :=
  exists dir, dir ∈ b_dirs b
              /\ b_row c = b_row b + (DIR_VECTORS dir).1
              /\ b_col c = b_col b + (DIR_VECTORS dir).2.

(** The blocks that [start] reaches through arrows to adjacent blocks of the
    layout. *)
Inductive Linked (blocks : list ArrowBlock) (start : ArrowBlock) : ArrowBlock -> Prop :=
  | Linked_start : Linked blocks start start
  | Linked_step b c :
      Linked blocks start b -> b ∈ blocks -> c ∈ blocks -> pointsAt b c ->
      Linked blocks start c.

(** Every block that has vanished and points at an adjacent block has sent
    it to the vanished blocks or to the frontier. *)
Definition HitsClosed (blocks : list ArrowBlock) (st : SimState) : Prop :=
  forall b c, b ∈ blocks -> c ∈ blocks -> pointsAt b c ->
    b_id b ∈ vanished (sim_waves st) ->
    b_id c ∈ vanished (sim_waves st) \/ b_id c ∈ frontier st.

(** The key of the cell of a point. *)
Definition keyOf (p : Point) : string := coordKey (pt_row p) (pt_col p).

(** The point is a cell of the grid. *)
Definition onGrid (rows cols : Z) (p : Point) : Prop :=
  inBounds (pt_row p) (pt_col p) rows cols = true.

(** [tree.childrenByKey.get(key) ?? []] *)
Definition childrenOf (tree : GrowthTree) (p : Point) : list Point :=
  default [] (childrenByKey tree !! keyOf p).

(** The points under [start] in the map of children. *)
Inductive Reaches (children : gmap string (list Point)) (start : Point) : Point -> Prop :=
  | Reaches_start : Reaches children start start
  | Reaches_child p c cs :
      Reaches children start p -> children !! keyOf p = Some cs -> c ∈ cs ->
      Reaches children start c.

(** A growth tree that spans the grid: the root is a cell; every cell has
    an entry and is under the root; children are neighbouring cells other than
    the root; no cell lists a child twice or more children than [maxDirs];
    every cell but the root is the child of exactly one cell. *)
Definition Spanning (rows cols maxDirs : Z) (tree : GrowthTree) : Prop :=
  onGrid rows cols (root tree)
  /\ (forall p, onGrid rows cols p ->
        is_Some (childrenByKey tree !! keyOf p)
        /\ Reaches (childrenByKey tree) (root tree) p)
  /\ (forall p c, onGrid rows cols p -> c ∈ childrenOf tree p ->
        onGrid rows cols c /\ c <> root tree
        /\ exists dir, directionBetween p c = Some dir)
  /\ (forall p, onGrid rows cols p ->
        NoDup (childrenOf tree p)
        /\ Z.of_nat (length (childrenOf tree p)) <= Z.max 0 maxDirs)
  /\ (forall p q c, onGrid rows cols p -> onGrid rows cols q ->
        c ∈ childrenOf tree p -> c ∈ childrenOf tree q -> p = q)
  /\ (forall c, onGrid rows cols c -> c <> root tree ->
        exists p, onGrid rows cols p /\ c ∈ childrenOf tree p).

(** What the loop of [buildRandomGrowthTree] keeps true of its locals. *)
Record GrowInv (maxDirs : Z) (start : Point) (pointByKey : gmap string Point)
    (g : GrowState) : Prop := mkGrowInv {
  gi_nodup : NoDup (inTree g);
  gi_unassigned :
    forall key, key ∈ unassigned g <-> is_Some (pointByKey !! key) /\ key ∉ inTree g;
  gi_root : keyOf start ∈ inTree g;
  gi_dom : forall key, is_Some (g_children g !! key) <-> is_Some (pointByKey !! key);
  gi_child :
    forall key cs c, g_children g !! key = Some cs -> c ∈ cs ->
      key ∈ inTree g /\ keyOf c ∈ inTree g /\ keyOf c <> keyOf start
      /\ pointByKey !! keyOf c = Some c
      /\ exists p dir, pointByKey !! key = Some p /\ stepTo p dir c;
  gi_count :
    forall key cs, g_children g !! key = Some cs ->
      NoDup cs /\ default 0 (outCount g !! key) = Z.of_nat (length cs)
      /\ Z.of_nat (length cs) <= Z.max 0 maxDirs;
  gi_parent_unique :
    forall k1 k2 cs1 cs2 c,
      g_children g !! k1 = Some cs1 -> g_children g !! k2 = Some cs2 ->
      c ∈ cs1 -> c ∈ cs2 -> k1 = k2;
  gi_reach :
    forall key, key ∈ inTree g ->
      exists p, pointByKey !! key = Some p /\ Reaches (g_children g) start p;
  gi_parent :
    forall key, key ∈ inTree g -> key <> keyOf start ->
      exists pk cs c, g_children g !! pk = Some cs /\ c ∈ cs /\ keyOf c = key
}.

(** What [createSparseBlocksFromTree] guarantees of the arrows of the cell
    [p]: no arrow twice; an arrow towards each child of the cell in the tree;
    every other arrow towards a neighbouring cell of the grid; and no more
    arrows than children, or than [maxDirs], or than one. *)
Definition DirsOf (tree : GrowthTree) (config : DifficultyConfig) (p : Point)
    (dirs : list ArrowDir) : Prop :=
  NoDup dirs
  /\ (forall child dir,
        child ∈ childrenOf tree p -> directionBetween p child = Some dir -> dir ∈ dirs)
  /\ (forall dir, dir ∈ dirs ->
        (exists child, child ∈ childrenOf tree p /\ directionBetween p child = Some dir)
        \/ inBounds (pt_row p + (DIR_VECTORS dir).1) (pt_col p + (DIR_VECTORS dir).2)
                    (cfg_rows config) (cfg_cols config) = true)
  /\ Z.of_nat (length dirs)
     <= Z.max (Z.of_nat (length (childrenOf tree p))) (Z.max 1 (maxDirs config)).

(** The block that [createSparseBlocksFromTree] pushes for the cell [p]. *)
Definition CellOf (tree : GrowthTree) (serial : Z) (config : DifficultyConfig)
    (p : Point) (block : ArrowBlock) : Prop :=
  b_id block = blockId serial (pt_row p) (pt_col p)
  /\ b_row block = pt_row p
  /\ b_col block = pt_col p
  /\ DirsOf tree config p (b_dirs block).

(** The layout [blocks] was built from a tree that spans the grid of
    [config], and [startId] is the id of the block of its root. *)
Definition FromTree (serial : Z) (config : DifficultyConfig)
    (blocks : list ArrowBlock) (startId : string) : Prop :=
  exists tree,
    Spanning (cfg_rows config) (cfg_cols config) (maxDirs config) tree
    /\ Forall2 (CellOf tree serial config)
               (buildAllPoints (cfg_rows config) (cfg_cols config)) blocks
    /\ startId = blockId serial (pt_row (root tree)) (pt_col (root tree)).

(** A fallback as the search loop records it: a layout from a tree whose
    scan for winners stopped at [WINNER_SCAN_STOP]. *)
Definition FallbackKept (serial : Z) (config : DifficultyConfig)
    (fallback : option Fallback) : Prop :=
  match fallback with
  | None => True
  | Some fb =>
      FromTree serial config (f_blocks fb) (f_solutionStartId fb)
      /\ f_winnerCount fb = WINNER_SCAN_STOP
      /\ (WINNER_SCAN_STOP
          <= length (winnersOf (f_blocks fb) (cfg_rows config) (cfg_cols config)))%nat
  end.

(** What the search loop ends with when it started with the fallback
    [before]. *)
Definition AttemptKept (serial : Z) (config : DifficultyConfig)
    (before : option Fallback) (a : Attempt) : Prop :=
  match a with
  | Retry after =>
      FallbackKept serial config after
      /\ forall fb, before = Some fb -> after = Some fb
  | Accept blocks startId =>
      FromTree serial config blocks startId
      /\ (1 <= length (winnersOf blocks (cfg_rows config) (cfg_cols config))
          <= TARGET_MAX_WINNERS)%nat
  end.

(** A layout with one block per cell of the grid, in row-major order, with
    the ids of [createPuzzle], whose arrows are distinct, at most two per
    block, and point at cells of the grid. *)
Definition GridLayout (serial rows cols : Z) (blocks : list ArrowBlock) : Prop :=
  map b_id blocks
  = map (fun p => blockId serial (pt_row p) (pt_col p)) (buildAllPoints rows cols)
  /\ map (fun b => (b_row b, b_col b)) blocks
     = map (fun p => (pt_row p, pt_col p)) (buildAllPoints rows cols)
  /\ forall b, b ∈ blocks ->
       NoDup (b_dirs b)
       /\ (length (b_dirs b) <= 2)%nat
       /\ forall dir, dir ∈ b_dirs b ->
            inBounds (b_row b + (DIR_VECTORS dir).1) (b_col b + (DIR_VECTORS dir).2)
                     rows cols = true.

(** The block that the store holds at a reference, with its directions. *)
Definition blockAt (h : Store) (block : Ref) : option ArrowBlock :=
  match h !! block with
  | Some (BlockObj id row col dirs) =>
      match h !! dirs with
      | Some (DirsObj items) => Some (mkBlock id row col items)
      | _ => None
      end
  | _ => None
  end.

(** The layout that the store holds at a reference to an array of blocks:
    its length, its order and the contents of each block. *)
Definition layoutAt (h : Store) (blocks : Ref) : option (list ArrowBlock) :=
  match h !! blocks with
  | Some (BlocksObj items) => mapM (blockAt h) items
  | _ => None
  end.

(** The map of references [refs] holds, in the store [h], the blocks of the
    map [m]. *)
Definition HoldsIn (h : Store) (refs : gmap string Ref)
    (m : gmap string ArrowBlock) : Prop :=
  blockAt h <$> refs = Some <$> m.

(** Every object of [h0] is in [h], unchanged. *)
Definition Kept (h0 h : Store) : Prop :=
  forall ref o, h0 !! ref = Some o -> h !! ref = Some o.

(** During a run that the caller started on the store [h0], the store [h]
    holds the caller's objects and, at three references of its own, the
    maps of the run; these hold the maps [layout], [alive] and [index] of
    the run on values. *)
Record SameRun (h0 h : Store) (layoutById aliveById byCoord : Ref)
    (layout alive : gmap string ArrowBlock) (index : gmap string string) : Prop :=
  mkSameRun {
    run_kept : h0 ⊆ h;
    run_layout_new : h0 !! layoutById = None;
    run_alive_new : h0 !! aliveById = None;
    run_index_new : h0 !! byCoord = None;
    run_alive_layout : aliveById <> layoutById;
    run_index_layout : byCoord <> layoutById;
    run_index_alive : byCoord <> aliveById;
    run_layout : exists refs, h !! layoutById = Some (BlockMapObj refs)
                              /\ HoldsIn h0 refs layout;
    run_alive : exists refs, h !! aliveById = Some (BlockMapObj refs)
                             /\ HoldsIn h0 refs alive;
    run_index : h !! byCoord = Some (IdMapObj index)
  }.

(** A store that holds the cycle of scenario A: the array at reference 1,
    its blocks at 2 to 5, their arrays of directions at 6 to 9, and a block
    of another layout at 10 that shares the array at 6. *)
Definition storeA : Store :=
  list_to_map
    [ (1%positive, BlocksObj [2; 3; 4; 5]%positive);
      (2%positive, BlockObj "arrow-1-0-0" 0 0 6%positive);
      (3%positive, BlockObj "arrow-1-0-1" 0 1 7%positive);
      (4%positive, BlockObj "arrow-1-1-0" 1 0 8%positive);
      (5%positive, BlockObj "arrow-1-1-1" 1 1 9%positive);
      (6%positive, DirsObj [E]); (7%positive, DirsObj [S]);
      (8%positive, DirsObj [N]); (9%positive, DirsObj [W]);
      (10%positive, BlockObj "other" 5 5 6%positive) ].

(** The same layout at other references, among other objects. *)
Definition storeB : Store :=
  list_to_map
    [ (20%positive, BlocksObj [24; 23; 22; 21]%positive);
      (24%positive, BlockObj "arrow-1-0-0" 0 0 31%positive);
      (23%positive, BlockObj "arrow-1-0-1" 0 1 32%positive);
      (22%positive, BlockObj "arrow-1-1-0" 1 0 33%positive);
      (21%positive, BlockObj "arrow-1-1-1" 1 1 34%positive);
      (31%positive, DirsObj [E]); (32%positive, DirsObj [S]);
      (33%positive, DirsObj [N]); (34%positive, DirsObj [W]);
      (1%positive, DirsObj [NE; SW]) ].

(** * Properties *)

(** ** Outcomes and maps *)

Lemma res_bind_Ok {A B} (f : A -> Res B) (m : Res A) (b : B) :
  res_bind f m = Ok b -> exists a, m = Ok a /\ f a = Ok b.
Proof. destruct m as [a|e]; simpl; [eauto | discriminate]. Qed.

Lemma traverse_total {A B} (f : A -> Res B) (l : list A) :
  (forall x, x ∈ l -> exists y, f x = Ok y) ->
  exists ys, traverse f l = Ok ys /\ length ys = length l.
Proof.
  induction l as [|x l IH]; intros Hf; simpl.
  - exists []. auto.
  - destruct (Hf x) as [y Hy]; [left|].
    destruct IH as (ys & Hys & Hlen); [intros z Hz; apply Hf; by right|].
    exists (y :: ys). unfold mbind, Res_bind. rewrite Hy; simpl. rewrite Hys; simpl.
    auto.
Qed.

Lemma mapOfEntries_snoc {V} (l : list (string * V)) (kv : string * V) :
  mapOfEntries (l ++ [kv]) = <[kv.1 := kv.2]> (mapOfEntries l).
Proof. unfold mapOfEntries. by rewrite foldl_app. Qed.

Lemma mapOfEntries_lookup_None {V} (l : list (string * V)) (k : string) :
  mapOfEntries l !! k = None <-> k ∉ l.*1.
Proof.
  induction l as [|kv l IH] using rev_ind.
  - unfold mapOfEntries; simpl. rewrite lookup_empty. split; [|done].
    intros _ H. inversion H.
  - rewrite mapOfEntries_snoc, fmap_app, not_elem_of_app. simpl.
    destruct (decide (kv.1 = k)) as [->|Hne].
    + rewrite lookup_insert_eq. split; [discriminate|].
      intros [_ H]. exfalso. apply H. left.
    + rewrite lookup_insert_ne by done. rewrite IH. split.
      * intros H. split; [done|]. intros Hin. apply list_elem_of_singleton in Hin. congruence.
      * tauto.
Qed.

Lemma mapOfEntries_lookup_Some {V} (l : list (string * V)) (k : string) (v : V) :
  mapOfEntries l !! k = Some v -> (k, v) ∈ l.
Proof.
  induction l as [|kv l IH] using rev_ind.
  - unfold mapOfEntries; simpl. by rewrite lookup_empty.
  - rewrite mapOfEntries_snoc, elem_of_app.
    destruct (decide (kv.1 = k)) as [<-|Hne].
    + rewrite lookup_insert_eq. intros [= <-]. right. destruct kv; left.
    + rewrite lookup_insert_ne by done. auto.
Qed.

Lemma mapOfEntries_lookup_NoDup {V} (l : list (string * V)) (k : string) (v : V) :
  NoDup l.*1 -> (k, v) ∈ l -> mapOfEntries l !! k = Some v.
Proof.
  induction l as [|kv l IH] using rev_ind; intros Hnd Hin.
  - inversion Hin.
  - rewrite fmap_app in Hnd. apply NoDup_app in Hnd as (Hnd & Hdisj & _).
    rewrite mapOfEntries_snoc. apply elem_of_app in Hin as [Hin|Hin].
    + rewrite lookup_insert_ne; [by apply IH|].
      intros <-. apply (Hdisj kv.1); [|left].
      apply list_elem_of_fmap. by exists (kv.1, v).
    + apply list_elem_of_singleton in Hin as <-. simpl. by rewrite lookup_insert_eq.
Qed.

Lemma mapOfEntries_size {V} (l : list (string * V)) :
  (size (mapOfEntries l) <= length l)%nat.
Proof.
  induction l as [|kv l IH] using rev_ind.
  - unfold mapOfEntries; simpl. by rewrite map_size_empty.
  - rewrite mapOfEntries_snoc, length_app; simpl.
    pose proof (map_size_insert kv.1 kv.2 (mapOfEntries l)) as Hs.
    destruct (mapOfEntries l !! kv.1); simpl in *; unfold id in *; lia.
Qed.

Lemma mapOfEntries_empty {V} (l : list (string * V)) :
  mapOfEntries l = ∅ <-> l = [].
Proof.
  split; [|by intros ->].
  destruct l as [|kv l] using rev_ind; [done|].
  rewrite mapOfEntries_snoc. intros H. by apply insert_non_empty in H.
Qed.

Lemma has_true {V} (m : gmap string V) (k : string) :
  has m k = true <-> is_Some (m !! k).
Proof. unfold has. by rewrite bool_decide_eq_true. Qed.

Lemma has_false {V} (m : gmap string V) (k : string) :
  has m k = false <-> m !! k = None.
Proof. unfold has. by rewrite bool_decide_eq_false, eq_None_not_Some. Qed.

Lemma layoutOf_lookup_None (blocks : list ArrowBlock) (id : string) :
  layoutOf blocks !! id = None <-> id ∉ map b_id blocks.
Proof.
  unfold layoutOf. rewrite mapOfEntries_lookup_None.
  replace ((map (fun block => (b_id block, block)) blocks).*1) with (map b_id blocks); [done|].
  induction blocks as [|b bs IH]; [done|]. cbn. by f_equal.
Qed.

(** ** Ray casting *)

Lemma inBounds_true (row col rows cols : Z) :
  inBounds row col rows cols = true <-> 0 <= row < rows /\ 0 <= col < cols.
Proof. unfold inBounds. rewrite !andb_true_iff. lia. Qed.

Lemma remaining_bounds dir dr dc rows cols row col :
  DIR_VECTORS dir = (dr, dc) ->
  inBounds row col rows cols = true ->
  1 <= remaining dr dc rows cols row col <= Z.max rows cols.
Proof.
  intros Hd Hin. apply inBounds_true in Hin.
  destruct dir; inversion Hd; subst; unfold remaining; simpl; lia.
Qed.

Lemma remaining_step dir dr dc rows cols row col :
  DIR_VECTORS dir = (dr, dc) ->
  remaining dr dc rows cols (row + dr) (col + dc)
  = remaining dr dc rows cols row col - 1.
Proof.
  intros Hd. destruct dir; inversion Hd; subst; unfold remaining; simpl; lia.
Qed.

Lemma rayCell_shift row col dr dc k :
  rayCell (row + dr) (col + dc) dr dc k = rayCell row col dr dc (Datatypes.S k).
Proof. unfold rayCell. f_equal; lia. Qed.

(** The loop of [castNearest] stops at the first cell where it sees an id,
    or at the first cell outside the grid. *)
Lemma castLoop_spec dir dr dc index rows cols :
  DIR_VECTORS dir = (dr, dc) ->
  forall fuel row col acc,
    (inBounds row col rows cols = true ->
     remaining dr dc rows cols row col <= Z.of_nat fuel) ->
    exists n toId,
      castLoop fuel dir dr dc index rows cols row col acc
      = Ok (mkCast dir toId (acc ++ map (rayCell row col dr dc) (seq 0 n)))
      /\ (forall k, (k < n)%nat -> inGrid rows cols (rayCell row col dr dc k) = true)
      /\ (forall k, (Datatypes.S k < n)%nat -> seenAt index (rayCell row col dr dc k) = None)
      /\ match toId with
         | Some id =>
             exists m, n = Datatypes.S m /\ seenAt index (rayCell row col dr dc m) = Some id
         | None =>
             (forall k, (k < n)%nat -> seenAt index (rayCell row col dr dc k) = None)
             /\ inGrid rows cols (rayCell row col dr dc n) = false
         end.
Proof.
  intros Hd. induction fuel as [|fuel IH]; intros row col acc Hfuel.
  - simpl. destruct (inBounds row col rows cols) eqn:Hin.
    + pose proof (remaining_bounds _ _ _ _ _ _ _ Hd Hin). specialize (Hfuel eq_refl). lia.
    + exists 0%nat, None. simpl. rewrite app_nil_r. repeat split; try (intros; lia).
      unfold inGrid, rayCell; simpl. by rewrite !Z.add_0_r.
  - simpl. destruct (inBounds row col rows cols) eqn:Hin.
    + assert (Hcell : rayCell row col dr dc 0 = (row, col)).
      { unfold rayCell; simpl. by rewrite !Z.add_0_r. }
      destruct (truthy (index !! coordKey row col)) as [hitId|] eqn:Hhit.
      * exists 1%nat, (Some hitId). simpl. rewrite Hcell. repeat split.
        -- intros k Hk. assert (k = 0%nat) as -> by lia. by rewrite Hcell.
        -- intros; lia.
        -- exists 0%nat. split; [done|]. by rewrite Hcell.
      * destruct (IH (row + dr) (col + dc) (acc ++ [(row, col)])) as (n & toId & Hrun & Hgrid & Hnone & Hend).
        { intros _. rewrite (remaining_step _ _ _ _ _ _ _ Hd). specialize (Hfuel eq_refl). lia. }
        exists (Datatypes.S n), toId. rewrite Hrun. split; [|split; [|split]].
        -- f_equal. f_equal. rewrite <- app_assoc. f_equal. simpl. rewrite Hcell. f_equal.
           rewrite <- seq_shift, map_map. apply map_ext. intros k. apply rayCell_shift.
        -- intros [|k] Hk; [by rewrite Hcell|].
           rewrite <- rayCell_shift. apply Hgrid. lia.
        -- intros [|k] Hk; [by rewrite Hcell|].
           rewrite <- rayCell_shift. apply Hnone. lia.
        -- destruct toId as [id|].
           ++ destruct Hend as (m & -> & Hm). exists (Datatypes.S m). split; [done|].
              by rewrite <- rayCell_shift.
           ++ destruct Hend as [Hall Hout]. split.
              ** intros [|k] Hk; [by rewrite Hcell|].
                 rewrite <- rayCell_shift. apply Hall. lia.
              ** by rewrite <- rayCell_shift.
    + exists 0%nat, None. simpl. rewrite app_nil_r. repeat split; try (intros; lia).
      unfold inGrid, rayCell; simpl. by rewrite !Z.add_0_r.
Qed.

Lemma castNearest_spec block dir index rows cols :
  let '(dr, dc) := DIR_VECTORS dir in
  let row := b_row block + dr in
  let col := b_col block + dc in
  exists n toId,
    castNearest block dir index rows cols
    = Ok (mkCast dir toId (map (rayCell row col dr dc) (seq 0 n)))
    /\ (forall k, (k < n)%nat -> inGrid rows cols (rayCell row col dr dc k) = true)
    /\ (forall k, (Datatypes.S k < n)%nat -> seenAt index (rayCell row col dr dc k) = None)
    /\ match toId with
       | Some id =>
           exists m, n = Datatypes.S m /\ seenAt index (rayCell row col dr dc m) = Some id
       | None =>
           (forall k, (k < n)%nat -> seenAt index (rayCell row col dr dc k) = None)
           /\ inGrid rows cols (rayCell row col dr dc n) = false
       end.
Proof.
  destruct (DIR_VECTORS dir) as [dr dc] eqn:Hd. simpl.
  unfold castNearest. rewrite Hd.
  apply (castLoop_spec dir dr dc index rows cols Hd (castFuel rows cols)
           (b_row block + dr) (b_col block + dc) []).
  intros Hin. pose proof (remaining_bounds _ _ _ _ _ _ _ Hd Hin) as Hb.
  unfold castFuel. lia.
Qed.

Lemma castNearest_total block dir index rows cols :
  exists cast, castNearest block dir index rows cols = Ok cast.
Proof.
  pose proof (castNearest_spec block dir index rows cols) as H.
  destruct (DIR_VECTORS dir) as [dr dc]. destruct H as (n & toId & H & _). eauto.
Qed.

Lemma truthy_nonempty (index : gmap string string) (key : string) :
  map_Forall (fun _ id => id <> "") index ->
  truthy (index !! key) = index !! key.
Proof.
  intros Hne. unfold truthy. destruct (index !! key) as [id|] eqn:Hk; [|done].
  destruct (decide (id = "")) as [->|]; [|done]. by destruct (Hne key "" Hk).
Qed.


(** ** Waves *)

Lemma vanishOne_alive maps id : (vanishOne maps id).1 = delete id maps.1.
Proof.
  unfold vanishOne. destruct (maps.1 !! id) eqn:H; [done|].
  symmetry. by apply delete_id.
Qed.

Lemma vanishWave_alive_lookup ids alive index k :
  (vanishWave ids alive index).1 !! k
  = if decide (k ∈ ids) then None else alive !! k.
Proof.
  unfold vanishWave. revert alive index.
  induction ids as [|id ids IH]; intros alive index.
  - destruct (decide (k ∈ [])) as [H|]; [inversion H|done].
  - simpl. destruct (vanishOne (alive, index) id) as [alive' index'] eqn:Hv.
    rewrite IH. pose proof (vanishOne_alive (alive, index) id) as Ha.
    rewrite Hv in Ha. simpl in Ha. subst alive'.
    destruct (decide (k ∈ ids)) as [Hin|Hnin];
      destruct (decide (k ∈ id :: ids)) as [Hin'|Hnin']; try done.
    + exfalso. apply Hnin'. by right.
    + apply elem_of_cons in Hin' as [->|]; [|done]. by rewrite lookup_delete_eq.
    + apply not_elem_of_cons in Hnin' as [Hne _]. by rewrite lookup_delete_ne.
Qed.

Lemma vanishWave_size ids alive index id :
  id ∈ ids -> is_Some (alive !! id) ->
  (size (vanishWave ids alive index).1 < size alive)%nat.
Proof.
  intros Hin Hsome. apply map_subset_size. split.
  - apply map_subseteq_spec. intros k v. rewrite vanishWave_alive_lookup.
    by case_decide.
  - intros Hsub. destruct Hsome as [v Hv].
    pose proof (proj1 (map_subseteq_spec _ _) Hsub id v Hv) as H.
    rewrite vanishWave_alive_lookup in H. by case_decide.
Qed.

Lemma castWave_total layout ids index rows cols :
  exists srcs, castWave layout ids index rows cols = Ok srcs.
Proof.
  unfold castWave.
  destruct (traverse_total (fun id =>
    match layout !! id with
    | None => Ok []
    | Some block =>
        cs ← traverse (fun dir => castNearest block dir index rows cols) (b_dirs block);
        Ok [mkSource id cs]
    end) ids) as (ys & Hys & _).
  - intros id _. destruct (layout !! id) as [block|]; [|eauto].
    destruct (traverse_total (fun dir => castNearest block dir index rows cols) (b_dirs block))
      as (cs & Hcs & _).
    { intros dir _. apply castNearest_total. }
    unfold mbind, Res_bind. rewrite Hcs. simpl. eauto.
  - unfold fmap, Res_fmap. rewrite Hys. simpl. eauto.
Qed.

(** Every wave removes at least one block that was alive, so a budget of
    as many waves as there are alive blocks is never used up. *)
Lemma waveLoop_total rows cols fuel :
  forall st, (size (aliveById st) <= fuel)%nat ->
    exists st', waveLoop fuel rows cols st = Ok st'.
Proof.
  induction fuel as [|fuel IH]; intros st Hsize.
  - simpl. destruct (frontier st) as [|f fs]; [eauto|].
    destruct (filter _ (f :: fs)) as [|id cur] eqn:Hcur; [eauto|].
    assert (Hin : id ∈ filter (fun id => has (aliveById st) id = true) (f :: fs)).
    { rewrite Hcur. left. }
    apply list_elem_of_filter in Hin as [Halive _]. apply has_true in Halive.
    assert (aliveById st = ∅) as Hempty by (apply map_size_empty_inv; lia).
    rewrite Hempty, lookup_empty in Halive. by destruct Halive.
  - simpl. destruct (frontier st) as [|f fs]; [eauto|].
    destruct (filter _ (f :: fs)) as [|id cur] eqn:Hcur; [eauto|].
    assert (Hin : id ∈ filter (fun id => has (aliveById st) id = true) (f :: fs)).
    { rewrite Hcur. left. }
    apply list_elem_of_filter in Hin as [Halive _]. apply has_true in Halive.
    pose proof (vanishWave_size (id :: cur) (aliveById st) (byCoord st) id
                  ltac:(left) Halive) as Hlt.
    destruct (vanishWave (id :: cur) (aliveById st) (byCoord st)) as [alive index].
    destruct (castWave_total (layoutById st) (id :: cur) index rows cols) as [srcs Hsrcs].
    unfold mbind, Res_bind. rewrite Hsrcs. simpl.
    apply IH. simpl in *. lia.
Qed.

Lemma runAttempt_total blocks startId rows cols :
  exists st, runAttempt (length blocks) blocks startId rows cols = Ok st.
Proof.
  apply waveLoop_total. simpl. unfold layoutOf.
  etrans; [apply mapOfEntries_size|]. by rewrite length_map.
Qed.

Lemma simulateAttempt_total blocks startId rows cols :
  exists r, simulateAttempt blocks startId rows cols = Ok r.
Proof.
  destruct (runAttempt_total blocks startId rows cols) as [st Hst].
  unfold simulateAttempt, simulateAttemptWith, fmap, Res_fmap. rewrite Hst. simpl. eauto.
Qed.

(** A larger budget of waves does not change the result. *)
Lemma waveLoop_more_fuel rows cols fuel :
  forall st st', waveLoop fuel rows cols st = Ok st' ->
    forall extra, waveLoop (fuel + extra) rows cols st = Ok st'.
Proof.
  induction fuel as [|fuel IH]; intros st st' H extra.
  - destruct extra as [|extra]; [done|]. simpl in *.
    destruct (frontier st) as [|f fs]; [done|].
    destruct (filter _ (f :: fs)); [done|discriminate].
  - simpl in *. destruct (frontier st) as [|f fs]; [done|].
    destruct (filter _ (f :: fs)) as [|id cur]; [done|].
    destruct (vanishWave (id :: cur) (aliveById st) (byCoord st)) as [alive index].
    apply res_bind_Ok in H as (srcs & Hsrcs & H).
    unfold mbind, Res_bind. rewrite Hsrcs. simpl. by apply IH.
Qed.

Lemma cloneBlocks_id blocks : cloneBlocks blocks = blocks.
Proof.
  unfold cloneBlocks. induction blocks as [|[] bs IH]; simpl; [done|]. by rewrite IH.
Qed.

(** ** The claims about the simulator *)

(** C3, as amended: for every block, direction, coordinate index whose ids
    are non-empty strings and bounds, [castNearest] returns the nearest hit:
    the ray lists the consecutive cells from the block along the direction
    up to and including the first cell the index holds an id for, which is
    [toId]; [toId] is null exactly when the ray leaves the grid before any
    such cell. *)
Theorem castNearest_nearest_hit block dir index rows cols :
  map_Forall (fun _ id => id <> "") index ->
  exists cast,
    castNearest block dir index rows cols = Ok cast
    /\ FirstHit block dir index rows cols cast.
Proof.
  intros Hne.
  pose proof (castNearest_spec block dir index rows cols) as H.
  unfold FirstHit, rayFrom, occupant.
  destruct (DIR_VECTORS dir) as [dr dc]. cbn [fst snd] in *.
  destruct H as (n & toId & Hrun & Hgrid & Hfree & Hend).
  assert (Hseen : forall cell, seenAt index cell = index !! coordKey cell.1 cell.2).
  { intros cell. unfold seenAt. by apply truthy_nonempty. }
  eexists. split; [exact Hrun|]. exists n. cbn [c_dir c_rayCells c_toId]. split; [done|]. split; [|split; [|split]].
  - rewrite <- seq_shift, map_map. apply map_ext. intros k. apply rayCell_shift.
  - intros [|k] Hk; [lia|]. rewrite <- rayCell_shift. apply Hgrid. lia.
  - intros [|k] Hk; [lia|]. rewrite <- rayCell_shift, <- Hseen. apply Hfree. lia.
  - destruct toId as [id|].
    + destruct Hend as (m & -> & Hm). split; [lia|].
      by rewrite <- rayCell_shift, <- Hseen.
    + destruct Hend as [Hall Hout]. split.
      * intros [|k] Hk; [lia|]. rewrite <- rayCell_shift, <- Hseen. apply Hall. lia.
      * by rewrite <- rayCell_shift.
Qed.

Lemma castNearest_nearest_hit_witness :
  map_Forall (fun _ id => id <> "") (indexOf cycle4)
  /\ exists cast,
       castNearest (mkBlock "arrow-1-0-0" 0 0 [E]) E (indexOf cycle4) 2 2 = Ok cast
       /\ FirstHit (mkBlock "arrow-1-0-0" 0 0 [E]) E (indexOf cycle4) 2 2 cast.
Proof.
  assert (H : map_Forall (fun _ id => id <> "") (indexOf cycle4)).
  { apply map_Forall_to_list. vm_compute. repeat constructor; discriminate. }
  split; [exact H|]. apply (castNearest_nearest_hit _ _ _ _ _ H).
Defined.

(** C3, as stated, fails on an index that holds the empty string as an id:
    on the 1 x 2 grid the ray from (0,0) to the east passes the occupied
    cell (0,1) and reports no hit. *)
Lemma castNearest_passes_empty_id :
  let block := mkBlock "a" 0 0 [E] in
  let index : gmap string string := {[ coordKey 0 1 := "" ]} in
  exists cast,
    castNearest block E index 1 2 = Ok cast
    /\ ~ FirstHit block E index 1 2 cast.
Proof.
  simpl. eexists. split; [vm_compute; reflexivity|].
  intros (n & _ & Hcells & _ & _ & Hend). simpl in Hcells, Hend.
  destruct n as [|[|n]]; try discriminate.
  destruct Hend as [Hfree _]. specialize (Hfree 1%nat ltac:(lia)).
  vm_compute in Hfree. discriminate.
Qed.

(** C10: scenario A.  On the 2 x 2 cycle, the attempt started at the (0,0)
    block has exactly 4 waves, each with one source, in the order (0,0),
    (0,1), (1,1), (1,0), and it succeeds. *)
Theorem scenario_A_four_cycle :
  exists r,
    simulateAttempt cycle4 "arrow-1-0-0" 2 2 = Ok r
    /\ r = mkResult
          [ mkWave [mkSource "arrow-1-0-0" [mkCast E (Some "arrow-1-0-1") [(0, 1)]]];
            mkWave [mkSource "arrow-1-0-1" [mkCast S (Some "arrow-1-1-1") [(1, 1)]]];
            mkWave [mkSource "arrow-1-1-1" [mkCast W (Some "arrow-1-1-0") [(1, 0)]]];
            mkWave [mkSource "arrow-1-1-0" [mkCast N None [(0, 0)]]] ]
          true
    /\ length (waves r) = 4%nat
    /\ Forall (fun w => length (sources w) = 1%nat) (waves r)
    /\ map waveIds (waves r)
       = [["arrow-1-0-0"]; ["arrow-1-0-1"]; ["arrow-1-1-1"]; ["arrow-1-1-0"]]
    /\ success r = true.
Proof.
  eexists. split; [vm_compute; reflexivity|].
  repeat split. repeat constructor.
Qed.

Lemma existsb_id_false (bs : list ArrowBlock) (startId : string) :
  existsb (fun block => bool_decide (b_id block = startId)) bs = false
  <-> startId ∉ map b_id bs.
Proof.
  induction bs as [|b bs IH]; simpl.
  - split; [|done]. intros _ H. inversion H.
  - rewrite orb_false_iff, IH, not_elem_of_cons, bool_decide_eq_false.
    intuition congruence.
Qed.

Lemma simulateAttempt_unknown_start blocks startId rows cols :
  startId ∉ map b_id blocks ->
  simulateAttempt blocks startId rows cols
  = Ok (mkResult [] (bool_decide (size (layoutOf blocks) = 0%nat))).
Proof.
  intros Hid. apply layoutOf_lookup_None, has_false in Hid.
  unfold simulateAttempt, simulateAttemptWith, runAttempt.
  assert (H : forall fuel, waveLoop fuel rows cols (initialSim blocks startId)
                           = Ok (initialSim blocks startId)).
  { intros [|fuel]; simpl; by rewrite filter_cons, Hid. }
  by rewrite H.
Qed.

(** C9: an invalid start selection is ignored.  For a start id that no
    block of the layout carries, [simulateAttempt] returns no wave, and
    success exactly when the layout has no block; [playAttempt] leaves the
    session as it is when the clicked id is not among the alive blocks or
    the simulation has no wave. *)
Theorem invalid_start_ignored :
  (forall blocks startId rows cols,
      startId ∉ map b_id blocks ->
      exists r,
        simulateAttempt blocks startId rows cols = Ok r
        /\ waves r = []
        /\ (success r = true <-> blocks = [])
        /\ (blocks <> [] -> success r = false))
  /\ (forall s startId,
        startId ∉ map b_id (blocks s)
        \/ (exists r, simulateAttempt (blocks s) startId (p_rows (puzzle s)) (p_cols (puzzle s)) = Ok r
                      /\ waves r = []) ->
        playAttempt s startId = Ok s).
Proof.
  split.
  - intros blocks startId rows cols Hid.
    rewrite (simulateAttempt_unknown_start _ _ _ _ Hid).
    eexists. split; [done|]. split; [done|]. simpl.
    assert (Hiff : bool_decide (size (layoutOf blocks) = 0%nat) = true <-> blocks = []).
    { rewrite bool_decide_eq_true, map_size_empty_iff. unfold layoutOf.
      rewrite mapOfEntries_empty. destruct blocks; simpl; split; congruence. }
    split; [done|]. intros Hne.
    destruct (bool_decide (size (layoutOf blocks) = 0%nat)); [|done].
    exfalso. by apply Hne, Hiff.
  - intros s startId H. unfold playAttempt.
    destruct (controlsLocked s || (length (blocks s) =? 0)%nat); [done|].
    destruct (existsb _ (blocks s)) eqn:Hex; simpl; [|done].
    destruct H as [Hid|(r & Hr & Hw)].
    + apply existsb_id_false in Hid. congruence.
    + rewrite Hr. simpl. by rewrite Hw.
Qed.

Lemma invalid_start_ignored_witness :
  ("nowhere" ∉ map b_id cycle4)
  /\ (exists r,
        simulateAttempt cycle4 "nowhere" 2 2 = Ok r
        /\ waves r = []
        /\ (success r = true <-> cycle4 = [])
        /\ (cycle4 <> [] -> success r = false))
  /\ playAttempt sessionA "nowhere" = Ok sessionA.
Proof.
  assert (Hid : "nowhere" ∉ map b_id cycle4).
  { apply existsb_id_false. reflexivity. }
  split; [exact Hid|]. split.
  - exact (proj1 invalid_start_ignored cycle4 "nowhere" 2 2 Hid).
  - apply (proj2 invalid_start_ignored). left. exact Hid.
Defined.

(** ** Coordinate keys *)

Lemma colon_split s s' t t' :
  colonFree s = true -> colonFree s' = true ->
  s +:+ ":" +:+ t = s' +:+ ":" +:+ t' -> s = s' /\ t = t'.
Proof.
  revert s'. induction s as [|a s IH]; intros [|a' s']; simpl; intros Hs Hs' Heq.
  - by inversion Heq.
  - inversion Heq; subst. apply andb_true_iff in Hs' as [Ha _].
    by apply bool_decide_eq_true in Ha.
  - inversion Heq; subst. apply andb_true_iff in Hs as [Ha _].
    by apply bool_decide_eq_true in Ha.
  - inversion Heq; subst.
    apply andb_true_iff in Hs as [_ Hs]. apply andb_true_iff in Hs' as [_ Hs'].
    destruct (IH s' Hs Hs' ltac:(done)) as [-> ->]. done.
Qed.

Lemma pretty_N_go_colonFree (x : BinNums.N) (s : string) :
  colonFree s = true -> colonFree (pretty_N_go x s) = true.
Proof.
  revert s. induction (N.lt_wf_0 x) as [x _ IH]; intros s Hs.
  assert (x = 0 \/ 0 < x)%N as [->|Hpos] by lia.
  - by rewrite pretty_N_go_0.
  - rewrite pretty_N_go_step by done. apply IH.
    + by apply N.div_lt.
    + simpl. rewrite Hs, andb_true_r. apply bool_decide_eq_true.
      unfold pretty_N_char. by repeat case_match.
Qed.

Lemma pretty_Z_colonFree (z : Z) : colonFree (pretty z) = true.
Proof.
  assert (HN : forall p, colonFree (pretty (N.pos p)) = true).
  { intros p. unfold pretty, pretty_N. case_decide; [done|].
    by apply pretty_N_go_colonFree. }
  destruct z as [|p|p]; [done|apply HN|].
  unfold pretty, pretty_Z. simpl. apply HN.
Qed.

(** [`${row}:${col}`] determines [row] and [col]. *)
Lemma coordKey_inj row col row' col' :
  coordKey row col = coordKey row' col' -> row = row' /\ col = col'.
Proof.
  unfold coordKey. intros H.
  apply colon_split in H as [Hr Hc]; try apply pretty_Z_colonFree.
  split; by apply (inj pretty).
Qed.

Lemma NoDup_map_inj {A B} (f : A -> B) (l : list A) (x y : A) :
  NoDup (map f l) -> x ∈ l -> y ∈ l -> f x = f y -> x = y.
Proof.
  induction l as [|a l IH]; simpl; intros Hnd Hx Hy Hf; [inversion Hx|].
  apply NoDup_cons in Hnd as [Ha Hnd].
  apply elem_of_cons in Hx as [->|Hx]; apply elem_of_cons in Hy as [->|Hy]; auto.
  - exfalso. apply Ha. rewrite Hf. apply list_elem_of_fmap. eauto.
  - exfalso. apply Ha. rewrite <- Hf. apply list_elem_of_fmap. eauto.
Qed.

(** ** The maps of a run *)

Lemma layoutOf_lookup_Some blocks id b :
  layoutOf blocks !! id = Some b -> b ∈ blocks /\ b_id b = id.
Proof.
  intros H. apply mapOfEntries_lookup_Some in H.
  apply list_elem_of_fmap in H as (b' & [= -> ->] & Hin). done.
Qed.

Lemma layoutOf_lookup_wf blocks b :
  wellFormed blocks -> b ∈ blocks -> layoutOf blocks !! b_id b = Some b.
Proof.
  intros [Hids _] Hin. apply mapOfEntries_lookup_NoDup.
  - replace ((map (fun block => (b_id block, block)) blocks).*1) with (map b_id blocks); [done|].
    clear. induction blocks as [|a l IH]; [done|]. cbn. by f_equal.
  - apply list_elem_of_fmap. eauto.
Qed.

Lemma indexOf_lookup_Some blocks key id :
  indexOf blocks !! key = Some id ->
  exists b, b ∈ blocks /\ key = coordKey (b_row b) (b_col b) /\ id = b_id b.
Proof.
  intros H. apply mapOfEntries_lookup_Some in H.
  apply list_elem_of_fmap in H as (b & [= -> ->] & Hin). eauto.
Qed.

Lemma indexOf_lookup_wf blocks b :
  wellFormed blocks -> b ∈ blocks ->
  indexOf blocks !! coordKey (b_row b) (b_col b) = Some (b_id b).
Proof.
  intros [_ Hcells] Hin. apply mapOfEntries_lookup_NoDup.
  - replace ((map (fun block => (coordKey (b_row block) (b_col block), b_id block)) blocks).*1)
      with (map (fun cell : Z * Z => coordKey cell.1 cell.2)
                (map (fun block => (b_row block, b_col block)) blocks)).
    + apply NoDup_fmap_2; [|done]. intros [r c] [r' c'] Hk. simpl in Hk.
      apply coordKey_inj in Hk as [-> ->]. done.
    + clear. induction blocks as [|a l IH]; [done|]. cbn. by f_equal.
  - apply list_elem_of_fmap. eauto.
Qed.

Lemma consistent_init blocks :
  wellFormed blocks -> Consistent blocks [] (layoutOf blocks, indexOf blocks).
Proof.
  intros Hwf. split; simpl.
  - intros k. destruct (decide (k ∈ [])) as [H|]; [inversion H|done].
  - intros key id. split.
    + intros H. apply indexOf_lookup_Some in H as (b & Hin & -> & ->).
      exists b. repeat split; try done. intros H. inversion H.
    + intros (b & Hin & -> & -> & _). by apply indexOf_lookup_wf.
Qed.

Lemma consistent_vanishOne blocks V maps id :
  wellFormed blocks -> Consistent blocks V maps ->
  Consistent blocks (V ++ [id]) (vanishOne maps id).
Proof.
  intros Hwf [Halive Hindex]. unfold vanishOne.
  destruct (maps.1 !! id) as [block|] eqn:Hid.
  - assert (Hblock : layoutOf blocks !! id = Some block /\ id ∉ V).
    { rewrite Halive in Hid. destruct (decide (id ∈ V)); [discriminate|done]. }
    destruct Hblock as [Hblock HidV].
    apply layoutOf_lookup_Some in Hblock as [Hin Hbid].
    split; simpl.
    + intros k. destruct (decide (k = id)) as [->|Hne].
      * rewrite lookup_delete_eq. destruct (decide (id ∈ V ++ [id])) as [|Hn]; [done|].
        exfalso. apply Hn, elem_of_app. right. left.
      * rewrite lookup_delete_ne by done. rewrite Halive.
        destruct (decide (k ∈ V)) as [HkV|HkV];
          destruct (decide (k ∈ V ++ [id])) as [HkV'|HkV']; try done.
        -- exfalso. apply HkV', elem_of_app. by left.
        -- apply elem_of_app in HkV' as [|Hk]; [done|].
           apply list_elem_of_singleton in Hk. done.
    + intros key id'. split.
      * intros H. apply lookup_delete_Some in H as [Hkey H].
        apply Hindex in H as (b & Hb & -> & -> & HbV).
        exists b. repeat split; try done.
        intros Hb'. apply elem_of_app in Hb' as [|Hb']; [done|].
        apply list_elem_of_singleton in Hb'.
        assert (b = block); [|by subst].
        destruct Hwf as [Hids _]. eapply NoDup_map_inj; eauto. congruence.
      * intros (b & Hb & -> & -> & HbV).
        apply not_elem_of_app in HbV as [HbV Hbid'].
        apply lookup_delete_Some. split.
        -- intros Hk. apply coordKey_inj in Hk as [Hr Hc].
           apply Hbid'. apply list_elem_of_singleton.
           assert (b = block); [|by subst].
           destruct Hwf as [_ Hcells].
           eapply (NoDup_map_inj (fun block => (b_row block, b_col block))); eauto.
           simpl. congruence.
        -- apply Hindex. eauto 10.
  - rewrite Halive in Hid. split.
    + intros k. rewrite Halive.
      destruct (decide (k ∈ V)) as [HkV|HkV];
        destruct (decide (k ∈ V ++ [id])) as [HkV'|HkV']; try done.
      * exfalso. apply HkV', elem_of_app. by left.
      * apply elem_of_app in HkV' as [|Hk]; [done|].
        apply list_elem_of_singleton in Hk as ->.
        by destruct (decide (id ∈ V)).
    + intros key id'. rewrite Hindex. split.
      * intros (b & Hb & -> & -> & HbV). exists b. repeat split; try done.
        intros Hb'. apply elem_of_app in Hb' as [|Hb']; [done|].
        apply list_elem_of_singleton in Hb'.
        destruct (decide (id ∈ V)) as [|HidV]; [congruence|].
        rewrite <- Hb', (layoutOf_lookup_wf _ _ Hwf Hb) in Hid. discriminate.
      * intros (b & Hb & -> & -> & HbV). exists b. repeat split; try done.
        intros HbV'. apply HbV, elem_of_app. by left.
Qed.

Lemma consistent_vanishWave blocks ids :
  wellFormed blocks ->
  forall V alive index,
    Consistent blocks V (alive, index) ->
    Consistent blocks (V ++ ids) (vanishWave ids alive index).
Proof.
  intros Hwf. unfold vanishWave.
  induction ids as [|id ids IH]; intros V alive index Hc; simpl.
  - by rewrite app_nil_r.
  - replace (V ++ id :: ids) with ((V ++ [id]) ++ ids) by (by rewrite <- app_assoc).
    destruct (vanishOne (alive, index) id) as [alive' index'] eqn:Hv.
    apply IH. rewrite <- Hv. by apply consistent_vanishOne.
Qed.

Lemma mapsAfter_snoc blocks ws w :
  mapsAfter blocks (ws ++ [w])
  = vanishWave (waveIds w) (mapsAfter blocks ws).1 (mapsAfter blocks ws).2.
Proof. unfold mapsAfter. by rewrite foldl_app. Qed.

Lemma vanished_snoc ws w : vanished (ws ++ [w]) = vanished ws ++ waveIds w.
Proof. unfold vanished. rewrite map_app, concat_app. simpl. by rewrite app_nil_r. Qed.

Lemma mapsAfter_consistent blocks :
  wellFormed blocks ->
  forall ws, Consistent blocks (vanished ws) (mapsAfter blocks ws).
Proof.
  intros Hwf ws. induction ws as [|w ws IH] using rev_ind.
  - by apply consistent_init.
  - rewrite mapsAfter_snoc, vanished_snoc.
    apply consistent_vanishWave; [done|]. by destruct (mapsAfter blocks ws).
Qed.

Lemma mapsAfter_alive_lookup blocks ws k :
  (mapsAfter blocks ws).1 !! k
  = if decide (k ∈ vanished ws) then None else layoutOf blocks !! k.
Proof.
  induction ws as [|w ws IH] using rev_ind.
  - simpl. destruct (decide (k ∈ vanished [])) as [H|]; [inversion H|done].
  - rewrite mapsAfter_snoc, vanished_snoc, vanishWave_alive_lookup, IH.
    destruct (decide (k ∈ waveIds w)) as [Hw|Hw];
      destruct (decide (k ∈ vanished ws)) as [Hv|Hv];
      destruct (decide (k ∈ vanished ws ++ waveIds w)) as [Hvw|Hvw]; try done;
      try (exfalso; apply Hvw, elem_of_app; tauto).
    apply elem_of_app in Hvw as [|]; done.
Qed.

Lemma traverse_cons_Ok {A B} (f : A -> Res B) x l ys :
  traverse f (x :: l) = Ok ys ->
  exists y ys', f x = Ok y /\ traverse f l = Ok ys' /\ ys = y :: ys'.
Proof.
  simpl. intros H. apply res_bind_Ok in H as (y & Hy & H).
  apply res_bind_Ok in H as (ys' & Hys' & [= <-]). eauto.
Qed.

Lemma traverse_elem {A B} (f : A -> Res B) l ys y :
  traverse f l = Ok ys -> y ∈ ys -> exists x, x ∈ l /\ f x = Ok y.
Proof.
  revert ys. induction l as [|x l IH]; intros ys H Hy.
  - injection H as <-. inversion Hy.
  - apply traverse_cons_Ok in H as (y' & ys' & Hx & Hl & ->).
    apply elem_of_cons in Hy as [->|Hy].
    + exists x. split; [left|done].
    + destruct (IH _ Hl Hy) as (x' & Hin & Hx'). exists x'. split; [by right|done].
Qed.

Lemma castWave_ids layout ids index rows cols srcs :
  castWave layout ids index rows cols = Ok srcs ->
  (forall id, id ∈ ids -> is_Some (layout !! id)) ->
  map fromId srcs = ids.
Proof.
  unfold castWave, fmap, Res_fmap. intros H. apply res_bind_Ok in H as (ys & Hys & [= <-]).
  revert ys Hys. induction ids as [|id ids IH]; intros ys Hys Hall.
  - by injection Hys as <-.
  - apply traverse_cons_Ok in Hys as (y & ys' & Hy & Hys' & ->).
    destruct (Hall id) as [block Hblock]; [left|]. rewrite Hblock in Hy.
    apply res_bind_Ok in Hy as (cs & _ & [= <-]).
    simpl. f_equal. apply IH; [done|]. intros id' Hin. apply Hall. by right.
Qed.

Lemma castNearest_hit_in_index block dir index rows cols cast t :
  castNearest block dir index rows cols = Ok cast ->
  c_toId cast = Some t ->
  exists key, index !! key = Some t.
Proof.
  intros Hrun Ht. pose proof (castNearest_spec block dir index rows cols) as H.
  destruct (DIR_VECTORS dir) as [dr dc].
  destruct H as (n & toId & Hrun' & _ & _ & Hend).
  rewrite Hrun in Hrun'. injection Hrun' as ->. simpl in Ht. subst toId.
  destruct Hend as (m & _ & Hm). unfold seenAt, truthy in Hm.
  destruct (index !! _) as [id|] eqn:Hk; [|discriminate].
  destruct (decide (id = "")); [discriminate|]. injection Hm as ->. eauto.
Qed.

Lemma castWave_hits layout ids index rows cols srcs src cast t :
  castWave layout ids index rows cols = Ok srcs ->
  src ∈ srcs -> cast ∈ casts src -> c_toId cast = Some t ->
  exists key, index !! key = Some t.
Proof.
  unfold castWave, fmap, Res_fmap. intros H Hsrc Hcast Ht.
  apply res_bind_Ok in H as (ys & Hys & [= <-]).
  apply list_elem_of_In, in_concat in Hsrc as (y & Hy & Hsrc).
  apply list_elem_of_In in Hy. apply list_elem_of_In in Hsrc.
  destruct (traverse_elem _ _ _ _ Hys Hy) as (id & _ & Hid).
  destruct (layout !! id) as [block|].
  - apply res_bind_Ok in Hid as (cs & Hcs & [= <-]).
    apply list_elem_of_singleton in Hsrc as ->. simpl in Hcast.
    destruct (traverse_elem _ _ _ _ Hcs Hcast) as (dir & _ & Hdir).
    by eapply castNearest_hit_in_index.
  - injection Hid as <-. inversion Hsrc.
Qed.

Lemma snoc_split {A} (pre post ws : list A) (w x : A) :
  ws ++ [x] = pre ++ w :: post ->
  (pre = ws /\ w = x /\ post = [])
  \/ exists post', post = post' ++ [x] /\ ws = pre ++ w :: post'.
Proof.
  destruct post as [|p post] using rev_ind.
  - intros H. apply app_inj_tail in H as [-> ->]. by left.
  - intros H. right. exists post.
    rewrite app_comm_cons, app_assoc in H. apply app_inj_tail in H as [-> ->]. done.
Qed.

Lemma waveLoop_inv blocks rows cols fuel :
  forall st st',
    RunInv blocks rows cols st ->
    waveLoop fuel rows cols st = Ok st' ->
    RunInv blocks rows cols st'.
Proof.
  induction fuel as [|fuel IH]; intros st st' Hinv; simpl.
  - destruct (frontier st) as [|f fs]; [by intros [= <-]|].
    destruct (filter _ (f :: fs)); [by intros [= <-]|discriminate].
  - destruct (frontier st) as [|f fs]; [by intros [= <-]|].
    destruct (filter _ (f :: fs)) as [|id cur] eqn:Hcur; [by intros [= <-]|].
    destruct (vanishWave (id :: cur) (aliveById st) (byCoord st)) as [alive index] eqn:Hv.
    intros H. apply res_bind_Ok in H as (srcs & Hsrcs & H).
    apply (IH _ _) in H; [done|]. clear H IH.
    destruct Hinv as (Hlay & Hmaps & Hwaves). simpl.
    assert (Halive : forall id', id' ∈ id :: cur -> is_Some (aliveById st !! id')).
    { intros id' Hin. rewrite <- Hcur in Hin.
      apply list_elem_of_filter in Hin as [Hin _]. by apply has_true. }
    assert (Hids : waveIds (mkWave srcs) = id :: cur).
    { unfold waveIds. simpl. eapply castWave_ids; [exact Hsrcs|].
      intros id' Hin. apply Halive in Hin as [b Hb]. exists b.
      assert (Ha : aliveById st = (mapsAfter blocks (sim_waves st)).1) by (by rewrite <- Hmaps).
      rewrite Ha, mapsAfter_alive_lookup in Hb.
      rewrite Hlay. by destruct (decide (id' ∈ vanished (sim_waves st))). }
    assert (Hnext : mapsAfter blocks (sim_waves st ++ [mkWave srcs]) = (alive, index)).
    { by rewrite mapsAfter_snoc, Hids, <- Hmaps. }
    split; [done|]. split; [done|].
    intros pre w post Hsplit. apply snoc_split in Hsplit as [(-> & -> & ->)|(post' & -> & Hws)].
    + split.
      * intros id' Hin. rewrite Hids in Hin. rewrite <- Hmaps. simpl. by apply Halive.
      * rewrite Hnext, Hids. simpl. by rewrite <- Hlay.
    + by eapply Hwaves.
Qed.

Lemma simulateAttempt_RunInv blocks startId rows cols r :
  simulateAttempt blocks startId rows cols = Ok r ->
  forall pre w post, waves r = pre ++ w :: post -> WaveRun blocks rows cols pre w.
Proof.
  unfold simulateAttempt, simulateAttemptWith, fmap, Res_fmap. intros H.
  apply res_bind_Ok in H as (st & Hst & [= <-]). simpl.
  assert (Hinit : RunInv blocks rows cols (initialSim blocks startId)).
  { split; [done|]. split; [done|]. intros pre w post H. simpl in H.
    by destruct pre. }
  by destruct (waveLoop_inv _ _ _ _ _ _ Hinit Hst) as (_ & _ & H).
Qed.

(** C2: the sources of a wave vanish together before any of its rays is
    cast.  For a layout with unique ids and cells, and for every wave [w]
    of an attempt, with [pre] the waves before it: the sources of [w] were
    alive after [pre] and are deleted from the alive map and from the
    coordinate index on which the casts of [w] are computed; hence no cast
    of [w] hits a source of [w]; and the ids of the layout that this index
    no longer holds are exactly the sources that have vanished so far (those
    of [pre] and [w]), the sources of [w] being the ones that the index
    still held after [pre]. *)
Theorem wave_sources_vanish_before_casts blocks startId rows cols r :
  wellFormed blocks ->
  simulateAttempt blocks startId rows cols = Ok r ->
  forall pre w post, waves r = pre ++ w :: post ->
    let before := mapsAfter blocks pre in
    let atCast := mapsAfter blocks (pre ++ [w]) in
    castWave (layoutOf blocks) (waveIds w) atCast.2 rows cols = Ok (sources w)
    /\ (forall id, id ∈ waveIds w ->
          is_Some (before.1 !! id) /\ atCast.1 !! id = None /\ absentFrom atCast.2 id)
    /\ (forall src cast t,
          src ∈ sources w -> cast ∈ casts src -> c_toId cast = Some t ->
          t ∉ waveIds w)
    /\ (forall id, id ∈ map b_id blocks ->
          (absentFrom atCast.2 id <-> id ∈ vanished (pre ++ [w]))
          /\ (id ∈ waveIds w <-> absentFrom atCast.2 id /\ ~ absentFrom before.2 id)).
Proof.
  intros Hwf Hrun pre w post Hsplit. simpl.
  destruct (simulateAttempt_RunInv _ _ _ _ _ Hrun _ _ _ Hsplit) as [Halive Hcast].
  pose proof (mapsAfter_consistent blocks Hwf (pre ++ [w])) as [_ Hindex].
  pose proof (mapsAfter_consistent blocks Hwf pre) as [_ Hindex0].
  assert (Habsent : forall (V : list string) (maps : gmap string string) id,
            (forall key id', maps !! key = Some id' <->
               exists b, b ∈ blocks /\ key = coordKey (b_row b) (b_col b)
                         /\ id' = b_id b /\ id' ∉ V) ->
            id ∈ map b_id blocks ->
            (absentFrom maps id <-> id ∈ V)).
  { intros V maps id HV Hid. apply list_elem_of_fmap in Hid as (b & -> & Hb). split.
    - intros Habs. destruct (decide (b_id b ∈ V)) as [|Hn]; [done|].
      exfalso. apply (Habs (coordKey (b_row b) (b_col b))). apply HV. eauto 10.
    - intros HbV key Hkey. apply HV in Hkey as (b' & _ & _ & _ & Hn). done. }
  assert (Hsrc : forall id, id ∈ waveIds w -> id ∈ map b_id blocks /\ id ∉ vanished pre).
  { intros id Hin. destruct (Halive id Hin) as [b Hb].
    rewrite mapsAfter_alive_lookup in Hb.
    destruct (decide (id ∈ vanished pre)); [discriminate|]. split; [|done].
    apply layoutOf_lookup_Some in Hb as [Hb <-]. apply list_elem_of_fmap. eauto. }
  assert (Hgone : forall id, id ∈ waveIds w -> absentFrom (mapsAfter blocks (pre ++ [w])).2 id).
  { intros id Hin. apply (Habsent (vanished (pre ++ [w]))); [done|by apply Hsrc|].
    rewrite vanished_snoc. apply elem_of_app. by right. }
  split; [done|]. split; [|split].
  - intros id Hin. split; [by apply Halive|]. split; [|by apply Hgone].
    rewrite mapsAfter_alive_lookup, vanished_snoc.
    destruct (decide (id ∈ vanished pre ++ waveIds w)) as [|Hn]; [done|].
    exfalso. apply Hn, elem_of_app. by right.
  - intros src cast t Hs Hc Ht Hin.
    destruct (castWave_hits _ _ _ _ _ _ _ _ _ Hcast Hs Hc Ht) as [key Hkey].
    by apply (Hgone t Hin key).
  - intros id Hid. split; [by apply Habsent|].
    rewrite (Habsent (vanished (pre ++ [w])) _ id Hindex Hid).
    rewrite (Habsent (vanished pre) _ id Hindex0 Hid).
    rewrite vanished_snoc, elem_of_app. split.
    + intros Hin. split; [by right|]. by apply Hsrc.
    + tauto.
Qed.

Lemma wave_sources_vanish_before_casts_witness :
  let blocks := cycle4 in
  let w := mkWave [mkSource "arrow-1-0-1" [mkCast S (Some "arrow-1-1-1") [(1, 1)]]] in
  let pre := [mkWave [mkSource "arrow-1-0-0" [mkCast E (Some "arrow-1-0-1") [(0, 1)]]]] in
  let before := mapsAfter blocks pre in
  let atCast := mapsAfter blocks (pre ++ [w]) in
  castWave (layoutOf blocks) (waveIds w) atCast.2 2 2 = Ok (sources w)
  /\ (forall id, id ∈ waveIds w ->
        is_Some (before.1 !! id) /\ atCast.1 !! id = None /\ absentFrom atCast.2 id)
  /\ (forall src cast t,
        src ∈ sources w -> cast ∈ casts src -> c_toId cast = Some t ->
        t ∉ waveIds w)
  /\ (forall id, id ∈ map b_id blocks ->
        (absentFrom atCast.2 id <-> id ∈ vanished (pre ++ [w]))
        /\ (id ∈ waveIds w <-> absentFrom atCast.2 id /\ ~ absentFrom before.2 id)).
Proof.
  assert (Hwf : wellFormed cycle4).
  { split; apply (bool_decide_unpack _); vm_compute; exact I. }
  eapply (wave_sources_vanish_before_casts cycle4 "arrow-1-0-0" 2 2 _ Hwf).
  - vm_compute. reflexivity.
  - simpl. reflexivity.
Defined.

(** ** Computations that draw from [rng] *)

Lemma gen_bind_Ok {St A B} (m : Gen St A) (f : A -> Gen St B) s b s' :
  (m ≫= f) s = Ok (b, s') ->
  exists a s1, m s = Ok (a, s1) /\ f a s1 = Ok (b, s').
Proof.
  unfold mbind, Gen_bind. intros H. apply res_bind_Ok in H as ([a s1] & Hm & Hf). eauto.
Qed.

Lemma Post_ret {St A} (a : A) (P : A -> Prop) : P a -> Post (St := St) (mret a) P.
Proof. intros HP s a' s' [= <- <-]. done. Qed.

Lemma Post_bind {St A B} (m : Gen St A) (f : A -> Gen St B) (P : A -> Prop) (Q : B -> Prop) :
  Post m P -> (forall a, P a -> Post (f a) Q) -> Post (m ≫= f) Q.
Proof.
  intros Hm Hf s b s' H. apply gen_bind_Ok in H as (a & s1 & Ha & Hb).
  eapply Hf; [by eapply Hm|exact Hb].
Qed.

Lemma Post_weaken {St A} (m : Gen St A) (P Q : A -> Prop) :
  Post m P -> (forall a, P a -> Q a) -> Post m Q.
Proof. intros Hm HPQ s a s' H. eapply HPQ, Hm, H. Qed.

Lemma Post_liftRes {St A} (m : Res A) (P : A -> Prop) :
  (forall a, m = Ok a -> P a) -> Post (St := St) (liftRes m) P.
Proof.
  intros H s a s' Hm. unfold liftRes in Hm.
  apply res_bind_Ok in Hm as (a' & Ha & [= <- <-]). by apply H.
Qed.

Lemma Total_ret {St A} (a : A) : Total (St := St) (mret a).
Proof. intros s. by exists a, s. Qed.

Lemma Total_bind {St A B} (m : Gen St A) (f : A -> Gen St B) (P : A -> Prop) :
  Total m -> Post m P -> (forall a, P a -> Total (f a)) -> Total (m ≫= f).
Proof.
  intros Hm HP Hf s. destruct (Hm s) as (a & s1 & Ha).
  destruct (Hf a (HP _ _ _ Ha) s1) as (b & s' & Hb).
  exists b, s'. unfold mbind, Gen_bind. rewrite Ha. simpl. exact Hb.
Qed.

Lemma Total_liftRes {St A} (m : Res A) :
  (exists a, m = Ok a) -> Total (St := St) (liftRes m).
Proof. intros [a ->] s. by exists a, s. Qed.

(** Sequencing when nothing is needed of the first result. *)
Ltac total_bind tac :=
  eapply Total_bind with (P := fun _ => True); [tac|by intros ? ? ? _|].

Ltac post_skip :=
  eapply Post_bind with (P := fun _ => True); [by intros ? ? ? _|].

(** *** Rounding to a double *)

Lemma pow2_pos e : (0 < pow2 e)%Q.
Proof. apply Qpower_0_lt. reflexivity. Qed.

Lemma pow2_add a b : (pow2 (a + b) == pow2 a * pow2 b)%Q.
Proof. apply Qpower_plus. discriminate. Qed.

Lemma pow2_Z n : 0 <= n -> (pow2 n == inject_Z (2 ^ n))%Q.
Proof. intros H. unfold pow2. by rewrite Zpower_Qpower. Qed.

Lemma binade_le (q : Q) : (0 < q)%Q -> (pow2 (binade q) <= q)%Q.
Proof.
  intros Hq. unfold binade.
  destruct (Qle_bool _ q) eqn:Hle; [by apply Qle_bool_iff|]. clear Hle.
  destruct q as [a b]. cbn [Qnum Qden].
  assert (Ha : 0 < a) by (unfold Qlt in Hq; cbn [Qnum Qden] in Hq; lia).
  set (la := Z.log2 a). set (lb := Z.log2 (Z.pos b)).
  destruct (Z.log2_spec a Ha) as [Hla _]. fold la in Hla.
  destruct (Z.log2_spec (Z.pos b) ltac:(lia)) as [_ Hlb]. fold lb in Hlb.
  pose proof (Z.log2_nonneg a) as Hna. fold la in Hna.
  pose proof (Z.log2_nonneg (Z.pos b)) as Hnb. fold lb in Hnb.
  assert (Hmul : (pow2 (la - lb - 1) * inject_Z (2 ^ Z.succ lb) == inject_Z (2 ^ la))%Q).
  { rewrite <- !pow2_Z by lia. rewrite <- pow2_add.
    assert (Heq : la - lb - 1 + Z.succ lb = la) by lia. by rewrite Heq. }
  pose proof (pow2_pos (la - lb - 1)) as Hp.
  assert (H1 : (pow2 (la - lb - 1) * inject_Z (Z.pos b) <= inject_Z a)%Q).
  { apply Qle_trans with (pow2 (la - lb - 1) * inject_Z (2 ^ Z.succ lb))%Q.
    - apply Qmult_le_l; [done|]. rewrite <- Zle_Qle. lia.
    - rewrite Hmul. rewrite <- Zle_Qle. lia. }
  rewrite (Qmake_Qdiv a b). apply Qle_shift_div_l; [reflexivity|done].
Qed.

Lemma roundHalfEven_bounds (m : Q) :
  (0 <= m)%Q -> 0 <= roundHalfEven m /\ (inject_Z (roundHalfEven m) <= m + (1 # 2))%Q.
Proof.
  intros Hm. unfold roundHalfEven.
  assert (Hf0 : 0 <= Qfloor m).
  { change 0 with (Qfloor 0). by apply Qfloor_resp_le. }
  pose proof (Qfloor_le m) as Hfl.
  destruct (Qcompare_spec (m - inject_Z (Qfloor m)) (1 # 2)) as [Heq|Hlt|Hgt].
  - destruct (Z.even (Qfloor m)).
    + split; [done|]. lra.
    + split; [lia|]. rewrite inject_Z_plus. change (inject_Z 1) with 1%Q. lra.
  - split; [done|]. lra.
  - split; [lia|]. rewrite inject_Z_plus. change (inject_Z 1) with 1%Q. lra.
Qed.

Lemma toDouble_bounds (x : Q) :
  (0 < x)%Q ->
  (0 <= toDouble x)%Q
  /\ (toDouble x <= x + x * (1 # 2 ^ 53)
      \/ toDouble x <= x + (1 # 2 ^ 1075))%Q.
Proof.
  intros Hx. unfold toDouble.
  destruct (Qcompare_spec x 0) as [Heq|Hlt|_]; [lra|lra|].
  pose proof (pow2_pos (Z.max (binade x - 52) (-1074))) as Hu. fold (quantum x) in Hu.
  set (u := quantum x) in *.
  assert (Hm : (0 <= x / u)%Q).
  { apply Qle_shift_div_l; [done|]. lra. }
  destruct (roundHalfEven_bounds (x / u) Hm) as [HR0 HR].
  split.
  { apply Qmult_le_0_compat; [|lra]. change 0%Q with (inject_Z 0). by rewrite <- Zle_Qle. }
  assert (Hle : (inject_Z (roundHalfEven (x / u)) * u <= x + u * (1 # 2))%Q).
  { apply Qle_trans with ((x / u + (1 # 2)) * u)%Q.
    - apply Qmult_le_compat_r; [done|lra].
    - rewrite Qmult_plus_distr_l. unfold Qdiv.
      rewrite <- Qmult_assoc, (Qmult_comm (/ u)), Qmult_inv_r by lra. lra. }
  subst u. unfold quantum in *.
  destruct (Z.max_spec (binade x - 52) (-1074)) as [[_ Hmax]|[_ Hmax]];
    rewrite Hmax in Hle |- *.
  - right. assert (Hc : (pow2 (-1074) * (1 # 2) == (1 # 2 ^ 1075))%Q) by reflexivity.
    by rewrite Hc in Hle.
  - left. pose proof (binade_le x Hx) as Hb.
    assert (Hhalf : (pow2 (binade x - 52) * (1 # 2) <= x * (1 # 2 ^ 53))%Q).
    { assert (Hsplit : (pow2 (binade x - 52) * (1 # 2)
                        == pow2 (binade x) * (1 # 2 ^ 53))%Q).
      { unfold Z.sub. rewrite pow2_add, <- Qmult_assoc. reflexivity. }
      rewrite Hsplit. apply Qmult_le_compat_r; [done|discriminate]. }
    eapply Qle_trans; [exact Hle|]. by apply Qplus_le_r.
Qed.

Lemma double_below_one (r : Q) :
  IsDouble r -> (0 <= r)%Q -> (r < 1)%Q -> (r <= 1 - (1 # 2 ^ 53))%Q.
Proof.
  intros (m & e & Hm & He & Hr) H0 H1.
  destruct (Z_lt_le_dec e (-53)) as [Hsmall|Hbig].
  - (* below one half *)
    assert (Hp : (pow2 e <= pow2 (-54))%Q).
    { apply Qpower_le_compat_l; [lia|discriminate]. }
    pose proof (pow2_pos e) as Hpos.
    assert (Hm' : (inject_Z m <= inject_Z (2 ^ 53))%Q) by (rewrite <- Zle_Qle; lia).
    assert (Hle : (inject_Z m * pow2 e <= inject_Z (2 ^ 53) * pow2 (-54))%Q).
    { destruct (Z_le_gt_dec 0 m) as [Hm0|Hm0].
      - apply Qle_trans with (inject_Z (2 ^ 53) * pow2 e)%Q.
        + apply Qmult_le_compat_r; [done|lra].
        + apply Qmult_le_l; [reflexivity|done].
      - apply Qle_trans with (0 * pow2 e)%Q.
        + assert (inject_Z m <= 0)%Q by (change 0%Q with (inject_Z 0); rewrite <- Zle_Qle; lia).
          apply Qmult_le_compat_r; [done|lra].
        + rewrite Qmult_0_l. discriminate. }
    rewrite Hr. apply Qle_trans with (inject_Z (2 ^ 53) * pow2 (-54))%Q; [done|discriminate].
  - (* a multiple of 2^-53 *)
    assert (Hsplit : (pow2 e == inject_Z (2 ^ (e + 53)) * (1 # 2 ^ 53))%Q).
    { rewrite <- pow2_Z by lia. change (1 # 2 ^ 53)%Q with (pow2 (-53)).
      rewrite <- pow2_add. assert (Heq : e + 53 + -53 = e) by lia. by rewrite Heq. }
    rewrite Hsplit, Qmult_assoc, <- inject_Z_mult in Hr.
    set (k := m * 2 ^ (e + 53)) in *.
    assert (Hk : k < 2 ^ 53).
    { apply Z.lt_nge. intros Hge.
      assert (inject_Z (2 ^ 53) <= inject_Z k)%Q by (by rewrite <- Zle_Qle).
      assert (Hone : (inject_Z (2 ^ 53) * (1 # 2 ^ 53) == 1)%Q) by reflexivity.
      assert (1 <= inject_Z k * (1 # 2 ^ 53))%Q.
      { rewrite <- Hone. apply Qmult_le_compat_r; [done|discriminate]. }
      lra. }
    assert (Hk' : (inject_Z k <= inject_Z (2 ^ 53 - 1))%Q) by (rewrite <- Zle_Qle; lia).
    assert (Hc : (inject_Z (2 ^ 53 - 1) * (1 # 2 ^ 53) == 1 - (1 # 2 ^ 53))%Q) by reflexivity.
    rewrite Hr, <- Hc. apply Qmult_le_compat_r; [done|discriminate].
Qed.

(** The index that [Math.floor(rng() * n)] reads stays below [n]. *)
Lemma floor_rounded (r : Q) (n : Z) :
  IsDouble r -> (0 <= r)%Q -> (r < 1)%Q -> 1 <= n ->
  0 <= Qfloor (toDouble (r * inject_Z n)) <= n - 1.
Proof.
  intros Hd H0 H1 Hn.
  pose proof (double_below_one r Hd H0 H1) as Hr.
  assert (Hn1 : (1 <= inject_Z n)%Q) by (change 1%Q with (inject_Z 1); by rewrite <- Zle_Qle).
  set (x := (r * inject_Z n)%Q).
  assert (Hx0 : (0 <= x)%Q) by (apply Qmult_le_0_compat; lra).
  assert (Hxn : (x <= (1 - (1 # 2 ^ 53)) * inject_Z n)%Q).
  { apply Qmult_le_compat_r; [done|lra]. }
  assert (Hbound : (0 <= toDouble x)%Q /\ (toDouble x < inject_Z n)%Q).
  { destruct (Qlt_le_dec 0 x) as [Hpos|Hzero].
    - destruct (toDouble_bounds x Hpos) as [Hge [Hle|Hle]].
      + split; [done|].
        set (c := (1 # 2 ^ 53)%Q) in *.
        assert (Hc : ((1 + c) * (1 - c) < 1)%Q) by reflexivity.
        assert (E1 : (x + x * c == x * (1 + c))%Q) by ring.
        assert (E2 : ((1 - c) * inject_Z n * (1 + c) == (1 + c) * (1 - c) * inject_Z n)%Q)
          by ring.
        apply Qle_lt_trans with (x * (1 + c))%Q; [by rewrite <- E1|].
        apply Qle_lt_trans with ((1 - c) * inject_Z n * (1 + c))%Q.
        { apply Qmult_le_compat_r; [done|discriminate]. }
        rewrite E2. rewrite <- (Qmult_1_l (inject_Z n)) at 2.
        apply Qmult_lt_compat_r; [lra|done].
      + split; [done|].
        apply Qle_lt_trans with (x + (1 # 2 ^ 1075))%Q; [done|].
        apply Qlt_le_trans with (x + (1 # 2 ^ 53))%Q.
        { apply Qplus_lt_r. reflexivity. }
        apply Qle_trans with ((1 - (1 # 2 ^ 53)) * inject_Z n + (1 # 2 ^ 53))%Q.
        { by apply Qplus_le_l. }
        set (c := (1 # 2 ^ 53)%Q) in *.
        assert (E : ((1 - c) * inject_Z n + c == inject_Z n - c * (inject_Z n - 1))%Q) by ring.
        rewrite E.
        assert (0 <= c * (inject_Z n - 1))%Q.
        { apply Qmult_le_0_compat; [discriminate|lra]. }
        lra.
    - assert (Hxz : (x == 0)%Q) by lra.
      assert (Ht : toDouble x = 0%Q).
      { unfold toDouble. destruct (Qcompare_spec x 0) as [_|Hlt|Hgt]; [done|lra|lra]. }
      rewrite Ht. split; [discriminate|lra]. }
  destruct Hbound as [Hge Hlt]. split.
  - change 0 with (Qfloor 0). by apply Qfloor_resp_le.
  - assert (Qfloor (toDouble x) < n); [|lia].
    rewrite Zlt_Qlt. eapply Qle_lt_trans; [apply Qfloor_le|done].
Qed.

Section GeneratorFacts.
Context {St : Type}.
Variable next : St -> Q * St.

Lemma Post_chooseRandom {T} (values : list T) :
  Post (chooseRandom next values) (fun v => v ∈ values).
Proof.
  intros s v s' H. unfold chooseRandom in H.
  apply gen_bind_Ok in H as (i & s1 & _ & H).
  unfold nth_Z in H. destruct (i <? 0); [discriminate|].
  destruct (values !! Z.to_nat i) as [v'|] eqn:Hv; [|discriminate].
  injection H as <- <-. by eapply list_elem_of_lookup_2.
Qed.

Lemma Post_shuffleFrom {T} (index : nat) :
  forall values : list T,
    Post (shuffleFrom next index values) (fun l => length l = length values).
Proof.
  induction index as [|index IH]; intros values s l s' H; simpl in H.
  - by injection H as <- <-.
  - apply gen_bind_Ok in H as (j & s1 & _ & H).
    destruct (values !! Datatypes.S index) as [temp|]; [|discriminate].
    destruct (nth_Z values j) as [other|]; [|discriminate].
    apply IH in H. by rewrite !length_insert in H.
Qed.

Lemma Post_shuffle {T} (items : list T) :
  Post (shuffle next items) (fun l => length l = length items).
Proof. apply Post_shuffleFrom. Qed.

Hypothesis next_in_range : InRange next.

Lemma Total_draw : Total (draw next).
Proof. intros s. unfold draw. destruct (next s) as [r s']. eauto. Qed.

Lemma Post_randomInt_range (min max : Z) :
  min <= max -> Post (randomInt next min max) (fun i => min <= i <= max).
Proof.
  intros Hle s i s' H. unfold randomInt in H.
  apply gen_bind_Ok in H as (r & s1 & Hr & H).
  assert (Hi : i = min + Qfloor (toDouble (r * inject_Z (max - min + 1)))).
  { unfold mret, Gen_ret in H. congruence. }
  assert (Hrs : r = (next s).1).
  { unfold draw in Hr. injection Hr as Hr. by rewrite Hr. }
  destruct (next_in_range s) as (Hd & H0 & H1). rewrite <- Hrs in Hd, H0, H1.
  pose proof (floor_rounded r (max - min + 1) Hd H0 H1 ltac:(lia)). lia.
Qed.

Lemma Total_randomInt (min max : Z) : Total (randomInt next min max).
Proof.
  unfold randomInt. eapply Total_bind with (P := fun _ => True).
  - apply Total_draw.
  - by intros s a s' _.
  - intros r _. apply Total_ret.
Qed.

Lemma Total_chooseRandom {T} (values : list T) :
  values <> [] -> Total (chooseRandom next values).
Proof.
  intros Hne. unfold chooseRandom.
  eapply Total_bind; [apply Total_randomInt| |].
  - apply Post_randomInt_range. destruct values; [done|]. simpl. lia.
  - intros i Hi. simpl in Hi. unfold nth_Z.
    destruct (i <? 0) eqn:Hneg; [lia|].
    destruct (lookup_lt_is_Some_2 values (Z.to_nat i)) as [v Hv]; [lia|].
    rewrite Hv. apply Total_ret.
Qed.

Lemma Total_shuffleFrom {T} (index : nat) :
  forall values : list T,
    (index < length values)%nat \/ index = 0%nat ->
    Total (shuffleFrom next index values).
Proof.
  induction index as [|index IH]; intros values Hlen; simpl.
  - apply Total_ret.
  - destruct Hlen as [Hlen|]; [|done].
    eapply Total_bind; [apply Total_randomInt| |].
    + apply (Post_randomInt_range 0 (Z.of_nat (Datatypes.S index))). lia.
    + intros j Hj. simpl in Hj.
      destruct (lookup_lt_is_Some_2 values (Datatypes.S index)) as [temp ->]; [done|].
      unfold nth_Z. destruct (j <? 0) eqn:Hneg; [lia|].
      destruct (lookup_lt_is_Some_2 values (Z.to_nat j)) as [other ->]; [lia|].
      apply IH. left. rewrite !length_insert. lia.
Qed.

Lemma Total_shuffle {T} (items : list T) : Total (shuffle next items).
Proof.
  apply Total_shuffleFrom. destruct items; [by right|]. left. simpl. lia.
Qed.

(** Every iteration of the expansion loop returns null or assigns a cell
    that was unassigned; the [continue] is never reached, because the parent
    was filtered for having an unassigned neighbour. *)
Lemma Total_growLoop rows cols maxDirs pointByKey fuel :
  forall g, (size (unassigned g) <= fuel)%nat ->
    Total (growLoop next fuel rows cols maxDirs pointByKey g).
Proof.
  induction fuel as [|fuel IH]; intros g Hsize.
  - simpl. rewrite bool_decide_eq_true_2 by lia. apply Total_ret.
  - simpl. destruct (bool_decide (size (unassigned g) = 0%nat)) eqn:Hz; [apply Total_ret|].
    destruct (filter _ (inTree g)) as [|e eps] eqn:Heps; [apply Total_ret|].
    eapply Total_bind; [by apply Total_chooseRandom|apply Post_chooseRandom|].
    intros parentKey Hparent. simpl in Hparent. rewrite <- Heps in Hparent.
    apply list_elem_of_filter in Hparent as [Hexp _]. unfold expandable in Hexp.
    destruct (maxDirs <=? _); [discriminate|].
    destruct (pointByKey !! parentKey) as [parent|]; [|discriminate].
    apply existsb_exists in Hexp as (neighbor & Hin & Hun).
    apply list_elem_of_In in Hin. apply bool_decide_eq_true in Hun.
    destruct (filter _ (getNeighborEntries _ _ rows cols)) as [|c cs] eqn:Hcs.
    { assert (Hn : neighbor ∈ filter (fun neighbor => n_key neighbor ∈ unassigned g)
                     (getNeighborEntries (pt_row parent) (pt_col parent) rows cols)).
      { by apply list_elem_of_filter. }
      rewrite Hcs in Hn. inversion Hn. }
    eapply Total_bind; [by apply Total_chooseRandom|apply Post_chooseRandom|].
    intros childEntry Hchild. simpl in Hchild. rewrite <- Hcs in Hchild.
    apply list_elem_of_filter in Hchild as [Hchild _].
    destruct (pointByKey !! n_key childEntry) as [child|]; [|apply Total_ret].
    apply IH. simpl.
    rewrite size_difference by (by apply singleton_subseteq_l).
    rewrite size_singleton.
    assert (size (unassigned g) <> 0%nat) by (by apply bool_decide_eq_false in Hz).
    lia.
Qed.

Lemma Total_buildRandomGrowthTree rows cols maxDirs :
  Total (buildRandomGrowthTree next rows cols maxDirs).
Proof.
  unfold buildRandomGrowthTree.
  destruct (buildAllPoints rows cols) as [|p ps] eqn:Hpts; [apply Total_ret|].
  total_bind ltac:(by apply Total_chooseRandom).
  intros root _.
  total_bind idtac.
  - apply Total_growLoop. simpl.
    etrans; [apply subseteq_size, subseteq_difference_l; reflexivity|].
    rewrite size_dom. etrans; [apply mapOfEntries_size|]. simpl. by rewrite length_map.
  - intros g _. apply Total_ret.
Qed.

End GeneratorFacts.

(** ** The layout builder *)

Lemma getNeighborEntries_nonempty row col rows cols :
  inBounds row col rows cols = true -> 2 <= rows ->
  getNeighborEntries row col rows cols <> [].
Proof.
  intros Hin Hrows Hnil. apply inBounds_true in Hin.
  assert (Hex : exists dir, inBounds (row + (DIR_VECTORS dir).1) (col + (DIR_VECTORS dir).2)
                              rows cols = true /\ dir ∈ ALL_DIRECTIONS).
  { destruct (decide (1 <= row)).
    - exists N. split; [apply inBounds_true; simpl; lia|]. left.
    - exists S. split; [apply inBounds_true; simpl; lia|].
      unfold ALL_DIRECTIONS. rewrite !elem_of_cons. tauto. }
  destruct Hex as (dir & Hb & Hdir).
  assert (Hentry : mkEntry dir (row + (DIR_VECTORS dir).1) (col + (DIR_VECTORS dir).2)
                     (coordKey (row + (DIR_VECTORS dir).1) (col + (DIR_VECTORS dir).2))
                   ∈ getNeighborEntries row col rows cols).
  { unfold getNeighborEntries. apply list_elem_of_filter. split; [done|].
    apply list_elem_of_fmap. exists dir. split; [|done]. by destruct (DIR_VECTORS dir). }
  rewrite Hnil in Hentry. inversion Hentry.
Qed.

Lemma setAdd_nonempty {A} `{EqDecision A} (s : list A) (x : A) : setAdd s x <> [].
Proof.
  unfold setAdd. destruct (decide (x ∈ s)) as [Hin|_].
  - intros ->. inversion Hin.
  - by destruct s.
Qed.

Lemma Forall_concat_all {A} (P : A -> Prop) (ls : list (list A)) :
  Forall (Forall P) ls -> Forall P (List.concat ls).
Proof.
  induction 1 as [|l ls Hl _ IH]; simpl; [constructor|]. apply Forall_app. done.
Qed.

Section BuilderFacts.
Context {St : Type}.
Variable next : St -> Q * St.

Lemma Post_addRandom dirs candidates :
  Post (addRandom next dirs candidates) (fun d => candidates <> [] -> d <> []).
Proof.
  unfold addRandom. destruct candidates as [|c cs].
  - apply Post_ret. done.
  - post_skip.
    intros dir _. apply Post_ret. intros _. apply setAdd_nonempty.
Qed.

(** A cell that has a neighbour never ends with zero directions: the
    third guard adds an arrow whenever the set is still empty. *)
Lemma Post_sparseCell tree serial config row col :
  Post (sparseCell next tree serial config row col)
       (fun block =>
          getNeighborEntries row col (cfg_rows config) (cfg_cols config) <> [] ->
          b_dirs block <> []).
Proof.
  unfold sparseCell.
  post_skip. intros dirs1 _.
  post_skip. intros dirs2 _.
  eapply Post_bind with
    (P := fun d => getNeighborEntries row col (cfg_rows config) (cfg_cols config) <> []
                   -> d <> []).
  - destruct (length dirs2 =? 0)%nat eqn:Hlen.
    + eapply Post_weaken; [apply Post_addRandom|]. intros d Hd Hn. apply Hd.
      by destruct (getNeighborEntries row col (cfg_rows config) (cfg_cols config)).
    + apply Post_ret. intros _ ->. discriminate.
  - intros dirs3 Hdirs3.
    eapply Post_bind; [apply Post_shuffle|]. intros shuffled Hlen.
    apply Post_ret. simpl. intros Hn ->. simpl in Hlen.
    apply Hdirs3; [done|]. by destruct dirs3.
Qed.

Lemma Post_traverseGen {A B} (f : A -> Gen St B) (P : B -> Prop) (l : list A) :
  (forall x, x ∈ l -> Post (f x) P) -> Post (traverseGen f l) (Forall P).
Proof.
  induction l as [|x l IH]; intros Hf; simpl.
  - apply Post_ret. constructor.
  - eapply Post_bind; [apply Hf; left|]. intros y Hy.
    eapply Post_bind; [apply IH; intros z Hz; apply Hf; by right|]. intros ys Hys.
    apply Post_ret. by constructor.
Qed.

Lemma Post_createSparseBlocksFromTree tree serial config :
  2 <= cfg_rows config ->
  Post (createSparseBlocksFromTree next tree serial config) NonEmptyDirs.
Proof.
  intros Hrows. unfold createSparseBlocksFromTree.
  eapply Post_bind with (P := Forall NonEmptyDirs).
  - apply Post_traverseGen. intros row Hrow. apply elem_of_seqZ in Hrow.
    apply Post_traverseGen. intros col Hcol. apply elem_of_seqZ in Hcol.
    eapply Post_weaken; [apply Post_sparseCell|]. intros block Hb. apply Hb.
    apply getNeighborEntries_nonempty; [|done]. apply inBounds_true. lia.
  - intros rowsOfBlocks Hall. apply Post_ret. by apply Forall_concat_all.
Qed.

Hypothesis next_in_range : InRange next.

Lemma Total_addRandom dirs candidates : Total (addRandom next dirs candidates).
Proof.
  unfold addRandom. destruct candidates as [|c cs]; [apply Total_ret|].
  total_bind ltac:(by apply Total_chooseRandom).
  intros dir _. apply Total_ret.
Qed.

Lemma Total_sparseCell tree serial config row col :
  Total (sparseCell next tree serial config row col).
Proof.
  unfold sparseCell.
  total_bind idtac.
  { destruct (_ <? maxDirs config); [|apply Total_ret].
    total_bind ltac:(by apply Total_draw).
    intros r _. destruct (Qlt_le_dec r _); [apply Total_addRandom|apply Total_ret]. }
  intros dirs1 _.
  total_bind idtac.
  { destruct (length dirs1 =? 0)%nat; [|apply Total_ret].
    total_bind ltac:(by apply Total_draw).
    intros r _. destruct (Qlt_le_dec r _); [apply Total_addRandom|apply Total_ret]. }
  intros dirs2 _.
  total_bind idtac.
  { destruct (length dirs2 =? 0)%nat; [apply Total_addRandom|apply Total_ret]. }
  intros dirs3 _.
  total_bind ltac:(by apply Total_shuffle).
  intros shuffled _. apply Total_ret.
Qed.

Lemma Total_traverseGen {A B} (f : A -> Gen St B) (l : list A) :
  (forall x, Total (f x)) -> Total (traverseGen f l).
Proof.
  intros Hf. induction l as [|x l IH]; simpl; [apply Total_ret|].
  total_bind ltac:(apply Hf).
  intros y _.
  total_bind ltac:(apply IH).
  intros ys _. apply Total_ret.
Qed.

Lemma Total_createSparseBlocksFromTree tree serial config :
  Total (createSparseBlocksFromTree next tree serial config).
Proof.
  unfold createSparseBlocksFromTree.
  total_bind idtac.
  - apply Total_traverseGen. intros row. apply Total_traverseGen. intros col.
    apply Total_sparseCell.
  - intros rowsOfBlocks _. apply Total_ret.
Qed.

End BuilderFacts.

(** ** The winner scan *)

Lemma scanWinners_total all rest rows cols stopAfter :
  forall winners, exists ws, scanWinners all rest rows cols stopAfter winners = Ok ws.
Proof.
  induction rest as [|block rest IH]; intros winners; simpl; [eauto|].
  destruct (simulateAttempt_total all (b_id block) rows cols) as [r ->]. simpl.
  destruct (success r); simpl; [|apply IH].
  destruct (stopAfter <=? _)%nat; [eauto|apply IH].
Qed.

(** The scan stops early only when it has [stopAfter] winners: a shorter
    result lists every winner. *)
Lemma scanWinners_all all rows cols stopAfter rest :
  forall winners ws,
    scanWinners all rest rows cols stopAfter winners = Ok ws ->
    (length ws < stopAfter)%nat ->
    ws = winners ++ map b_id (filter (fun block => wins all rows cols block = true) rest).
Proof.
  induction rest as [|block rest IH]; intros winners ws H Hlen; simpl in H.
  - injection H as <-. by rewrite app_nil_r.
  - apply res_bind_Ok in H as (r & Hr & H).
    assert (Hw : wins all rows cols block = success r) by (unfold wins; by rewrite Hr).
    rewrite filter_cons.
    destruct (decide (wins all rows cols block = true)) as [Ht|Hf].
    + rewrite Hw in Ht. rewrite Ht in H. simpl in H.
      destruct (stopAfter <=? length (winners ++ [b_id block]))%nat eqn:Hstop.
      * injection H as <-. apply Nat.leb_le in Hstop. lia.
      * apply IH in H; [|done]. by rewrite <- app_assoc in H.
    + rewrite Hw in Hf. destruct (success r); [done|]. simpl in H. by apply IH.
Qed.

Lemma collectWinningStarts_all blocks rows cols ws :
  collectWinningStarts blocks rows cols WINNER_SCAN_STOP = Ok ws ->
  (length ws <= TARGET_MAX_WINNERS)%nat ->
  length (winnersOf blocks rows cols) = length ws.
Proof.
  intros H Hlen. apply scanWinners_all in H.
  - rewrite H. simpl. by rewrite length_map.
  - unfold WINNER_SCAN_STOP. lia.
Qed.

(** ** The search loop *)

Section SearchFacts.
Context {St : Type}.
Variable next : St -> Q * St.

Lemma Post_attemptOnce serial config fallback :
  2 <= cfg_rows config ->
  FallbackGood config fallback ->
  Post (attemptOnce next serial config fallback) (AttemptGood config).
Proof.
  intros Hrows Hfb. unfold attemptOnce.
  post_skip.
  intros [tree|] _; [|by apply Post_ret].
  eapply Post_bind; [by apply Post_createSparseBlocksFromTree|]. intros blocks Hdirs.
  eapply Post_bind; [apply Post_liftRes; intros a Ha; exact Ha|].
  intros rootValidation Hroot. simpl in Hroot.
  destruct (success rootValidation) eqn:Hsuccess; simpl; [|by apply Post_ret].
  eapply Post_bind; [apply Post_liftRes; intros a Ha; exact Ha|].
  intros winners Hwinners. simpl in Hwinners.
  assert (Hgood : Good config blocks
                    (blockId serial (pt_row (root tree)) (pt_col (root tree)))).
  { split; [done|]. by exists rootValidation. }
  destruct (length winners <=? TARGET_MAX_WINNERS)%nat eqn:Hcount.
  - apply Post_ret. split; [done|]. apply Nat.leb_le in Hcount.
    by rewrite (collectWinningStarts_all _ _ _ _ Hwinners Hcount).
  - apply Post_ret. simpl. destruct fallback as [fb|]; [|done].
    by destruct (length winners <? f_winnerCount fb)%nat.
Qed.

Lemma Post_searchLoop serial config n :
  2 <= cfg_rows config ->
  forall fallback,
    FallbackGood config fallback ->
    Post (searchLoop next n serial config fallback) (AttemptGood config).
Proof.
  intros Hrows. induction n as [|n IH]; intros fallback Hfb; simpl.
  - by apply Post_ret.
  - eapply Post_bind; [by apply Post_attemptOnce|].
    intros [fallback'|blocks startId] Ha.
    + by apply IH.
    + by apply Post_ret.
Qed.

Hypothesis next_in_range : InRange next.

Lemma Total_attemptOnce serial config fallback :
  Total (attemptOnce next serial config fallback).
Proof.
  unfold attemptOnce.
  total_bind ltac:(by apply Total_buildRandomGrowthTree).
  intros [tree|] _; [|apply Total_ret].
  total_bind ltac:(by apply Total_createSparseBlocksFromTree).
  intros blocks _.
  total_bind ltac:(apply Total_liftRes, simulateAttempt_total).
  intros rootValidation _. destruct (success rootValidation); simpl; [|apply Total_ret].
  total_bind ltac:(apply Total_liftRes, scanWinners_total).
  intros winners _. destruct (_ <=? _)%nat; apply Total_ret.
Qed.

Lemma Total_searchLoop serial config n :
  forall fallback, Total (searchLoop next n serial config fallback).
Proof.
  induction n as [|n IH]; intros fallback; simpl; [apply Total_ret|].
  total_bind ltac:(apply Total_attemptOnce).
  intros [fallback'|blocks startId] _; [apply IH|apply Total_ret].
Qed.

End SearchFacts.

(** ** The degraded paths *)

(** With the fixed profiles the emergency tree is never built: the greedy
    path that [() => 0.5] grows with out-degree 1 dead-ends on every grid
    from 5 x 5 to 9 x 9. *)
Lemma emergencyTree_null difficulty :
  let config := DIFFICULTY_CONFIGS difficulty in
  runWith (buildRandomGrowthTree (constNext (1 # 2)) (cfg_rows config) (cfg_cols config) 1) tt
  = Ok None.
Proof. destruct difficulty; vm_compute; reflexivity. Qed.

Lemma dyadic_IsDouble (m e : Z) (q : Q) :
  Z.abs m < 2 ^ 53 -> -1074 <= e <= 971 -> (q == inject_Z m * pow2 e)%Q -> IsDouble q.
Proof. intros Hm He Hq. by exists m, e. Qed.

Lemma constNext_in_range (q : Q) :
  IsDouble q -> (0 <= q)%Q -> (q < 1)%Q -> InRange (constNext q).
Proof. intros Hd H0 H1 s. done. Qed.

Lemma IsDouble_quarters (k : Z) : 0 <= k <= 4 -> IsDouble (k # 4).
Proof.
  intros Hk. apply (dyadic_IsDouble k (-2)); [lia|lia|].
  unfold Qeq. simpl. lia.
Qed.

Lemma IsDouble_half : IsDouble (1 # 2).
Proof. by apply (dyadic_IsDouble 1 (-1)). Qed.

(** The seeded generator returns [(current >>> 0) / 2^32]. *)
Lemma seededNext_in_range : InRange seededNext.
Proof.
  intros current. unfold seededNext. cbv zeta. cbn [fst].
  set (c := Z.lxor _ _). unfold toUint32.
  pose proof (Z.mod_pos_bound c (2 ^ 32) ltac:(lia)) as Hb.
  split.
  - apply (dyadic_IsDouble (c mod 2 ^ 32) (-32)); [lia|lia|].
    unfold Qeq. simpl. lia.
  - unfold Qle, Qlt. cbn [Qnum Qden]. lia.
Qed.

Lemma buildAllPoints_inBounds rows cols point :
  point ∈ buildAllPoints rows cols ->
  inBounds (pt_row point) (pt_col point) rows cols = true.
Proof.
  unfold buildAllPoints. intros H.
  apply list_elem_of_bind in H as (r & H & Hr).
  apply list_elem_of_bind in H as (c & H & Hc).
  apply list_elem_of_singleton in H as ->. simpl.
  apply elem_of_seqZ in Hr. apply elem_of_seqZ in Hc. apply inBounds_true. lia.
Qed.

Lemma basicBlocks_one_arrow serial config blocks :
  basicBlocks serial config = Ok blocks ->
  Forall (fun block => length (b_dirs block) = 1%nat) blocks.
Proof.
  intros H. apply Forall_forall. intros block Hin.
  destruct (traverse_elem _ _ _ _ H Hin) as (point & _ & Hb).
  apply res_bind_Ok in Hb as (dir & _ & [= <-]). done.
Qed.

Lemma basicBlocks_total serial config :
  2 <= cfg_rows config ->
  exists blocks,
    basicBlocks serial config = Ok blocks
    /\ length blocks = length (buildAllPoints (cfg_rows config) (cfg_cols config)).
Proof.
  intros Hrows. apply traverse_total. intros point Hpoint.
  apply buildAllPoints_inBounds in Hpoint.
  pose proof (getNeighborEntries_nonempty _ _ _ _ Hpoint Hrows) as Hne.
  destruct (Total_chooseRandom (constNext (1 # 2))
              (constNext_in_range (1 # 2) IsDouble_half ltac:(done) ltac:(done))
              (map n_dir (getNeighborEntries (pt_row point) (pt_col point)
                            (cfg_rows config) (cfg_cols config)))
              ltac:(by destruct (getNeighborEntries _ _ _ _)) tt) as (dir & s' & Hdir).
  unfold mbind, Res_bind, runWith. rewrite Hdir. simpl. eauto.
Qed.

Lemma config_rows_ge_2 difficulty : 2 <= cfg_rows (DIFFICULTY_CONFIGS difficulty).
Proof. destruct difficulty; simpl; lia. Qed.

Lemma degradedPuzzle_good difficulty serial via :
  degradedPuzzle difficulty serial = Ok via ->
  via.1 = LastResort /\ PuzzleGood difficulty via.
Proof.
  unfold degradedPuzzle. pose proof (emergencyTree_null difficulty) as Htree.
  simpl in Htree. unfold mbind, Res_bind. rewrite Htree. simpl.
  intros H. apply res_bind_Ok in H as (blocks & Hblocks & H).
  destruct blocks as [|first rest]; [discriminate|]. injection H as <-.
  split; [done|]. unfold PuzzleGood. simpl. repeat split.
  by eapply basicBlocks_one_arrow.
Qed.

Lemma degradedPuzzle_total difficulty serial :
  exists via, degradedPuzzle difficulty serial = Ok via.
Proof.
  unfold degradedPuzzle. pose proof (emergencyTree_null difficulty) as Htree.
  simpl in Htree. unfold mbind, Res_bind. rewrite Htree. simpl.
  destruct (basicBlocks_total serial (DIFFICULTY_CONFIGS difficulty)
              (config_rows_ge_2 difficulty)) as (blocks & -> & Hlen).
  simpl. destruct blocks as [|first rest]; [|eauto].
  exfalso. destruct difficulty; vm_compute in Hlen; discriminate.
Qed.

(** ** [createPuzzle] *)

Section CreatePuzzleFacts.
Context {St : Type}.
Variable next : St -> Q * St.

Lemma Post_createPuzzleVia difficulty serial :
  Post (createPuzzleVia next difficulty serial) (PuzzleGood difficulty).
Proof.
  unfold createPuzzleVia.
  eapply Post_bind.
  { apply Post_searchLoop; [apply config_rows_ge_2|done]. }
  intros [[fb|]|blocks startId] Ha.
  - apply Post_ret. unfold PuzzleGood. simpl. repeat split; apply Ha.
  - apply Post_liftRes. intros via Hvia. by apply degradedPuzzle_good in Hvia as [_ H].
  - apply Post_ret. unfold PuzzleGood. simpl. repeat split; apply Ha.
Qed.

Lemma Total_createPuzzleVia difficulty serial :
  InRange next -> Total (createPuzzleVia next difficulty serial).
Proof.
  intros Hrange. unfold createPuzzleVia.
  total_bind ltac:(by apply Total_searchLoop).
  intros [[fb|]|blocks startId] _; try apply Total_ret.
  apply Total_liftRes, degradedPuzzle_total.
Qed.

End CreatePuzzleFacts.

Lemma createPuzzle_of_via {St} (next : St -> Q * St) difficulty serial s via s' :
  createPuzzleVia next difficulty serial s = Ok (via, s') ->
  createPuzzle next difficulty serial s = Ok (via.2, s').
Proof. intros H. unfold createPuzzle, mbind, Gen_bind. by rewrite H. Qed.

(** When an iteration fails without a fallback and leaves the closure in
    the state it found it in, every later iteration does the same. *)
Lemma searchLoop_stuck {St} (next : St -> Q * St) serial config s :
  attemptOnce next serial config None s = Ok (Retry None, s) ->
  forall n, searchLoop next n serial config None s = Ok (Retry None, s).
Proof.
  intros H n. induction n as [|n IH]; simpl; [done|].
  unfold mbind, Gen_bind. rewrite H. simpl. exact IH.
Qed.

(** ** The claims about [createPuzzle] *)

(** C1, as amended: for every difficulty, rng and serial, when
    [createPuzzle] returns through the in-budget acceptance or through the
    best fallback (the emergency path is never taken with the fixed
    profiles), the attempt started at its [solutionStartId] clears the
    board of its layout. *)
Theorem createPuzzle_solution_solves {St} (next : St -> Q * St)
    difficulty serial s path p s' :
  createPuzzleVia next difficulty serial s = Ok ((path, p), s') ->
  path <> LastResort ->
  createPuzzle next difficulty serial s = Ok (p, s')
  /\ (path = InBudget \/ path = BestFallback)
  /\ exists r,
       simulateAttempt (initialBlocks p) (solutionStartId p) (p_rows p) (p_cols p) = Ok r
       /\ success r = true.
Proof.
  intros Hvia Hpath. split; [by apply createPuzzle_of_via in Hvia|].
  destruct (Post_createPuzzleVia next difficulty serial _ _ _ Hvia)
    as (_ & Hrows & Hcols & Hgood).
  simpl in *. rewrite Hrows, Hcols.
  destruct path; try done.
  - split; [by left|]. by destruct Hgood as [[_ Hsolved] _].
  - split; [by right|]. by destruct Hgood as [_ Hsolved].
Qed.

Lemma createPuzzle_solution_solves_witness :
  exists p,
    createPuzzleVia (constNext (3 # 4)) normal 1 tt = Ok ((InBudget, p), tt)
    /\ InBudget <> LastResort
    /\ createPuzzle (constNext (3 # 4)) normal 1 tt = Ok (p, tt)
    /\ (InBudget = InBudget \/ InBudget = BestFallback)
    /\ exists r,
         simulateAttempt (initialBlocks p) (solutionStartId p) (p_rows p) (p_cols p) = Ok r
         /\ success r = true.
Proof.
  eassert (Hvia : createPuzzleVia (constNext (3 # 4)) normal 1 tt = Ok ((InBudget, _), tt)).
  { vm_compute. reflexivity. }
  assert (Hpath : InBudget <> LastResort) by discriminate.
  eexists. split; [exact Hvia|]. split; [exact Hpath|].
  exact (createPuzzle_solution_solves _ _ _ _ _ _ _ Hvia Hpath).
Defined.

(** C1, as stated, fails: with the rng [() => 0.25] no iteration of the
    budget builds a growth tree on the 8 x 8 grid, no fallback exists, the
    emergency tree is null, and the start of the last-resort layout does not
    clear the board. *)
Lemma createPuzzle_last_resort_unsolved :
  InRange (constNext (1 # 4))
  /\ exists p,
       createPuzzleVia (constNext (1 # 4)) expert 1 tt = Ok ((LastResort, p), tt)
       /\ createPuzzle (constNext (1 # 4)) expert 1 tt = Ok (p, tt)
       /\ exists r,
            simulateAttempt (initialBlocks p) (solutionStartId p) (p_rows p) (p_cols p) = Ok r
            /\ success r = false.
Proof.
  split; [apply constNext_in_range; [apply (IsDouble_quarters 1); lia|done|done]|].
  assert (Hstuck : attemptOnce (constNext (1 # 4)) 1 (DIFFICULTY_CONFIGS expert) None tt
                   = Ok (Retry None, tt)).
  { vm_compute. reflexivity. }
  eassert (Hvia : createPuzzleVia (constNext (1 # 4)) expert 1 tt = Ok ((LastResort, _), tt)).
  { unfold createPuzzleVia, mbind, Gen_bind.
    rewrite (searchLoop_stuck _ _ _ _ Hstuck). vm_compute. reflexivity. }
  eexists. split; [exact Hvia|]. split; [by apply createPuzzle_of_via in Hvia|].
  vm_compute. eexists. split; reflexivity.
Qed.

(** C4: for every difficulty, rng with values in [[0,1)] and serial,
    [createPuzzle] returns a puzzle: no loop of the embedding uses up its
    budget and no error is raised.  The search loop has the fixed budget of
    220 iterations; the expansion loop of [buildRandomGrowthTree] returns
    within as many iterations as the grid has cells; the wave loop of
    [simulateAttempt] returns within as many waves as the layout has
    blocks. *)
Theorem createPuzzle_terminates {St} (next : St -> Q * St) :
  InRange next ->
  (forall difficulty serial s,
      exists p s', createPuzzle next difficulty serial s = Ok (p, s'))
  /\ GENERATE_RETRIES = 220%nat
  /\ (forall rows cols maxDirs s,
        exists tree s', buildRandomGrowthTree next rows cols maxDirs s = Ok (tree, s'))
  /\ (forall blocks startId rows cols,
        exists r, simulateAttempt blocks startId rows cols = Ok r).
Proof.
  intros Hrange. split; [|split; [done|split]].
  - intros difficulty serial s.
    destruct (Total_createPuzzleVia next difficulty serial Hrange s) as (via & s' & Hvia).
    exists via.2, s'. by apply createPuzzle_of_via.
  - intros rows cols maxDirs. by apply Total_buildRandomGrowthTree.
  - apply simulateAttempt_total.
Qed.

Lemma createPuzzle_terminates_witness :
  InRange seededNext
  /\ (forall difficulty serial s,
        exists p s', createPuzzle seededNext difficulty serial s = Ok (p, s'))
  /\ GENERATE_RETRIES = 220%nat
  /\ (forall rows cols maxDirs s,
        exists tree s',
          buildRandomGrowthTree seededNext rows cols maxDirs s = Ok (tree, s'))
  /\ (forall blocks startId rows cols,
        exists r, simulateAttempt blocks startId rows cols = Ok r).
Proof.
  split; [exact seededNext_in_range|].
  exact (createPuzzle_terminates seededNext seededNext_in_range).
Defined.

(** C7: every block of a layout that [createPuzzle] returns has at least
    one direction.  [createSparseBlocksFromTree] ends every cell that has a
    neighbour with a non-empty set, and the last-resort layout gives every
    cell exactly one arrow. *)
Theorem createPuzzle_dirs_nonempty {St} (next : St -> Q * St) :
  InRange next ->
  (forall difficulty serial s,
      exists p s',
        createPuzzle next difficulty serial s = Ok (p, s')
        /\ Forall (fun block => b_dirs block <> []) (initialBlocks p))
  /\ (forall tree serial config s blocks s',
        2 <= cfg_rows config ->
        createSparseBlocksFromTree next tree serial config s = Ok (blocks, s') ->
        Forall (fun block => b_dirs block <> []) blocks)
  /\ (forall serial config blocks,
        basicBlocks serial config = Ok blocks ->
        Forall (fun block => length (b_dirs block) = 1%nat) blocks).
Proof.
  intros Hrange. split; [|split].
  - intros difficulty serial s.
    destruct (Total_createPuzzleVia next difficulty serial Hrange s)
      as ([path p] & s' & Hvia).
    exists p, s'. split; [by apply createPuzzle_of_via in Hvia|].
    destruct (Post_createPuzzleVia next difficulty serial _ _ _ Hvia) as (_ & _ & _ & Hgood).
    simpl in Hgood. destruct path.
    + by destruct Hgood as [[Hdirs _] _].
    + by destruct Hgood as [Hdirs _].
    + done.
    + eapply Forall_impl; [exact Hgood|]. intros block Hlen Hnil.
      simpl in Hlen. rewrite Hnil in Hlen. discriminate.
  - intros tree serial config s blocks s' Hrows Hrun.
    by apply (Post_createSparseBlocksFromTree next tree serial config Hrows _ _ _ Hrun).
  - apply basicBlocks_one_arrow.
Qed.

Lemma createPuzzle_dirs_nonempty_witness :
  InRange seededNext
  /\ exists p s',
       createPuzzle seededNext normal 1 (createSeededRandom (INITIAL_SEED normal)) = Ok (p, s')
       /\ Forall (fun block => b_dirs block <> []) (initialBlocks p).
Proof.
  split; [exact seededNext_in_range|].
  exact (proj1 (createPuzzle_dirs_nonempty seededNext seededNext_in_range)
           normal 1 (createSeededRandom (INITIAL_SEED normal))).
Defined.

(** C8: when [createPuzzle] returns through the in-budget acceptance, at
    most 2 blocks of the returned layout clear the board when activated
    alone.  The winner scan stops early only at its third winner, so a
    result of at most 2 ids lists every winner of the layout. *)
Theorem accepted_layout_winner_cap {St} (next : St -> Q * St) :
  (forall difficulty serial s p s',
      createPuzzleVia next difficulty serial s = Ok ((InBudget, p), s') ->
      createPuzzle next difficulty serial s = Ok (p, s')
      /\ (length (winnersOf (initialBlocks p) (p_rows p) (p_cols p)) <= 2)%nat)
  /\ (forall blocks rows cols ws,
        collectWinningStarts blocks rows cols WINNER_SCAN_STOP = Ok ws ->
        (length ws <= 2)%nat ->
        ws = map b_id (winnersOf blocks rows cols)).
Proof.
  split.
  - intros difficulty serial s p s' Hvia.
    split; [by apply createPuzzle_of_via in Hvia|].
    destruct (Post_createPuzzleVia next difficulty serial _ _ _ Hvia)
      as (_ & Hrows & Hcols & _ & Hcap).
    simpl in *. by rewrite Hrows, Hcols.
  - intros blocks rows cols ws Hscan Hlen.
    apply scanWinners_all in Hscan; [done|]. unfold WINNER_SCAN_STOP, TARGET_MAX_WINNERS. lia.
Qed.

Lemma accepted_layout_winner_cap_witness :
  exists p s',
    createPuzzleVia seededNext normal 1 (createSeededRandom (INITIAL_SEED normal))
    = Ok ((InBudget, p), s')
    /\ createPuzzle seededNext normal 1 (createSeededRandom (INITIAL_SEED normal)) = Ok (p, s')
    /\ (length (winnersOf (initialBlocks p) (p_rows p) (p_cols p)) <= 2)%nat.
Proof.
  eassert (Hvia : createPuzzleVia seededNext normal 1 (createSeededRandom (INITIAL_SEED normal))
                  = Ok ((InBudget, _), _)).
  { vm_compute. reflexivity. }
  eexists. eexists. split; [exact Hvia|].
  exact (proj1 (accepted_layout_winner_cap seededNext) normal 1 _ _ _ Hvia).
Defined.

(** * Further properties *)

(** ** Template strings *)

Lemma sep_split (c : ascii) s s' t t' :
  charFree c s = true -> charFree c s' = true ->
  s +:+ String c t = s' +:+ String c t' -> s = s' /\ t = t'.
Proof.
  revert s'. induction s as [|a s IH]; intros [|a' s']; simpl; intros Hs Hs' Heq.
  - by inversion Heq.
  - inversion Heq; subst. apply andb_true_iff in Hs' as [Ha _].
    by apply bool_decide_eq_true in Ha.
  - inversion Heq; subst. apply andb_true_iff in Hs as [Ha _].
    by apply bool_decide_eq_true in Ha.
  - inversion Heq; subst.
    apply andb_true_iff in Hs as [_ Hs]. apply andb_true_iff in Hs' as [_ Hs'].
    destruct (IH s' Hs Hs' ltac:(done)) as [-> ->]. done.
Qed.

Lemma pretty_N_go_charFree (c : ascii) (x : BinNums.N) (s : string) :
  (forall d, pretty_N_char d <> c) ->
  charFree c s = true -> charFree c (pretty_N_go x s) = true.
Proof.
  intros Hc. revert s. induction (N.lt_wf_0 x) as [x _ IH]; intros s Hs.
  assert (x = 0 \/ 0 < x)%N as [->|Hpos] by lia.
  - by rewrite pretty_N_go_0.
  - rewrite pretty_N_go_step by done. apply IH.
    + by apply N.div_lt.
    + simpl. rewrite Hs, andb_true_r. apply bool_decide_eq_true. apply Hc.
Qed.

Lemma pretty_pos_charFree (c : ascii) (p : positive) :
  (forall d, pretty_N_char d <> c) -> charFree c (pretty (N.pos p)) = true.
Proof.
  intros Hc. unfold pretty, pretty_N. case_decide; [done|].
  by apply pretty_N_go_charFree.
Qed.

Lemma pretty_Z_nonneg_charFree (c : ascii) (z : Z) :
  (forall d, pretty_N_char d <> c) -> 0 <= z -> charFree c (pretty z) = true.
Proof.
  intros Hc Hz. destruct z as [|p|p]; [|by apply pretty_pos_charFree|lia].
  simpl. rewrite andb_true_r. apply bool_decide_eq_true. apply (Hc 0%N).
Qed.

Lemma not_digit_comma d : pretty_N_char d <> ","%char.
Proof. unfold pretty_N_char. by repeat case_match. Qed.

Lemma not_digit_dash d : pretty_N_char d <> "-"%char.
Proof. unfold pretty_N_char. by repeat case_match. Qed.

Lemma pretty_Z_commaFree (z : Z) : charFree "," (pretty z) = true.
Proof.
  destruct z as [|p|p]; [done|apply pretty_pos_charFree, not_digit_comma|].
  unfold pretty, pretty_Z. change (charFree "," (pretty (N.pos p)) = true).
  apply pretty_pos_charFree, not_digit_comma.
Qed.

Lemma deltaKey_inj dr dc dr' dc' :
  deltaKey dr dc = deltaKey dr' dc' -> dr = dr' /\ dc = dc'.
Proof.
  unfold deltaKey. intros H.
  apply (sep_split ",") in H as [Hr Hc]; try apply pretty_Z_commaFree.
  split; by apply (inj pretty).
Qed.

Lemma append_inj_l (s t t' : string) : s +:+ t = s +:+ t' -> t = t'.
Proof. induction s as [|a s IH]; simpl; [done|]. intros [= H]. by apply IH. Qed.

Lemma blockId_same_serial serial row col row' col' :
  0 <= row -> 0 <= row' ->
  blockId serial row col = blockId serial row' col' -> row = row' /\ col = col'.
Proof.
  intros Hr Hr'. unfold blockId. intros H.
  apply append_inj_l, append_inj_l, append_inj_l in H.
  apply (sep_split "-") in H as [H1 H2];
    try (apply pretty_Z_nonneg_charFree; [apply not_digit_dash|done]).
  split; by apply (inj pretty).
Qed.

(** X1: the keys [`${row}:${col}`] and [`${dr},${dc}`] determine their two
    numbers, so two cells share a coordinate key only when they are the same
    cell. *)
Theorem coordinate_keys_identify_cells :
  (forall row col row' col',
      coordKey row col = coordKey row' col' <-> row = row' /\ col = col')
  /\ (forall dr dc dr' dc',
        deltaKey dr dc = deltaKey dr' dc' <-> dr = dr' /\ dc = dc').
Proof.
  split.
  - intros row col row' col'. split; [apply coordKey_inj|by intros [-> ->]].
  - intros dr dc dr' dc'. split; [apply deltaKey_inj|by intros [-> ->]].
Qed.

(** X2: block ids [`arrow-${serial}-${row}-${col}`] are never empty, and for
    non-negative serials, rows and columns they determine the serial and the
    cell. *)
Theorem blockId_identifies_cell :
  (forall serial row col, blockId serial row col <> "")
  /\ (forall serial row col serial' row' col',
        0 <= serial -> 0 <= serial' -> 0 <= row -> 0 <= row' ->
        blockId serial row col = blockId serial' row' col' ->
        serial = serial' /\ row = row' /\ col = col').
Proof.
  split; [done|].
  intros serial row col serial' row' col' Hs Hs' Hr Hr'. unfold blockId. intros H.
  apply append_inj_l in H.
  apply (sep_split "-") in H as [H1 H];
    try (apply pretty_Z_nonneg_charFree; [apply not_digit_dash|done]).
  apply (sep_split "-") in H as [H2 H3];
    try (apply pretty_Z_nonneg_charFree; [apply not_digit_dash|done]).
  repeat split; by apply (inj pretty).
Qed.

Lemma blockId_identifies_cell_witness :
  0 <= 1 /\ 0 <= 1 /\ 0 <= 2 /\ 0 <= 2
  /\ blockId 1 2 3 = blockId 1 2 3
  /\ (1 = 1 /\ 2 = 2 /\ 3 = 3).
Proof.
  assert (H0 : 0 <= 1) by lia. assert (H2 : 0 <= 2) by lia.
  assert (He : blockId 1 2 3 = blockId 1 2 3) by reflexivity.
  exact (conj H0 (conj H0 (conj H2 (conj H2 (conj He
           (proj2 blockId_identifies_cell 1 2 3 1 2 3 H0 H0 H2 H2 He)))))).
Defined.

(** ** Geometry *)

Lemma DELTA_TO_DIR_lookup dr dc dir :
  DELTA_TO_DIR !! deltaKey dr dc = Some dir <-> DIR_VECTORS dir = (dr, dc).
Proof.
  split.
  - intros H. apply mapOfEntries_lookup_Some in H.
    apply list_elem_of_fmap in H as (dir' & Heq & _).
    destruct (DIR_VECTORS dir') as [dr' dc'] eqn:Hv. injection Heq as Hk ->.
    apply deltaKey_inj in Hk as [-> ->]. done.
  - intros H. destruct dir; injection H as <- <-; vm_compute; reflexivity.
Qed.

Lemma around_step from to :
  around (pt_row from) (pt_col from) (pt_row to) (pt_col to)
  <-> exists dir, stepTo from dir to.
Proof.
  unfold around, stepTo. split.
  - intros (Hr & Hc & Hne).
    assert (Hcases : (pt_row to - pt_row from = -1 \/ pt_row to - pt_row from = 0
                      \/ pt_row to - pt_row from = 1)
                     /\ (pt_col to - pt_col from = -1 \/ pt_col to - pt_col from = 0
                         \/ pt_col to - pt_col from = 1)) by lia.
    destruct Hcases as [[Hr1|[Hr1|Hr1]] [Hc1|[Hc1|Hc1]]].
    + exists NW. simpl. lia.
    + exists N. simpl. lia.
    + exists NE. simpl. lia.
    + exists W. simpl. lia.
    + exfalso. apply Hne. f_equal; lia.
    + exists E. simpl. lia.
    + exists SW. simpl. lia.
    + exists S. simpl. lia.
    + exists SE. simpl. lia.
  - intros [dir [Hr Hc]]. destruct dir; simpl in *;
      (split; [lia|split; [lia|intros [= H1 H2]; lia]]).
Qed.

(** X3: [directionBetween] inverts the direction table: the direction from
    a point to the point one step along [dir] is [dir], and whenever it
    answers a direction, the target is exactly one step along it; in
    particular it is null from a point to itself. *)
Theorem directionBetween_round_trip :
  (forall from to dir,
      directionBetween from to = Some dir <-> stepTo from dir to)
  /\ (forall from dir,
        directionBetween from
          (mkPoint (pt_row from + (DIR_VECTORS dir).1) (pt_col from + (DIR_VECTORS dir).2))
        = Some dir)
  /\ (forall p, directionBetween p p = None)
  /\ (forall from to,
        directionBetween from to = None <->
        ~ around (pt_row from) (pt_col from) (pt_row to) (pt_col to)).
Proof.
  assert (Hiff : forall from to dir,
             directionBetween from to = Some dir <-> stepTo from dir to).
  { intros from to dir. unfold directionBetween, stepTo.
    rewrite DELTA_TO_DIR_lookup. destruct (DIR_VECTORS dir) as [dr dc]. simpl.
    split; [intros [= -> ->]; lia|intros [-> ->]; f_equal; lia]. }
  split; [exact Hiff|]. split; [|split].
  - intros from dir. apply Hiff. by split.
  - intros p. destruct (directionBetween p p) as [dir|] eqn:H; [|done].
    apply Hiff in H as [Hr Hc]. destruct dir; simpl in *; lia.
  - intros from to. rewrite around_step. split.
    + intros Hnone [dir Hstep]. apply Hiff in Hstep. congruence.
    + intros Hno. destruct (directionBetween from to) as [dir|] eqn:H; [|done].
      exfalso. apply Hno. exists dir. by apply Hiff.
Qed.

Lemma getNeighborEntries_elem row col rows cols entry :
  entry ∈ getNeighborEntries row col rows cols <->
  inBounds (n_row entry) (n_col entry) rows cols = true
  /\ n_row entry = row + (DIR_VECTORS (n_dir entry)).1
  /\ n_col entry = col + (DIR_VECTORS (n_dir entry)).2
  /\ n_key entry = coordKey (n_row entry) (n_col entry).
Proof.
  unfold getNeighborEntries. rewrite list_elem_of_filter, list_elem_of_fmap. split.
  - intros (Hin & dir & -> & _). destruct (DIR_VECTORS dir) eqn:Hd. simpl in *.
    rewrite Hd. done.
  - intros (Hin & Hr & Hc & Hk). split; [done|]. exists (n_dir entry). split.
    + destruct entry as [dir r c k]. simpl in *. subst.
      by destruct (DIR_VECTORS dir).
    + unfold ALL_DIRECTIONS. destruct (n_dir entry); rewrite !elem_of_cons; tauto.
Qed.

Lemma NoDup_filter_map_dir {A} (f : ArrowDir -> A) (P : A -> Prop)
    `{forall x, Decision (P x)} (g : A -> ArrowDir) :
  (forall dir, g (f dir) = dir) ->
  NoDup (map g (filter P (map f ALL_DIRECTIONS))).
Proof.
  intros Hg. apply (NoDup_fmap_2_strong g).
  - intros x y Hx Hy Hxy. apply list_elem_of_filter in Hx as [_ Hx].
    apply list_elem_of_filter in Hy as [_ Hy].
    apply list_elem_of_fmap in Hx as (dx & -> & _).
    apply list_elem_of_fmap in Hy as (dy & -> & _).
    rewrite !Hg in Hxy. by subst.
  - apply NoDup_filter. apply (NoDup_fmap_2_strong f).
    + intros x y _ _ Hxy. apply (f_equal g) in Hxy. by rewrite !Hg in Hxy.
    + unfold ALL_DIRECTIONS. apply (bool_decide_unpack _). vm_compute. exact I.
Qed.

(** X4: [getNeighborEntries] lists exactly the cells of the 8-neighbourhood
    of [(row, col)] that lie inside the grid, each once, each with its own
    coordinate key and with the direction that leads to it; the cell itself
    is never listed, and there are at most 8 entries. *)
Theorem getNeighborEntries_neighbourhood row col rows cols :
  (forall row' col',
      (exists entry, entry ∈ getNeighborEntries row col rows cols
                     /\ n_row entry = row' /\ n_col entry = col')
      <-> around row col row' col' /\ inBounds row' col' rows cols = true)
  /\ (forall entry, entry ∈ getNeighborEntries row col rows cols ->
        n_key entry = coordKey (n_row entry) (n_col entry)
        /\ stepTo (mkPoint row col) (n_dir entry) (mkPoint (n_row entry) (n_col entry)))
  /\ NoDup (map n_dir (getNeighborEntries row col rows cols))
  /\ NoDup (map (fun entry => (n_row entry, n_col entry))
                (getNeighborEntries row col rows cols))
  /\ (length (getNeighborEntries row col rows cols) <= 8)%nat.
Proof.
  split; [|split; [|split; [|split]]].
  - intros row' col'. split.
    + intros (entry & Hin & <- & <-). apply getNeighborEntries_elem in Hin as (Hb & Hr & Hc & _).
      split; [|done]. unfold around. rewrite Hr, Hc.
      destruct (n_dir entry); simpl; (split; [lia|split; [lia|intros [= H1 H2]; lia]]).
    + intros [Har Hb].
      destruct (proj1 (around_step (mkPoint row col) (mkPoint row' col')) Har)
        as [dir [Hr Hc]]. simpl in Hr, Hc.
      exists (mkEntry dir row' col' (coordKey row' col')). split; [|done].
      apply getNeighborEntries_elem. simpl. done.
  - intros entry Hin. apply getNeighborEntries_elem in Hin as (_ & Hr & Hc & Hk).
    split; [done|]. by split.
  - unfold getNeighborEntries. apply NoDup_filter_map_dir.
    intros dir. by destruct (DIR_VECTORS dir).
  - unfold getNeighborEntries.
    apply (NoDup_fmap_2_strong (fun entry => (n_row entry, n_col entry))).
    + intros x y Hx Hy Hxy. injection Hxy as Hr Hc.
      apply getNeighborEntries_elem in Hx as (_ & Hxr & Hxc & Hxk).
      apply getNeighborEntries_elem in Hy as (_ & Hyr & Hyc & Hyk).
      destruct x as [dx rx cx kx], y as [dy ry cy ky]. simpl in *. subst.
      assert (dx = dy) as ->; [|done].
      destruct dx, dy; simpl in *; try done; lia.
    + apply NoDup_filter. apply (NoDup_fmap_2_strong _).
      * intros x y _ _ Hxy. destruct (DIR_VECTORS x) eqn:Hx, (DIR_VECTORS y) eqn:Hy.
        by injection Hxy as ->.
      * unfold ALL_DIRECTIONS. apply (bool_decide_unpack _). vm_compute. exact I.
  - unfold getNeighborEntries. etrans; [apply length_filter|].
    by rewrite length_map.
Qed.

Lemma bind_length_uniform {A B} (f : A -> list B) (l : list A) (n : nat) :
  (forall x, x ∈ l -> length (f x) = n) -> length (l ≫= f) = (length l * n)%nat.
Proof.
  induction l as [|x l IH]; intros Hf; [done|].
  rewrite bind_cons, length_app, IH, (Hf x); [simpl; lia|left|].
  intros y Hy. apply Hf. by right.
Qed.

Lemma bind_lookup_uniform {A B} (f : A -> list B) (l : list A) (n i j : nat) (x : A) :
  (forall y, y ∈ l -> length (f y) = n) ->
  l !! i = Some x -> (j < n)%nat ->
  (l ≫= f) !! (i * n + j)%nat = f x !! j.
Proof.
  revert i. induction l as [|y l IH]; intros i Hlen Hi Hj; [done|].
  rewrite bind_cons.
  assert (Hy : length (f y) = n) by (apply Hlen; left).
  destruct i as [|i]; simpl in Hi.
  - injection Hi as ->. simpl. apply lookup_app_l. lia.
  - rewrite lookup_app_r by (rewrite Hy; simpl; lia).
    replace (Datatypes.S i * n + j - length (f y))%nat with (i * n + j)%nat
      by (rewrite Hy; simpl; lia).
    apply IH; [|done..]. intros z Hz. apply Hlen. by right.
Qed.

(** X5: [buildAllPoints] enumerates the grid in row-major order: the cell
    [(r, c)] is the point at index [r * cols + c]; so its points are exactly
    the cells inside the bounds, each once, [rows * cols] of them; a grid with
    no row or no column has no point. *)
Theorem buildAllPoints_enumerates_grid rows cols :
  (forall r c,
      0 <= r < rows -> 0 <= c < cols ->
      buildAllPoints rows cols !! Z.to_nat (r * cols + c) = Some (mkPoint r c))
  /\ (forall point,
        point ∈ buildAllPoints rows cols
        <-> inBounds (pt_row point) (pt_col point) rows cols = true)
  /\ NoDup (buildAllPoints rows cols)
  /\ length (buildAllPoints rows cols) = (Z.to_nat rows * Z.to_nat cols)%nat
  /\ (rows <= 0 \/ cols <= 0 -> buildAllPoints rows cols = []).
Proof.
  assert (Hlen : length (buildAllPoints rows cols) = (Z.to_nat rows * Z.to_nat cols)%nat).
  { unfold buildAllPoints.
    rewrite (bind_length_uniform _ _ (Z.to_nat cols)), length_seqZ; [done|].
    intros r _. rewrite (bind_length_uniform _ _ 1%nat), length_seqZ; [lia|done]. }
  split; [|split; [|split; [|split; [done|]]]].
  - intros r c Hr Hc. unfold buildAllPoints.
    replace (Z.to_nat (r * cols + c))
      with (Z.to_nat r * Z.to_nat cols + Z.to_nat c)%nat by nia.
    rewrite (bind_lookup_uniform _ _ (Z.to_nat cols) _ _ r).
    + replace (Z.to_nat c) with (Z.to_nat c * 1 + 0)%nat by lia.
      rewrite (bind_lookup_uniform _ _ 1%nat _ _ c); [done|done| |lia].
      replace c with (0 + Z.of_nat (Z.to_nat c)) at 2 by lia.
      apply lookup_seqZ. split; [done|lia].
    + intros y _. rewrite (bind_length_uniform _ _ 1%nat), length_seqZ; [lia|done].
    + replace r with (0 + Z.of_nat (Z.to_nat r)) at 2 by lia.
      apply lookup_seqZ. split; [done|lia].
    + lia.
  - intros point. split; [apply buildAllPoints_inBounds|].
    intros Hin. apply inBounds_true in Hin. unfold buildAllPoints.
    apply list_elem_of_bind. exists (pt_row point). split; [|apply elem_of_seqZ; lia].
    apply list_elem_of_bind. exists (pt_col point). split; [|apply elem_of_seqZ; lia].
    destruct point. left.
  - unfold buildAllPoints. apply NoDup_bind; [| |apply NoDup_seqZ].
    + intros r1 r2 p _ _ H1 H2.
      apply list_elem_of_bind in H1 as (c1 & H1 & _).
      apply list_elem_of_bind in H2 as (c2 & H2 & _).
      apply list_elem_of_singleton in H1. apply list_elem_of_singleton in H2. congruence.
    + intros r _. apply NoDup_bind; [| |apply NoDup_seqZ].
      * intros c1 c2 p _ _ H1 H2.
        apply list_elem_of_singleton in H1. apply list_elem_of_singleton in H2. congruence.
      * intros c _. apply NoDup_singleton.
  - intros Hempty. apply length_zero_iff_nil. rewrite Hlen. lia.
Qed.

Lemma buildAllPoints_enumerates_grid_witness :
  (0 <= 1 < 2 /\ 0 <= 2 < 3)
  /\ buildAllPoints 2 3 !! Z.to_nat (1 * 3 + 2) = Some (mkPoint 1 2).
Proof.
  assert (Hr : 0 <= 1 < 2) by lia.
  assert (Hc : 0 <= 2 < 3) by lia.
  exact (conj (conj Hr Hc) (proj1 (buildAllPoints_enumerates_grid 2 3) 1 2 Hr Hc)).
Defined.

(** ** Random choices *)

Arguments Qfloor : simpl never.

Lemma Post_shuffleFrom_perm {St} (next : St -> Q * St) {T} (index : nat) :
  forall values : list T,
    Post (shuffleFrom next index values) (fun l => l ≡ₚ values).
Proof.
  induction index as [|index IH]; intros values s l s' H; simpl in H.
  - by injection H as <- <-.
  - apply gen_bind_Ok in H as (j & s1 & _ & H).
    destruct (values !! Datatypes.S index) as [temp|] eqn:Htemp; [|discriminate].
    unfold nth_Z in H. destruct (j <? 0); [discriminate|].
    destruct (values !! Z.to_nat j) as [other|] eqn:Hother; [|discriminate].
    apply IH in H. etrans; [exact H|]. by apply Permutation_insert_swap.
Qed.

(** X6: with rng in [[0,1)], [chooseRandom] on a non-empty array draws
    once and returns the element at the index [floor(r * length)], where the
    product is the product of doubles, rounded to the nearest double; the
    index is inside the array.  On an empty array the read is out of bounds
    and the result is undefined. *)
Theorem chooseRandom_picks_element {St} (next : St -> Q * St) {T} (values : list T) s :
  InRange next ->
  (values <> [] ->
   exists v,
     chooseRandom next values s = Ok (v, (next s).2)
     /\ v ∈ values
     /\ values !! Z.to_nat (Qfloor (toDouble
                              ((next s).1 * inject_Z (Z.of_nat (length values)))))
        = Some v)
  /\ (values = [] -> chooseRandom next values s = Err Undefined).
Proof.
  intros Hrange. destruct (Hrange s) as (Hd & H0 & H1).
  unfold chooseRandom, randomInt, draw, mbind, Gen_bind, mret, Gen_ret. simpl.
  replace (Z.of_nat (length values) - 1 - 0 + 1) with (Z.of_nat (length values)) by lia.
  rewrite Z.add_0_l. split.
  - intros Hne.
    pose proof (floor_rounded (next s).1 (Z.of_nat (length values)) Hd H0 H1
                  ltac:(destruct values; [done|simpl; lia])) as Hi.
    unfold nth_Z. destruct (_ <? 0) eqn:Hneg; [lia|].
    destruct (lookup_lt_is_Some_2 values
                (Z.to_nat (Qfloor (toDouble
                             ((next s).1 * inject_Z (Z.of_nat (length values)))))))
      as [v Hv]; [lia|].
    rewrite Hv. exists v. split; [done|]. split; [|done].
    by eapply list_elem_of_lookup_2.
  - intros ->. unfold nth_Z. by destruct (_ <? 0).
Qed.

(** At the double nearest to one third and three values, the product
    rounds to one: the element read is the second one. *)
Lemma chooseRandom_picks_element_witness :
  let third := (6004799503160661 # 18014398509481984)%Q in
  InRange (constNext third)
  /\ [N; E; S] <> []
  /\ exists v,
       chooseRandom (constNext third) [N; E; S] tt = Ok (v, tt)
       /\ v ∈ [N; E; S]
       /\ [N; E; S] !! Z.to_nat (Qfloor (toDouble (third * inject_Z (Z.of_nat 3)))) = Some v
       /\ v = E.
Proof.
  intros third.
  assert (Hrange : InRange (constNext third)).
  { apply constNext_in_range; [|done|done].
    by apply (dyadic_IsDouble 6004799503160661 (-54)). }
  assert (Hne : [N; E; S] <> []) by discriminate.
  split; [exact Hrange|]. split; [exact Hne|].
  destruct (proj1 (chooseRandom_picks_element (constNext third) [N; E; S] tt Hrange) Hne)
    as (v & Hv & Hin & Hlookup).
  exists v. split; [exact Hv|]. split; [exact Hin|]. split; [exact Hlookup|].
  vm_compute in Hlookup. congruence.
Defined.

(** X7: whatever [shuffle] returns is a permutation of its argument, and
    with rng in [[0,1)] it always returns; arrays of length 0 or 1 come back
    unchanged without a draw. *)
Theorem shuffle_permutes {St} (next : St -> Q * St) {T} (items : list T) s :
  (forall l s', shuffle next items s = Ok (l, s') -> l ≡ₚ items)
  /\ (InRange next -> exists l s', shuffle next items s = Ok (l, s') /\ l ≡ₚ items)
  /\ ((length items <= 1)%nat -> shuffle next items s = Ok (items, s)).
Proof.
  split; [|split].
  - intros l s' H. by apply (Post_shuffleFrom_perm next _ _ _ _ _ H).
  - intros Hrange. destruct (Total_shuffle next Hrange items s) as (l & s' & H).
    exists l, s'. split; [done|]. by apply (Post_shuffleFrom_perm next _ _ _ _ _ H).
  - intros Hlen. unfold shuffle.
    replace (length items - 1)%nat with 0%nat by lia. done.
Qed.

Lemma shuffle_permutes_witness :
  InRange (constNext (1 # 2))
  /\ exists l s', shuffle (constNext (1 # 2)) [N; E; S; W] tt = Ok (l, s')
                  /\ l ≡ₚ [N; E; S; W].
Proof.
  assert (Hrange : InRange (constNext (1 # 2))).
  { by apply constNext_in_range; [apply IsDouble_half|..]. }
  exact (conj Hrange
           (proj1 (proj2 (shuffle_permutes (constNext (1 # 2)) [N; E; S; W] tt)) Hrange)).
Defined.

(** X8: the seeded generator [createSeededRandom] keeps the seed modulo
    2^32; every value it returns is a multiple of 2^-32 in [[0,1)]; and the
    seed 0 (any multiple of 2^32) is a fixed point: every draw is 0. *)
Theorem seeded_generator_values :
  (forall seed, 0 <= createSeededRandom seed < 2 ^ 32)
  /\ (forall current,
        exists k, 0 <= k < 2 ^ 32
                  /\ (seededNext current).1 = Qmake k 4294967296
                  /\ (0 <= (seededNext current).1)%Q
                  /\ ((seededNext current).1 < 1)%Q)
  /\ (forall seed n,
        seed mod 2 ^ 32 = 0 ->
        drawsFrom seededNext n (createSeededRandom seed) = repeat (Qmake 0 4294967296) n).
Proof.
  split; [|split].
  - intros seed. unfold createSeededRandom, toUint32. apply Z.mod_pos_bound. lia.
  - intros current. unfold seededNext. cbv zeta. cbn [fst].
    set (c := Z.lxor _ _). unfold toUint32.
    pose proof (Z.mod_pos_bound c (2 ^ 32) ltac:(lia)) as Hb.
    exists (c mod 2 ^ 32). split; [done|]. split; [done|].
    unfold Qle, Qlt. cbn [Qnum Qden]. lia.
  - intros seed n Hseed. unfold createSeededRandom, toUint32. rewrite Hseed.
    assert (Hstep : seededNext 0 = (Qmake 0 4294967296, 0)) by (vm_compute; reflexivity).
    induction n as [|n IH]; [done|].
    change (drawsFrom seededNext (Datatypes.S n) 0)
      with ((seededNext 0).1 :: drawsFrom seededNext n (seededNext 0).2).
    rewrite Hstep. cbn [fst snd repeat]. by rewrite IH.
Qed.

Lemma seeded_generator_values_witness :
  4294967296 mod 2 ^ 32 = 0
  /\ drawsFrom seededNext 3 (createSeededRandom 4294967296)
     = repeat (Qmake 0 4294967296) 3.
Proof.
  assert (H : 4294967296 mod 2 ^ 32 = 0) by reflexivity.
  exact (conj H (proj2 (proj2 seeded_generator_values) 4294967296 3%nat H)).
Defined.

(** ** The run of the simulator *)

(** A property that every wave preserves holds when the loop returns, and
    then no id of the frontier is alive. *)
Lemma waveLoop_invariant (P : SimState -> Prop) rows cols :
  (forall st id cur alive index srcs,
      P st ->
      filter (fun id => has (aliveById st) id = true) (frontier st) = id :: cur ->
      vanishWave (id :: cur) (aliveById st) (byCoord st) = (alive, index) ->
      castWave (layoutById st) (id :: cur) index rows cols = Ok srcs ->
      P (mkSim (sim_blocks st) (layoutById st) alive index
               (sim_waves st ++ [mkWave srcs]) (collectHits alive srcs))) ->
  forall fuel st st',
    P st -> waveLoop fuel rows cols st = Ok st' ->
    P st' /\ filter (fun id => has (aliveById st') id = true) (frontier st') = [].
Proof.
  intros Hstep. induction fuel as [|fuel IH]; intros st st' HP; simpl.
  - destruct (frontier st) as [|f fs] eqn:Hf.
    { intros [= <-]. by rewrite Hf. }
    destruct (filter _ (f :: fs)) eqn:Hcur; [|discriminate].
    intros [= <-]. by rewrite Hf.
  - destruct (frontier st) as [|f fs] eqn:Hf.
    { intros [= <-]. by rewrite Hf. }
    destruct (filter _ (f :: fs)) as [|id cur] eqn:Hcur.
    { intros [= <-]. by rewrite Hf. }
    destruct (vanishWave (id :: cur) (aliveById st) (byCoord st)) as [alive index] eqn:Hv.
    intros H. apply res_bind_Ok in H as (srcs & Hsrcs & H).
    apply IH in H; [done|]. eapply Hstep; eauto. by rewrite Hf.
Qed.

Lemma traverse_Forall2 {A B} (f : A -> Res B) l ys :
  traverse f l = Ok ys -> Forall2 (fun x y => f x = Ok y) l ys.
Proof.
  revert ys. induction l as [|x l IH]; intros ys H.
  - injection H as <-. constructor.
  - apply traverse_cons_Ok in H as (y & ys' & Hx & Hl & ->). constructor; auto.
Qed.

Lemma castWave_structure layout ids index rows cols srcs :
  castWave layout ids index rows cols = Ok srcs ->
  (forall id, id ∈ ids -> is_Some (layout !! id)) ->
  Forall2 (fun id src =>
             fromId src = id
             /\ exists b, layout !! id = Some b
                  /\ Forall2 (fun dir cast => castNearest b dir index rows cols = Ok cast)
                             (b_dirs b) (casts src))
          ids srcs.
Proof.
  unfold castWave, fmap, Res_fmap. intros H. apply res_bind_Ok in H as (ys & Hys & [= <-]).
  revert ys Hys. induction ids as [|id ids IH]; intros ys Hys Hall.
  - injection Hys as <-. constructor.
  - apply traverse_cons_Ok in Hys as (y & ys' & Hy & Hys' & ->).
    destruct (Hall id) as [block Hblock]; [left|]. rewrite Hblock in Hy.
    apply res_bind_Ok in Hy as (cs & Hcs & [= <-]). simpl. constructor.
    + split; [done|]. exists block. split; [done|]. by apply traverse_Forall2.
    + apply IH; [done|]. intros id' Hin. apply Hall. by right.
Qed.

Lemma collectHits_flat alive srcs :
  collectHits alive srcs = foldl (hitStep alive) [] (List.concat (map casts srcs)).
Proof.
  unfold collectHits. generalize (@nil string).
  induction srcs as [|src srcs IH]; intros acc; simpl; [done|].
  rewrite foldl_app. apply IH.
Qed.

Lemma setAdd_elem {A} `{EqDecision A} (s : list A) (x y : A) :
  y ∈ setAdd s x <-> y ∈ s \/ y = x.
Proof.
  unfold setAdd. destruct (decide (x ∈ s)) as [Hin|Hn].
  - split; [by left|]. intros [Hy | ->]; done.
  - rewrite elem_of_app, list_elem_of_singleton. done.
Qed.

Lemma setAdd_NoDup {A} `{EqDecision A} (s : list A) (x : A) :
  NoDup s -> NoDup (setAdd s x).
Proof.
  intros Hnd. unfold setAdd. destruct (decide (x ∈ s)) as [Hin|Hn]; [done|].
  apply NoDup_app. split; [done|]. split; [|apply NoDup_singleton].
  intros y Hy Hy'. apply list_elem_of_singleton in Hy'. by subst.
Qed.

Lemma foldl_hitStep_elem alive casts0 t :
  forall acc,
    t ∈ foldl (hitStep alive) acc casts0
    <-> t ∈ acc
        \/ exists cast, cast ∈ casts0 /\ truthy (c_toId cast) = Some t /\ has alive t = true.
Proof.
  induction casts0 as [|cast cs IH]; intros acc; simpl.
  - split; [by left|]. intros [Hacc | (c & Hc & _)]; [done|inversion Hc].
  - rewrite IH. unfold hitStep.
    destruct (truthy (c_toId cast)) as [toId|] eqn:Ht.
    + destruct (has alive toId) eqn:Ha.
      * rewrite setAdd_elem. split.
        -- intros [[Hacc | ->] | (c & Hc & Hc')]; [by left|right|right].
           ++ exists cast. split; [left|done].
           ++ exists c. split; [by right|done].
        -- intros [Hacc | (c & Hc & Htc & Hac)]; [by left; left|].
           apply elem_of_cons in Hc as [->|Hc].
           ++ left. right. congruence.
           ++ right. eauto.
      * split.
        -- intros [Hacc | (c & Hc & Hc')]; [by left|right]. exists c. split; [by right|done].
        -- intros [Hacc | (c & Hc & Htc & Hac)]; [by left|].
           apply elem_of_cons in Hc as [->|Hc]; [congruence|]. right. eauto.
    + split.
      * intros [Hacc | (c & Hc & Hc')]; [by left|right]. exists c. split; [by right|done].
      * intros [Hacc | (c & Hc & Htc & Hac)]; [by left|].
        apply elem_of_cons in Hc as [->|Hc]; [congruence|]. right. eauto.
Qed.

Lemma collectHits_elem alive srcs t :
  t ∈ collectHits alive srcs
  <-> exists src cast, src ∈ srcs /\ cast ∈ casts src
                       /\ truthy (c_toId cast) = Some t /\ has alive t = true.
Proof.
  rewrite collectHits_flat, foldl_hitStep_elem. split.
  - intros [H | (cast & Hc & Ht)]; [inversion H|].
    apply list_elem_of_In, in_concat in Hc as (cs & Hcs & Hc).
    apply list_elem_of_In, list_elem_of_fmap in Hcs as (src & -> & Hsrc).
    apply list_elem_of_In in Hc. eauto 10.
  - intros (src & cast & Hsrc & Hc & Ht). right. exists cast. split; [|done].
    apply list_elem_of_In, in_concat. exists (casts src). split.
    + apply list_elem_of_In, list_elem_of_fmap. eauto.
    + by apply list_elem_of_In.
Qed.

Lemma collectHits_NoDup alive srcs : NoDup (collectHits alive srcs).
Proof.
  rewrite collectHits_flat.
  assert (H : forall cs acc, NoDup acc -> NoDup (foldl (hitStep alive) acc cs)).
  { induction cs as [|c cs IH]; intros acc Hacc; simpl; [done|]. apply IH.
    unfold hitStep. destruct (truthy (c_toId c)); [|done].
    destruct (has alive s); [by apply setAdd_NoDup|done]. }
  apply H. constructor.
Qed.

Lemma collectHits_alive alive srcs t :
  t ∈ collectHits alive srcs -> is_Some (alive !! t).
Proof.
  intros H. apply collectHits_elem in H as (_ & _ & _ & _ & _ & Ha). by apply has_true.
Qed.

Lemma vanished_app ws ws' : vanished (ws ++ ws') = vanished ws ++ vanished ws'.
Proof. unfold vanished. by rewrite map_app, concat_app. Qed.

Lemma filter_alive_NoDup_fresh (alive : gmap string ArrowBlock) blocks ws frontier0 :
  alive = (mapsAfter blocks ws).1 ->
  NoDup frontier0 -> NoDup (vanished ws) ->
  NoDup (vanished ws ++ filter (fun id => has alive id = true) frontier0).
Proof.
  intros -> Hf Hv. apply NoDup_app. split; [done|]. split; [|by apply NoDup_filter].
  intros id Hid Hid'. apply list_elem_of_filter in Hid' as [Ha _].
  apply has_true in Ha. rewrite mapsAfter_alive_lookup in Ha.
  destruct (decide (id ∈ vanished ws)); [by destruct Ha|done].
Qed.

Lemma SimInv_step blocks startId rows cols st id cur alive index srcs :
  SimInv blocks startId rows cols st ->
  filter (fun id => has (aliveById st) id = true) (frontier st) = id :: cur ->
  vanishWave (id :: cur) (aliveById st) (byCoord st) = (alive, index) ->
  castWave (layoutById st) (id :: cur) index rows cols = Ok srcs ->
  SimInv blocks startId rows cols
    (mkSim (sim_blocks st) (layoutById st) alive index
           (sim_waves st ++ [mkWave srcs]) (collectHits alive srcs)).
Proof.
  intros Hinv Hcur Hv Hsrcs.
  destruct Hinv as (Hrun & Hfr & Hnd & Hne & Hlink & Hfirst & Hchain).
  pose proof Hrun as (Hlay & Hmaps & Hwaves).
  assert (Halive : forall id', id' ∈ id :: cur -> is_Some (aliveById st !! id')).
  { intros id' Hin. rewrite <- Hcur in Hin.
    apply list_elem_of_filter in Hin as [Hin _]. by apply has_true. }
  assert (Ha : aliveById st = (mapsAfter blocks (sim_waves st)).1) by (by rewrite <- Hmaps).
  assert (Hids : waveIds (mkWave srcs) = id :: cur).
  { unfold waveIds. simpl. eapply castWave_ids; [exact Hsrcs|].
    intros id' Hin. apply Halive in Hin as [b Hb]. exists b.
    rewrite Ha, mapsAfter_alive_lookup in Hb.
    rewrite Hlay. by destruct (decide (id' ∈ vanished (sim_waves st))). }
  assert (Hnext : mapsAfter blocks (sim_waves st ++ [mkWave srcs]) = (alive, index)).
  { by rewrite mapsAfter_snoc, Hids, <- Hmaps. }
  assert (Hrun' : RunInv blocks rows cols
                    (mkSim (sim_blocks st) (layoutById st) alive index
                       (sim_waves st ++ [mkWave srcs]) (collectHits alive srcs))).
  { split; [done|]. split; [done|]. simpl.
    intros pre w post Hsplit.
    apply snoc_split in Hsplit as [(-> & -> & ->)|(post' & -> & Hws)].
    - split.
      + intros id' Hin. rewrite Hids in Hin. rewrite <- Hmaps. simpl. by apply Halive.
      + rewrite Hnext, Hids. simpl. by rewrite <- Hlay.
    - by eapply Hwaves. }
  split; [done|]. simpl. split; [apply collectHits_NoDup|]. split; [|split; [|split; [|split]]].
  - rewrite vanished_snoc, Hids, <- Hcur. by eapply filter_alive_NoDup_fresh.
  - intros w Hw. apply elem_of_app in Hw as [Hw|Hw]; [by apply Hne|].
    apply list_elem_of_singleton in Hw as ->. by rewrite Hids.
  - right. exists (sim_waves st), (mkWave srcs). done.
  - intros w post Hsplit. destruct (sim_waves st) as [|w0 ws] eqn:Hws.
    + simpl in Hsplit. injection Hsplit as <- <-. rewrite Hids, <- Hcur.
      destruct Hlink as [[_ Hf]|(ws' & w' & Hws' & _)]; [|by destruct ws'].
      rewrite Hf in Hcur |- *. rewrite filter_cons in Hcur |- *.
      destruct (decide (has (aliveById st) startId = true)); [done|discriminate].
    + simpl in Hsplit. injection Hsplit as <- <-. by eapply Hfirst.
  - intros pre w1 w2 post Hsplit.
    replace (pre ++ w1 :: w2 :: post) with ((pre ++ [w1]) ++ w2 :: post) in Hsplit
      by (by rewrite <- app_assoc).
    apply snoc_split in Hsplit as [(Hpre & -> & ->)|(post' & -> & Hws)].
    + simpl. rewrite Hids, <- Hcur, Hpre.
      destruct Hlink as [[Hw _]|(ws' & w' & Hws' & Hf)].
      { rewrite Hw in Hpre. by destruct pre. }
      rewrite Hws' in Hpre. apply app_inj_tail in Hpre as [-> ->].
      rewrite Hf, Ha, Hws'. done.
    + eapply Hchain. rewrite Hws. by rewrite <- app_assoc.
Qed.

Lemma waveLoop_SimInv blocks startId rows cols fuel st st' :
  SimInv blocks startId rows cols st ->
  waveLoop fuel rows cols st = Ok st' ->
  SimInv blocks startId rows cols st'
  /\ filter (fun id => has (aliveById st') id = true) (frontier st') = [].
Proof.
  apply waveLoop_invariant. clear st st' fuel.
  intros st id cur alive index srcs. apply SimInv_step.
Qed.

Lemma simulateAttempt_SimInv blocks startId rows cols r :
  simulateAttempt blocks startId rows cols = Ok r ->
  exists st,
    r = resultOf st
    /\ SimInv blocks startId rows cols st
    /\ filter (fun id => has (aliveById st) id = true) (frontier st) = [].
Proof.
  unfold simulateAttempt, simulateAttemptWith, fmap, Res_fmap. intros H.
  apply res_bind_Ok in H as (st & Hst & [= <-]). exists st. split; [done|].
  eapply waveLoop_SimInv; [|exact Hst].
  split.
  { split; [done|]. split; [done|]. intros pre w post H. simpl in H. by destruct pre. }
  simpl. split; [apply NoDup_singleton|]. split; [constructor|].
  split; [intros w Hw; inversion Hw|]. split; [by left|].
  split; [intros w post H; discriminate|].
  intros pre w1 w2 post H. by destruct pre.
Qed.

Lemma wave_step_facts blocks rows cols st id cur alive index srcs :
  RunInv blocks rows cols st ->
  filter (fun id => has (aliveById st) id = true) (frontier st) = id :: cur ->
  vanishWave (id :: cur) (aliveById st) (byCoord st) = (alive, index) ->
  castWave (layoutById st) (id :: cur) index rows cols = Ok srcs ->
  waveIds (mkWave srcs) = id :: cur
  /\ mapsAfter blocks (sim_waves st ++ [mkWave srcs]) = (alive, index)
  /\ Forall2 (fun id src =>
                fromId src = id
                /\ exists b, layoutOf blocks !! id = Some b
                     /\ Forall2 (fun dir cast => castNearest b dir index rows cols = Ok cast)
                                (b_dirs b) (casts src))
             (id :: cur) srcs.
Proof.
  intros (Hlay & Hmaps & Hwaves) Hcur Hv Hsrcs.
  assert (Ha : aliveById st = (mapsAfter blocks (sim_waves st)).1) by (by rewrite <- Hmaps).
  assert (Hsome : forall id', id' ∈ id :: cur -> is_Some (layoutById st !! id')).
  { intros id' Hin. rewrite <- Hcur in Hin.
    apply list_elem_of_filter in Hin as [Hin _]. apply has_true in Hin as [b Hb].
    exists b. rewrite Ha, mapsAfter_alive_lookup in Hb.
    rewrite Hlay. by destruct (decide (id' ∈ vanished (sim_waves st))). }
  assert (Hids : waveIds (mkWave srcs) = id :: cur).
  { unfold waveIds. simpl. by eapply castWave_ids. }
  split; [done|]. split.
  - by rewrite mapsAfter_snoc, Hids, <- Hmaps.
  - rewrite <- Hlay. by apply castWave_structure.
Qed.

Lemma elem_of_vanished ws id :
  id ∈ vanished ws <-> exists pre w post, ws = pre ++ w :: post /\ id ∈ waveIds w.
Proof.
  unfold vanished. split.
  - intros H. apply list_elem_of_In, in_concat in H as (ids & Hids & Hid).
    apply list_elem_of_In, list_elem_of_fmap in Hids as (w & -> & Hw).
    apply list_elem_of_split in Hw as (pre & post & ->).
    exists pre, w, post. split; [done|]. by apply list_elem_of_In.
  - intros (pre & w & post & -> & Hid).
    apply list_elem_of_In, in_concat. exists (waveIds w). split.
    + apply list_elem_of_In, list_elem_of_fmap. exists w. split; [done|].
      apply elem_of_app. right. left.
    + by apply list_elem_of_In.
Qed.

Lemma vanished_are_blocks blocks rows cols st id :
  RunInv blocks rows cols st -> id ∈ vanished (sim_waves st) -> id ∈ map b_id blocks.
Proof.
  intros (_ & _ & Hwaves) Hid. apply elem_of_vanished in Hid as (pre & w & post & Hsplit & Hid).
  destruct (Hwaves _ _ _ Hsplit) as [Halive _]. destruct (Halive id Hid) as [b Hb].
  rewrite mapsAfter_alive_lookup in Hb. destruct (decide (id ∈ vanished pre)); [discriminate|].
  apply layoutOf_lookup_Some in Hb as [Hb <-]. apply list_elem_of_fmap. eauto.
Qed.

Lemma success_iff_all_vanished blocks rows cols st :
  RunInv blocks rows cols st ->
  success (resultOf st) = true
  <-> forall id, id ∈ map b_id blocks -> id ∈ vanished (sim_waves st).
Proof.
  intros (_ & Hmaps & _).
  assert (Ha : aliveById st = (mapsAfter blocks (sim_waves st)).1) by (by rewrite <- Hmaps).
  unfold resultOf. simpl. rewrite bool_decide_eq_true, map_size_empty_iff, Ha. split.
  - intros Hempty id Hid.
    assert (Hl : (mapsAfter blocks (sim_waves st)).1 !! id = None) by (by rewrite Hempty).
    rewrite mapsAfter_alive_lookup in Hl.
    destruct (decide (id ∈ vanished (sim_waves st))); [done|].
    by apply layoutOf_lookup_None in Hl.
  - intros Hall. apply map_eq. intros k. rewrite lookup_empty, mapsAfter_alive_lookup.
    destruct (decide (k ∈ vanished (sim_waves st))); [done|].
    apply layoutOf_lookup_None. intros Hk. by apply Hall in Hk.
Qed.

Lemma waves_le_vanished ws :
  (forall w, w ∈ ws -> waveIds w <> []) -> (length ws <= length (vanished ws))%nat.
Proof.
  induction ws as [|w ws IH]; intros Hne; [done|].
  change (vanished (w :: ws)) with (waveIds w ++ vanished ws).
  rewrite length_app. simpl.
  assert (waveIds w <> []) by (apply Hne; left).
  assert (length ws <= length (vanished ws))%nat by (apply IH; intros; apply Hne; by right).
  destruct (waveIds w); [done|]. simpl. lia.
Qed.

(** X9: the waves of an attempt split the vanished blocks: every source
    is a block of the layout, no block is a source twice, no wave is empty,
    so there are at most as many waves as blocks; and [success] is true
    exactly when every block of the layout is a source of some wave. *)
Theorem attempt_waves_partition blocks startId rows cols :
  exists r,
    simulateAttempt blocks startId rows cols = Ok r
    /\ NoDup (vanished (waves r))
    /\ (forall id, id ∈ vanished (waves r) -> id ∈ map b_id blocks)
    /\ (forall w, w ∈ waves r -> sources w <> [])
    /\ (length (waves r) <= length blocks)%nat
    /\ (success r = true <-> forall id, id ∈ map b_id blocks -> id ∈ vanished (waves r)).
Proof.
  destruct (simulateAttempt_total blocks startId rows cols) as [r Hr]. exists r.
  split; [done|].
  destruct (simulateAttempt_SimInv _ _ _ _ _ Hr) as (st & -> & Hinv & _).
  destruct Hinv as (Hrun & _ & Hnd & Hne & _). simpl.
  assert (Hsub : forall id, id ∈ vanished (sim_waves st) -> id ∈ map b_id blocks).
  { intros id. by apply (vanished_are_blocks blocks rows cols). }
  split; [done|]. split; [done|]. split; [|split].
  - intros w Hw Hnil. apply (Hne w Hw). unfold waveIds. by rewrite Hnil.
  - etrans; [by apply waves_le_vanished|].
    rewrite <- (length_map b_id blocks). apply submseteq_length.
    by apply NoDup_submseteq.
  - by apply (success_iff_all_vanished blocks rows cols).
Qed.

Lemma castNearest_dir block dir index rows cols cast :
  castNearest block dir index rows cols = Ok cast -> c_dir cast = dir.
Proof.
  intros H. pose proof (castNearest_spec block dir index rows cols) as Hs.
  destruct (DIR_VECTORS dir). destruct Hs as (n & toId & Hrun & _).
  rewrite H in Hrun. by injection Hrun as ->.
Qed.

Lemma first_wave_start blocks startId rows cols st :
  SimInv blocks startId rows cols st ->
  filter (fun id => has (aliveById st) id = true) (frontier st) = [] ->
  startId ∈ map b_id blocks ->
  exists w post, sim_waves st = w :: post /\ waveIds w = [startId].
Proof.
  intros (Hrun & _ & _ & _ & Hlink & Hfirst & _) Hexit Hstart.
  destruct (sim_waves st) as [|w post] eqn:Hws.
  - exfalso. destruct Hlink as [[_ Hf]|(ws & w & Hws' & _)]; [|by destruct ws].
    destruct Hrun as (_ & Hmaps & _). rewrite Hws in Hmaps. simpl in Hmaps.
    injection Hmaps as Ha _. rewrite Hf, filter_cons in Hexit.
    destruct (decide (has (aliveById st) startId = true)) as [|Hn]; [discriminate|].
    apply Hn, has_true. rewrite Ha.
    destruct (layoutOf blocks !! startId) eqn:Hl; [done|].
    by apply layoutOf_lookup_None in Hl.
  - exists w, post. split; [done|]. by eapply Hfirst.
Qed.

(** X10: when the start id is the id of a block of the layout, the attempt
    has a first wave and its only source is the start; and every source of
    every wave carries one cast per arrow of its block, in the order of the
    arrows. *)
Theorem attempt_starts_at_start blocks startId rows cols :
  exists r,
    simulateAttempt blocks startId rows cols = Ok r
    /\ (startId ∈ map b_id blocks ->
        exists w post, waves r = w :: post /\ map fromId (sources w) = [startId])
    /\ (forall w src, w ∈ waves r -> src ∈ sources w ->
          exists b, layoutOf blocks !! fromId src = Some b
                    /\ map c_dir (casts src) = b_dirs b).
Proof.
  destruct (simulateAttempt_total blocks startId rows cols) as [r Hr]. exists r.
  split; [done|].
  destruct (simulateAttempt_SimInv _ _ _ _ _ Hr) as (st & -> & Hinv & Hexit).
  simpl. split.
  - intros Hstart. by apply (first_wave_start blocks startId rows cols).
  - intros w src Hw Hsrc. destruct Hinv as ((_ & _ & Hwaves) & _).
    apply list_elem_of_split in Hw as (pre & post & Hsplit).
    destruct (Hwaves _ _ _ Hsplit) as [Halive Hcast].
    apply castWave_structure in Hcast.
    + apply list_elem_of_lookup in Hsrc as [i Hi].
      destruct (Forall2_lookup_r _ _ _ _ _ Hcast Hi) as (id & _ & Hid & b & Hb & Hcs).
      exists b. rewrite Hid. split; [done|].
      clear -Hcs. induction Hcs as [|dir cast ds cs Hc _ IH]; [done|].
      simpl. rewrite IH. f_equal. by eapply castNearest_dir.
    + intros id Hin. destruct (Halive id Hin) as [b Hb]. exists b.
      rewrite mapsAfter_alive_lookup in Hb. by destruct (decide (id ∈ vanished pre)).
Qed.

Lemma attempt_starts_at_start_witness :
  "arrow-1-0-0" ∈ map b_id cycle4
  /\ exists r,
       simulateAttempt cycle4 "arrow-1-0-0" 2 2 = Ok r
       /\ exists w post, waves r = w :: post /\ map fromId (sources w) = ["arrow-1-0-0"].
Proof.
  assert (Hin : "arrow-1-0-0" ∈ map b_id cycle4) by left.
  split; [exact Hin|].
  destruct (attempt_starts_at_start cycle4 "arrow-1-0-0" 2 2) as (r & Hr & Hfirst & _).
  exists r. split; [exact Hr|]. exact (Hfirst Hin).
Defined.

Lemma castNearest_hit block dir index rows cols cast t :
  castNearest block dir index rows cols = Ok cast ->
  c_toId cast = Some t ->
  t <> "" /\ exists key, index !! key = Some t.
Proof.
  intros Hrun Ht. pose proof (castNearest_spec block dir index rows cols) as H.
  destruct (DIR_VECTORS dir) as [dr dc].
  destruct H as (n & toId & Hrun' & _ & _ & Hend).
  rewrite Hrun in Hrun'. injection Hrun' as ->. simpl in Ht. subst toId.
  destruct Hend as (m & _ & Hm). unfold seenAt, truthy in Hm.
  destruct (index !! _) as [id|] eqn:Hk; [|discriminate].
  destruct (decide (id = "")); [discriminate|]. injection Hm as ->. eauto.
Qed.

Lemma castNearest_first_hit block dir index rows cols cast :
  map_Forall (fun _ id => id <> "") index ->
  castNearest block dir index rows cols = Ok cast ->
  FirstHit block dir index rows cols cast.
Proof.
  intros Hne Hcast.
  pose proof (castNearest_spec block dir index rows cols) as H.
  unfold FirstHit, rayFrom, occupant.
  destruct (DIR_VECTORS dir) as [dr dc]. cbn [fst snd] in *.
  destruct H as (n & toId & Hrun & Hgrid & Hfree & Hend).
  rewrite Hcast in Hrun. injection Hrun as ->.
  assert (Hseen : forall cell, seenAt index cell = index !! coordKey cell.1 cell.2).
  { intros cell. unfold seenAt. by apply truthy_nonempty. }
  exists n. cbn [c_dir c_rayCells c_toId]. split; [done|]. split; [|split; [|split]].
  - rewrite <- seq_shift, map_map. apply map_ext. intros k. apply rayCell_shift.
  - intros [|k] Hk; [lia|]. rewrite <- rayCell_shift. apply Hgrid. lia.
  - intros [|k] Hk; [lia|]. rewrite <- rayCell_shift, <- Hseen. apply Hfree. lia.
  - destruct toId as [id|].
    + destruct Hend as (m & -> & Hm). split; [lia|].
      by rewrite <- rayCell_shift, <- Hseen.
    + destruct Hend as [Hall Hout]. split.
      * intros [|k] Hk; [lia|]. rewrite <- rayCell_shift, <- Hseen. apply Hall. lia.
      * by rewrite <- rayCell_shift.
Qed.

Lemma castNearest_adjacent_hit block dir index rows cols cast t :
  castNearest block dir index rows cols = Ok cast ->
  inBounds (b_row block + (DIR_VECTORS dir).1) (b_col block + (DIR_VECTORS dir).2)
           rows cols = true ->
  index !! coordKey (b_row block + (DIR_VECTORS dir).1)
                    (b_col block + (DIR_VECTORS dir).2) = Some t ->
  t <> "" ->
  c_toId cast = Some t
  /\ c_rayCells cast = [(b_row block + (DIR_VECTORS dir).1,
                         b_col block + (DIR_VECTORS dir).2)].
Proof.
  intros Hcast Hin Hix Hne.
  pose proof (castNearest_spec block dir index rows cols) as H.
  destruct (DIR_VECTORS dir) as [dr dc]. cbn [fst snd] in *.
  destruct H as (n & toId & Hrun & Hgrid & Hfree & Hend).
  rewrite Hcast in Hrun. injection Hrun as ->. cbn [c_toId c_rayCells].
  assert (H0 : rayCell (b_row block + dr) (b_col block + dc) dr dc 0
               = (b_row block + dr, b_col block + dc)).
  { unfold rayCell. f_equal; lia. }
  assert (Hseen : seenAt index (rayCell (b_row block + dr) (b_col block + dc) dr dc 0)
                  = Some t).
  { rewrite H0. unfold seenAt, truthy. cbn [fst snd]. rewrite Hix.
    by destruct (decide (t = "")). }
  destruct n as [|[|n]].
  - destruct toId; [by destruct Hend as (m & ? & _)|].
    destruct Hend as [_ Hout]. rewrite H0 in Hout. unfold inGrid in Hout.
    cbn [fst snd] in Hout. congruence.
  - destruct toId as [id|].
    + destruct Hend as (m & [= <-] & Hm). rewrite Hseen in Hm. injection Hm as ->.
      simpl. by rewrite H0.
    + destruct Hend as [Hall _]. rewrite (Hall 0%nat) in Hseen by lia. discriminate.
  - rewrite (Hfree 0%nat) in Hseen by lia. discriminate.
Qed.

Lemma hit_is_alive blocks V alive index key t :
  wellFormed blocks ->
  Consistent blocks V (alive, index) ->
  index !! key = Some t ->
  has alive t = true /\ t ∈ map b_id blocks /\ t ∉ V.
Proof.
  intros Hwf [Hal Hix] Hk. simpl in *.
  apply Hix in Hk as (b & Hb & _ & -> & Hfresh).
  split; [|split; [|done]].
  - apply has_true. rewrite Hal. rewrite decide_False by done.
    rewrite (layoutOf_lookup_wf blocks b) by done. eauto.
  - apply list_elem_of_fmap. eauto.
Qed.

Lemma foldl_hitStep_hitIds alive cs :
  (forall cast t, cast ∈ cs -> c_toId cast = Some t -> t <> "" /\ has alive t = true) ->
  forall acc,
    foldl (hitStep alive) acc cs
    = foldl (fun acc cast =>
               match c_toId cast with
               | Some t => setAdd acc t
               | None => acc
               end) acc cs.
Proof.
  induction cs as [|cast cs IH]; intros Hall acc; [done|].
  simpl. rewrite IH by (intros; eapply Hall; [by right|done]). f_equal.
  unfold hitStep, truthy. destruct (c_toId cast) as [t|] eqn:Ht; [|done].
  destruct (Hall cast t) as [Hne Halive]; [left|done|].
  destruct (decide (t = "")); [done|]. by rewrite Halive.
Qed.

(** On a well-formed layout every hit of a wave is a block that is alive
    after the wave: [collectHits] keeps all of them. *)
Lemma wave_hits_alive blocks rows cols pre w :
  wellFormed blocks ->
  WaveRun blocks rows cols pre w ->
  let alive := (mapsAfter blocks (pre ++ [w])).1 in
  collectHits alive (sources w) = hitIds w
  /\ filter (fun id => has alive id = true) (collectHits alive (sources w)) = hitIds w.
Proof.
  intros Hwf [Halive Hcast] alive.
  assert (Heq : collectHits alive (sources w) = hitIds w).
  { rewrite collectHits_flat. unfold hitIds. apply foldl_hitStep_hitIds.
    intros cast t Hin Ht.
    apply list_elem_of_In, in_concat in Hin as (cs & Hcs & Hin).
    apply list_elem_of_In, list_elem_of_fmap in Hcs as (src & -> & Hsrc).
    apply list_elem_of_In in Hin.
    apply castWave_structure in Hcast.
    2:{ intros id Hid. destruct (Halive id Hid) as [b Hb]. exists b.
        rewrite mapsAfter_alive_lookup in Hb. by destruct (decide (id ∈ vanished pre)). }
    apply list_elem_of_lookup in Hsrc as [i Hi].
    destruct (Forall2_lookup_r _ _ _ _ _ Hcast Hi) as (id & _ & _ & b & _ & Hcs).
    apply list_elem_of_lookup in Hin as [j Hj].
    destruct (Forall2_lookup_r _ _ _ _ _ Hcs Hj) as (dir & _ & Hrun).
    destruct (castNearest_hit _ _ _ _ _ _ _ Hrun Ht) as (Hne & key & Hkey).
    split; [done|].
    pose proof (mapsAfter_consistent blocks Hwf (pre ++ [w])) as Hcons.
    destruct (mapsAfter blocks (pre ++ [w])) as [a ix] eqn:Hm.
    by destruct (hit_is_alive _ _ _ _ _ _ Hwf Hcons Hkey). }
  split; [done|]. rewrite <- Heq.
  assert (Hall : forall t, t ∈ collectHits alive (sources w) -> has alive t = true).
  { intros t Ht. by apply has_true, (collectHits_alive _ (sources w)). }
  revert Hall. generalize (collectHits alive (sources w)).
  induction l as [|t l IH]; intros Hall; [done|].
  rewrite filter_cons. rewrite decide_True by (apply Hall; left).
  f_equal. apply IH. intros t' Ht'. apply Hall. by right.
Qed.

(** X11: on a well-formed layout the waves of an attempt chain through
    their hits: the sources of each wave after the first are exactly the
    ids that the casts of the wave before hit, in the order of their first
    hit, and the casts of the last wave hit nothing. *)
Theorem waves_follow_hits blocks startId rows cols r :
  wellFormed blocks ->
  simulateAttempt blocks startId rows cols = Ok r ->
  (forall pre w1 w2 post, waves r = pre ++ w1 :: w2 :: post -> waveIds w2 = hitIds w1)
  /\ (forall pre w, waves r = pre ++ [w] -> hitIds w = []).
Proof.
  intros Hwf Hr.
  destruct (simulateAttempt_SimInv _ _ _ _ _ Hr) as (st & -> & Hinv & Hexit).
  destruct Hinv as (Hrun & _ & _ & _ & Hlink & _ & Hchain).
  destruct Hrun as (_ & Hmaps & Hwaves). simpl. split.
  - intros pre w1 w2 post Hsplit. rewrite (Hchain _ _ _ _ Hsplit).
    by apply (wave_hits_alive blocks rows cols pre w1 Hwf), (Hwaves _ _ _ Hsplit).
  - intros pre w Hsplit.
    destruct Hlink as [[Hnil _]|(ws & w' & Hws & Hf)].
    { rewrite Hnil in Hsplit. by destruct pre. }
    rewrite Hsplit in Hws. apply app_inj_tail in Hws as [<- <-].
    assert (Ha : aliveById st = (mapsAfter blocks (pre ++ [w])).1)
      by (by rewrite <- Hsplit, <- Hmaps).
    rewrite Hf, Ha in Hexit. rewrite <- Hexit. symmetry.
    apply (wave_hits_alive blocks rows cols pre w Hwf), (Hwaves pre w []).
    by rewrite Hsplit.
Qed.

Lemma waves_follow_hits_witness :
  wellFormed cycle4
  /\ exists r,
       simulateAttempt cycle4 "arrow-1-0-0" 2 2 = Ok r
       /\ (forall pre w1 w2 post,
             waves r = pre ++ w1 :: w2 :: post -> waveIds w2 = hitIds w1)
       /\ (forall pre w, waves r = pre ++ [w] -> hitIds w = []).
Proof.
  assert (Hwf : wellFormed cycle4).
  { split; apply (bool_decide_unpack _); vm_compute; exact I. }
  split; [exact Hwf|].
  eassert (Hr : simulateAttempt cycle4 "arrow-1-0-0" 2 2 = Ok _)
    by (vm_compute; reflexivity).
  eexists. split; [exact Hr|].
  exact (waves_follow_hits cycle4 "arrow-1-0-0" 2 2 _ Hwf Hr).
Defined.

(** X12: on a well-formed layout whose ids are non-empty strings, every
    cast of every wave of an attempt is the nearest hit of its source on the
    index from which the sources of the earlier waves and of its own wave
    have been deleted; so a cast only hits blocks of the layout that have
    not vanished. *)
Theorem wave_casts_hit_nearest_standing blocks startId rows cols r :
  wellFormed blocks ->
  (forall b, b ∈ blocks -> b_id b <> "") ->
  simulateAttempt blocks startId rows cols = Ok r ->
  forall pre w post src cast,
    waves r = pre ++ w :: post -> src ∈ sources w -> cast ∈ casts src ->
    exists b,
      b ∈ blocks /\ b_id b = fromId src
      /\ FirstHit b (c_dir cast) (mapsAfter blocks (pre ++ [w])).2 rows cols cast
      /\ forall t, c_toId cast = Some t ->
           t ∈ map b_id blocks /\ t ∉ vanished (pre ++ [w]).
Proof.
  intros Hwf Hne Hr pre w post src cast Hsplit Hsrc Hcast.
  destruct (simulateAttempt_SimInv _ _ _ _ _ Hr) as (st & -> & Hinv & _).
  destruct Hinv as ((_ & _ & Hwaves) & _). simpl in Hsplit.
  destruct (Hwaves _ _ _ Hsplit) as [Halive Hrun].
  apply castWave_structure in Hrun.
  2:{ intros id Hid. destruct (Halive id Hid) as [b Hb]. exists b.
      rewrite mapsAfter_alive_lookup in Hb. by destruct (decide (id ∈ vanished pre)). }
  apply list_elem_of_lookup in Hsrc as [i Hi].
  destruct (Forall2_lookup_r _ _ _ _ _ Hrun Hi) as (id & _ & Hid & b & Hb & Hcs).
  apply list_elem_of_lookup in Hcast as [j Hj].
  destruct (Forall2_lookup_r _ _ _ _ _ Hcs Hj) as (dir & _ & Hcast).
  apply layoutOf_lookup_Some in Hb as [Hb Hbid].
  exists b. split; [done|]. split; [congruence|].
  pose proof (mapsAfter_consistent blocks Hwf (pre ++ [w])) as Hcons.
  destruct (mapsAfter blocks (pre ++ [w])) as [alive index] eqn:Hm. cbn [snd].
  rewrite (castNearest_dir _ _ _ _ _ _ Hcast). split.
  - apply castNearest_first_hit; [|done].
    intros key t Hkey. apply Hcons in Hkey as (c & Hc & _ & -> & _). by apply Hne.
  - intros t Ht. destruct (castNearest_hit _ _ _ _ _ _ _ Hcast Ht) as (_ & key & Hkey).
    by destruct (hit_is_alive _ _ _ _ _ _ Hwf Hcons Hkey) as (_ & ? & ?).
Qed.

Lemma wave_casts_hit_nearest_standing_witness :
  wellFormed cycle4
  /\ (forall b, b ∈ cycle4 -> b_id b <> "")
  /\ exists r,
       simulateAttempt cycle4 "arrow-1-0-0" 2 2 = Ok r
       /\ forall pre w post src cast,
            waves r = pre ++ w :: post -> src ∈ sources w -> cast ∈ casts src ->
            exists b,
              b ∈ cycle4 /\ b_id b = fromId src
              /\ FirstHit b (c_dir cast) (mapsAfter cycle4 (pre ++ [w])).2 2 2 cast
              /\ forall t, c_toId cast = Some t ->
                   t ∈ map b_id cycle4 /\ t ∉ vanished (pre ++ [w]).
Proof.
  assert (Hwf : wellFormed cycle4).
  { split; apply (bool_decide_unpack _); vm_compute; exact I. }
  assert (Hne : forall b, b ∈ cycle4 -> b_id b <> "").
  { intros b Hb. unfold cycle4 in Hb.
    repeat (apply elem_of_cons in Hb as [-> | Hb]; [discriminate|]). inversion Hb. }
  split; [exact Hwf|]. split; [exact Hne|].
  eassert (Hr : simulateAttempt cycle4 "arrow-1-0-0" 2 2 = Ok _)
    by (vm_compute; reflexivity).
  eexists. split; [exact Hr|].
  exact (wave_casts_hit_nearest_standing cycle4 "arrow-1-0-0" 2 2 _ Hwf Hne Hr).
Defined.

Lemma HitsClosed_step blocks startId rows cols st id cur alive index srcs :
  wellFormed blocks ->
  (forall b, b ∈ blocks ->
     b_id b <> "" /\ inBounds (b_row b) (b_col b) rows cols = true) ->
  SimInv blocks startId rows cols st ->
  HitsClosed blocks st ->
  filter (fun id => has (aliveById st) id = true) (frontier st) = id :: cur ->
  vanishWave (id :: cur) (aliveById st) (byCoord st) = (alive, index) ->
  castWave (layoutById st) (id :: cur) index rows cols = Ok srcs ->
  HitsClosed blocks
    (mkSim (sim_blocks st) (layoutById st) alive index
           (sim_waves st ++ [mkWave srcs]) (collectHits alive srcs)).
Proof.
  intros Hwf Hok [Hrun _] Hclosed Hcur Hv Hsrcs.
  destruct (wave_step_facts _ _ _ _ _ _ _ _ _ Hrun Hcur Hv Hsrcs)
    as (Hids & Hnext & Hstruct).
  pose proof (mapsAfter_consistent blocks Hwf (sim_waves st ++ [mkWave srcs])) as Hcons.
  rewrite Hnext, vanished_snoc, Hids in Hcons. destruct Hcons as [Hal Hix].
  cbn [fst snd] in Hal, Hix.
  destruct Hrun as (_ & Hmaps & _).
  assert (Ha : aliveById st = (mapsAfter blocks (sim_waves st)).1) by (by rewrite <- Hmaps).
  intros b c Hb Hc Hpt Hvan. cbn [sim_waves frontier] in *.
  rewrite vanished_snoc, Hids in Hvan |- *.
  destruct (decide (b_id c ∈ vanished (sim_waves st) ++ id :: cur)) as [|Hfresh];
    [by left|]. right.
  assert (Hcalive : has alive (b_id c) = true).
  { apply has_true. rewrite Hal, decide_False by done.
    rewrite (layoutOf_lookup_wf blocks c) by done. eauto. }
  apply elem_of_app in Hvan as [Hvan|Hvan].
  - exfalso. apply Hfresh, elem_of_app.
    destruct (Hclosed b c Hb Hc Hpt Hvan) as [Hold|Hf]; [by left|]. right.
    rewrite <- Hcur. apply list_elem_of_filter. split; [|done].
    apply has_true. rewrite Ha, mapsAfter_alive_lookup.
    destruct (decide (b_id c ∈ vanished (sim_waves st))) as [Hin|_].
    + exfalso. apply Hfresh, elem_of_app. by left.
    + rewrite (layoutOf_lookup_wf blocks c) by done. eauto.
  - apply collectHits_elem.
    apply list_elem_of_lookup in Hvan as [i Hi].
    destruct (Forall2_lookup_l _ _ _ _ _ Hstruct Hi) as (src & Hsrc & _ & b' & Hb' & Hcasts).
    rewrite (layoutOf_lookup_wf blocks b Hwf Hb) in Hb'. injection Hb' as <-.
    destruct Hpt as (dir & Hdir & Hrow & Hcol).
    apply list_elem_of_lookup in Hdir as [j Hj].
    destruct (Forall2_lookup_l _ _ _ _ _ Hcasts Hj) as (cast & Hcast & Hnear).
    exists src, cast.
    split; [by eapply list_elem_of_lookup_2|]. split; [by eapply list_elem_of_lookup_2|].
    split; [|done].
    destruct (Hok c Hc) as [Hne Hin].
    destruct (castNearest_adjacent_hit b dir index rows cols cast (b_id c)) as [-> _];
      [done| by rewrite <- Hrow, <- Hcol | | done |].
    + apply Hix. exists c. rewrite Hrow, Hcol. done.
    + unfold truthy. by destruct (decide (b_id c = "")).
Qed.

Lemma simulateAttempt_HitsClosed blocks startId rows cols r :
  wellFormed blocks ->
  (forall b, b ∈ blocks ->
     b_id b <> "" /\ inBounds (b_row b) (b_col b) rows cols = true) ->
  simulateAttempt blocks startId rows cols = Ok r ->
  exists st,
    r = resultOf st
    /\ SimInv blocks startId rows cols st
    /\ HitsClosed blocks st
    /\ filter (fun id => has (aliveById st) id = true) (frontier st) = [].
Proof.
  intros Hwf Hok Hr.
  unfold simulateAttempt, simulateAttemptWith, fmap, Res_fmap in Hr.
  apply res_bind_Ok in Hr as (st & Hst & [= <-]). exists st. split; [done|].
  apply (waveLoop_invariant
           (fun st => SimInv blocks startId rows cols st /\ HitsClosed blocks st))
    in Hst as [[Hinv Hclosed] Hexit]; [done| |].
  - clear st Hst. intros st id cur alive index srcs [Hinv Hclosed] Hcur Hv Hsrcs.
    split; [by eapply SimInv_step|by eapply HitsClosed_step].
  - split.
    + split.
      { split; [done|]. split; [done|]. intros pre w post H. simpl in H. by destruct pre. }
      simpl. split; [apply NoDup_singleton|]. split; [constructor|].
      split; [intros w Hw; inversion Hw|]. split; [by left|].
      split; [intros w post H; discriminate|].
      intros pre w1 w2 post H. by destruct pre.
    + intros b c _ _ _ Hvan. simpl in Hvan. inversion Hvan.
Qed.

(** When the loop has stopped, a vanished block that points at an adjacent
    block has made it vanish. *)
Lemma exit_closed blocks startId rows cols st b c :
  wellFormed blocks ->
  SimInv blocks startId rows cols st ->
  HitsClosed blocks st ->
  filter (fun id => has (aliveById st) id = true) (frontier st) = [] ->
  b ∈ blocks -> c ∈ blocks -> pointsAt b c ->
  b_id b ∈ vanished (sim_waves st) -> b_id c ∈ vanished (sim_waves st).
Proof.
  intros Hwf Hinv Hclosed Hexit Hb Hc Hpt Hvan.
  destruct (Hclosed b c Hb Hc Hpt Hvan) as [Hv|Hf]; [done|].
  destruct Hinv as ((_ & Hmaps & _) & _).
  assert (Ha : aliveById st = (mapsAfter blocks (sim_waves st)).1)
    by (by rewrite <- Hmaps).
  destruct (decide (b_id c ∈ vanished (sim_waves st))) as [|Hfresh]; [done|].
  exfalso.
  assert (Hin : b_id c ∈ filter (fun id => has (aliveById st) id = true) (frontier st)).
  { apply list_elem_of_filter. split; [|done].
    apply has_true. rewrite Ha, mapsAfter_alive_lookup, decide_False by done.
    rewrite (layoutOf_lookup_wf blocks c) by done. eauto. }
  rewrite Hexit in Hin. inversion Hin.
Qed.

Lemma start_vanishes blocks startId rows cols st :
  SimInv blocks startId rows cols st ->
  filter (fun id => has (aliveById st) id = true) (frontier st) = [] ->
  startId ∈ map b_id blocks ->
  startId ∈ vanished (sim_waves st).
Proof.
  intros Hinv Hexit Hstart.
  destruct (first_wave_start _ _ _ _ _ Hinv Hexit Hstart) as (w & post & Hws & Hw).
  rewrite Hws. change (vanished (w :: post)) with (waveIds w ++ vanished post).
  rewrite Hw. left.
Qed.

(** X13: an attempt clears everything its start is linked to.  On a
    well-formed layout whose ids are non-empty and whose blocks stand inside
    the grid, the attempt started at the block [start] returns a result in
    which every block that [start] reaches through arrows to adjacent blocks
    is a source of some wave; when every block is reached that way, the
    attempt clears the layout. *)
Theorem linked_blocks_vanish blocks start rows cols :
  wellFormed blocks ->
  (forall b, b ∈ blocks ->
     b_id b <> "" /\ inBounds (b_row b) (b_col b) rows cols = true) ->
  start ∈ blocks ->
  exists r,
    simulateAttempt blocks (b_id start) rows cols = Ok r
    /\ (forall b, b ∈ blocks -> Linked blocks start b -> b_id b ∈ vanished (waves r))
    /\ ((forall b, b ∈ blocks -> Linked blocks start b) -> success r = true).
Proof.
  intros Hwf Hok Hstart.
  destruct (simulateAttempt_total blocks (b_id start) rows cols) as [r Hr].
  exists r. split; [done|].
  destruct (simulateAttempt_HitsClosed _ _ _ _ _ Hwf Hok Hr)
    as (st & -> & Hinv & Hclosed & Hexit).
  assert (Hlinked : forall b, b ∈ blocks -> Linked blocks start b ->
                              b_id b ∈ vanished (sim_waves st)).
  { intros b Hb Hl. induction Hl as [|b c Hl IH Hb' Hc Hpt].
    - apply (start_vanishes blocks _ rows cols); [done..|].
      apply list_elem_of_fmap. eauto.
    - by apply (exit_closed blocks (b_id start) rows cols st b c Hwf Hinv Hclosed Hexit Hb' Hc Hpt), IH. }
  simpl. split; [done|]. intros Hall.
  destruct Hinv as [Hrun _].
  apply (success_iff_all_vanished blocks rows cols st Hrun).
  intros id Hid. apply list_elem_of_fmap in Hid as (b & -> & Hb).
  apply Hlinked; [done|]. by apply Hall.
Qed.

Lemma linked_blocks_vanish_witness :
  exists r,
    simulateAttempt cycle4 "arrow-1-0-0" 2 2 = Ok r
    /\ (forall b, b ∈ cycle4 -> Linked cycle4 (mkBlock "arrow-1-0-0" 0 0 [E]) b ->
          b_id b ∈ vanished (waves r))
    /\ ((forall b, b ∈ cycle4 -> Linked cycle4 (mkBlock "arrow-1-0-0" 0 0 [E]) b) ->
        success r = true).
Proof.
  assert (Hwf : wellFormed cycle4).
  { split; apply (bool_decide_unpack _); vm_compute; exact I. }
  assert (Hok : forall b, b ∈ cycle4 ->
                  b_id b <> "" /\ inBounds (b_row b) (b_col b) 2 2 = true).
  { intros b Hb. unfold cycle4 in Hb.
    repeat (apply elem_of_cons in Hb as [-> | Hb]; [by split|]). inversion Hb. }
  assert (Hstart : mkBlock "arrow-1-0-0" 0 0 [E] ∈ cycle4) by left.
  exact (linked_blocks_vanish cycle4 (mkBlock "arrow-1-0-0" 0 0 [E]) 2 2 Hwf Hok Hstart).
Defined.

(** ** The growth tree *)

Lemma directionBetween_Some from to dir :
  directionBetween from to = Some dir <-> stepTo from dir to.
Proof.
  unfold directionBetween, stepTo.
  rewrite DELTA_TO_DIR_lookup. destruct (DIR_VECTORS dir) as [dr dc]. simpl.
  split; [intros [= -> ->]; lia|intros [-> ->]; f_equal; lia].
Qed.

Lemma keyOf_inj p q : keyOf p = keyOf q -> p = q.
Proof.
  unfold keyOf. intros H. apply coordKey_inj in H as [Hr Hc].
  destruct p, q. simpl in *. congruence.
Qed.

Lemma buildAllPoints_elem rows cols point :
  point ∈ buildAllPoints rows cols <-> onGrid rows cols point.
Proof.
  split; [apply buildAllPoints_inBounds|].
  intros Hin. apply inBounds_true in Hin. unfold buildAllPoints.
  apply list_elem_of_bind. exists (pt_row point). split; [|apply elem_of_seqZ; lia].
  apply list_elem_of_bind. exists (pt_col point). split; [|apply elem_of_seqZ; lia].
  destruct point. left.
Qed.

Lemma buildAllPoints_NoDup rows cols : NoDup (buildAllPoints rows cols).
Proof.
  unfold buildAllPoints. apply NoDup_bind; [| |apply NoDup_seqZ].
  - intros r1 r2 p _ _ H1 H2.
    apply list_elem_of_bind in H1 as (c1 & H1 & _).
    apply list_elem_of_bind in H2 as (c2 & H2 & _).
    apply list_elem_of_singleton in H1. apply list_elem_of_singleton in H2. congruence.
  - intros r _. apply NoDup_bind; [| |apply NoDup_seqZ].
    + intros c1 c2 p _ _ H1 H2.
      apply list_elem_of_singleton in H1. apply list_elem_of_singleton in H2. congruence.
    + intros c _. apply NoDup_singleton.
Qed.

(** [pointByKey] maps the key of each cell of the grid to the cell. *)
Lemma pointByKey_lookup rows cols key p :
  mapOfEntries (map (fun point => (coordKey (pt_row point) (pt_col point), point))
                    (buildAllPoints rows cols)) !! key = Some p
  <-> onGrid rows cols p /\ key = keyOf p.
Proof.
  split.
  - intros H. apply mapOfEntries_lookup_Some, list_elem_of_fmap in H as (q & [= -> ->] & Hq).
    split; [by apply buildAllPoints_elem|done].
  - intros [Hp ->]. apply mapOfEntries_lookup_NoDup.
    + rewrite <- list_fmap_compose. apply (NoDup_fmap_2_strong _).
      * intros x y _ _ Hxy. by apply keyOf_inj.
      * apply buildAllPoints_NoDup.
    + apply list_elem_of_fmap. exists p. split; [done|]. by apply buildAllPoints_elem.
Qed.

(** [childrenByKey] starts with an empty array under the key of each cell. *)
Lemma childrenByKey_init rows cols key cs :
  mapOfEntries (map (fun point => (coordKey (pt_row point) (pt_col point), @nil Point))
                    (buildAllPoints rows cols)) !! key = Some cs
  <-> cs = [] /\ exists p, onGrid rows cols p /\ key = keyOf p.
Proof.
  split.
  - intros H. apply mapOfEntries_lookup_Some, list_elem_of_fmap in H as (q & [= -> ->] & Hq).
    split; [done|]. exists q. split; [by apply buildAllPoints_elem|done].
  - intros (-> & p & Hp & ->). apply mapOfEntries_lookup_NoDup.
    + rewrite <- list_fmap_compose. apply (NoDup_fmap_2_strong _).
      * intros x y _ _ Hxy. by apply keyOf_inj.
      * apply buildAllPoints_NoDup.
    + apply list_elem_of_fmap. exists p. split; [done|]. by apply buildAllPoints_elem.
Qed.

Lemma Reaches_mono children children' start p :
  (forall key cs, children !! key = Some cs ->
     exists cs', children' !! key = Some cs' /\ forall c, c ∈ cs -> c ∈ cs') ->
  Reaches children start p -> Reaches children' start p.
Proof.
  intros Hmono H. induction H as [|p c cs _ IH Hcs Hc]; [constructor|].
  destruct (Hmono _ _ Hcs) as (cs' & Hcs' & Hsub).
  eapply Reaches_child; [exact IH|exact Hcs'|by apply Hsub].
Qed.

Lemma children_alter_lookup (children : gmap string (list Point)) pk child cs0 key cs :
  children !! pk = Some cs0 ->
  alter (fun l => l ++ [child]) pk children !! key = Some cs ->
  (key = pk /\ cs = cs0 ++ [child]) \/ (key <> pk /\ children !! key = Some cs).
Proof.
  intros Hcs0 H. destruct (decide (key = pk)) as [->|Hne].
  - left. rewrite lookup_alter_eq, Hcs0 in H. simpl in H. by injection H as <-.
  - right. by rewrite lookup_alter_ne in H.
Qed.

(** One pass of the loop of [buildRandomGrowthTree] that hangs [child] under
    [parent]. *)
Lemma GrowInv_step rows cols maxDirs start pointByKey g parentKey parent entry child :
  (forall key p, pointByKey !! key = Some p -> key = keyOf p) ->
  GrowInv maxDirs start pointByKey g ->
  parentKey ∈ inTree g ->
  default 0 (outCount g !! parentKey) < maxDirs ->
  pointByKey !! parentKey = Some parent ->
  entry ∈ getNeighborEntries (pt_row parent) (pt_col parent) rows cols ->
  n_key entry ∈ unassigned g ->
  pointByKey !! n_key entry = Some child ->
  GrowInv maxDirs start pointByKey
    (mkGrow (alter (fun l => l ++ [child]) parentKey (g_children g))
            (setAdd (inTree g) (n_key entry))
            (unassigned g ∖ {[n_key entry]})
            (<[n_key entry :=
                 default 0 (<[parentKey := default 0 (outCount g !! parentKey) + 1]>
                              (outCount g) !! n_key entry)]>
               (<[parentKey := default 0 (outCount g !! parentKey) + 1]> (outCount g)))).
Proof.
  intros HPK Hinv Hpin Hmax Hparent Hentry Hun Hchild.
  assert (Hck : n_key entry = keyOf child) by (by apply HPK).
  assert (Hpk : parentKey = keyOf parent) by (by apply HPK).
  pose proof (proj1 (gi_unassigned _ _ _ _ Hinv _) Hun) as [_ Hfresh].
  assert (Hne : parentKey <> n_key entry) by (by intros ->).
  assert (Hset : setAdd (inTree g) (n_key entry) = inTree g ++ [n_key entry]).
  { unfold setAdd. by rewrite decide_False. }
  destruct (proj2 (gi_dom _ _ _ _ Hinv parentKey)) as [cs0 Hcs0]; [by eauto|].
  assert (Hstep : stepTo parent (n_dir entry) child).
  { apply getNeighborEntries_elem in Hentry as (_ & Hr & Hc & Hk).
    rewrite Hck in Hk. unfold keyOf in Hk. apply coordKey_inj in Hk as [Hr' Hc'].
    split; congruence. }
  assert (Hold : forall key cs, g_children g !! key = Some cs -> child ∉ cs).
  { intros key cs Hcs Hc. destruct (gi_child _ _ _ _ Hinv _ _ _ Hcs Hc) as (_ & Hin & _).
    by rewrite <- Hck in Hin. }
  rewrite Hset. constructor; cbn [g_children inTree unassigned outCount].
  - apply NoDup_app. split; [by apply (gi_nodup _ _ _ _ Hinv)|].
    split; [|apply NoDup_singleton].
    intros x Hx Hx'. by apply list_elem_of_singleton in Hx' as ->.
  - intros key.
    rewrite elem_of_difference, (gi_unassigned _ _ _ _ Hinv), not_elem_of_app,
      elem_of_singleton, list_elem_of_singleton. tauto.
  - apply elem_of_app. left. by apply (gi_root _ _ _ _ Hinv).
  - intros key. rewrite <- (gi_dom _ _ _ _ Hinv). by rewrite lookup_alter_is_Some.
  - intros key cs c Hcs Hc.
    apply (children_alter_lookup _ _ _ _ _ _ Hcs0) in Hcs as [[-> ->]|[Hkey Hcs]].
    + apply elem_of_app in Hc as [Hc|Hc].
      * destruct (gi_child _ _ _ _ Hinv _ _ _ Hcs0 Hc) as (H1 & H2 & H3 & H4 & H5).
        rewrite !elem_of_app. tauto.
      * apply list_elem_of_singleton in Hc as ->. rewrite !elem_of_app, <- Hck.
        split; [by left|]. split; [right; left|]. split.
        { intros Heq. apply Hfresh. rewrite Heq. by apply (gi_root _ _ _ _ Hinv). }
        split; [done|]. by exists parent, (n_dir entry).
    + destruct (gi_child _ _ _ _ Hinv _ _ _ Hcs Hc) as (H1 & H2 & H3 & H4 & H5).
      rewrite !elem_of_app. tauto.
  - intros key cs Hcs.
    apply (children_alter_lookup _ _ _ _ _ _ Hcs0) in Hcs as [[-> ->]|[Hkey Hcs]].
    + destruct (gi_count _ _ _ _ Hinv _ _ Hcs0) as (Hnd & Hcount & Hle).
      split; [|split].
      * apply NoDup_app. split; [done|]. split; [|apply NoDup_singleton].
        intros x Hx Hx'. apply list_elem_of_singleton in Hx' as ->.
        by apply (Hold _ _ Hcs0).
      * rewrite lookup_insert_ne by done. rewrite lookup_insert_eq. simpl.
        rewrite length_app. simpl. lia.
      * rewrite length_app. simpl. lia.
    + destruct (gi_count _ _ _ _ Hinv _ _ Hcs) as (Hnd & Hcount & Hle).
      split; [done|]. split; [|done]. rewrite <- Hcount.
      destruct (decide (key = n_key entry)) as [->|Hkey'].
      * rewrite lookup_insert_eq. simpl. by rewrite lookup_insert_ne.
      * rewrite lookup_insert_ne by done. by rewrite lookup_insert_ne.
  - intros k1 k2 cs1 cs2 c H1 H2 Hc1 Hc2.
    apply (children_alter_lookup _ _ _ _ _ _ Hcs0) in H1 as [[-> ->]|[Hk1 H1]];
      apply (children_alter_lookup _ _ _ _ _ _ Hcs0) in H2 as [[-> ->]|[Hk2 H2]];
      [done| | |by eapply (gi_parent_unique _ _ _ _ Hinv)].
    + apply elem_of_app in Hc1 as [Hc1|Hc1].
      * by eapply (gi_parent_unique _ _ _ _ Hinv).
      * apply list_elem_of_singleton in Hc1 as ->. by apply Hold in H2.
    + apply elem_of_app in Hc2 as [Hc2|Hc2].
      * by eapply (gi_parent_unique _ _ _ _ Hinv).
      * apply list_elem_of_singleton in Hc2 as ->. by apply Hold in H1.
  - assert (Hmono : forall key cs, g_children g !! key = Some cs ->
              exists cs', alter (fun l => l ++ [child]) parentKey (g_children g) !! key
                          = Some cs' /\ forall c, c ∈ cs -> c ∈ cs').
    { intros key cs Hcs. destruct (decide (key = parentKey)) as [->|Hkey].
      - exists (cs ++ [child]). rewrite lookup_alter_eq, Hcs. split; [done|].
        intros c Hc. apply elem_of_app. by left.
      - exists cs. by rewrite lookup_alter_ne. }
    intros key Hkey. apply elem_of_app in Hkey as [Hkey|Hkey].
    + destruct (gi_reach _ _ _ _ Hinv _ Hkey) as (p & Hp & Hreach).
      exists p. split; [done|]. by eapply Reaches_mono.
    + apply list_elem_of_singleton in Hkey as ->. exists child. split; [done|].
      destruct (gi_reach _ _ _ _ Hinv _ Hpin) as (p & Hp & Hreach).
      assert (p = parent) as -> by congruence.
      eapply Reaches_child; [by eapply Reaches_mono| |].
      * rewrite <- Hpk, lookup_alter_eq, Hcs0. done.
      * apply elem_of_app. right. left.
  - intros key Hkey Hroot. apply elem_of_app in Hkey as [Hkey|Hkey].
    + destruct (gi_parent _ _ _ _ Hinv _ Hkey Hroot) as (pk & cs & c & Hcs & Hc & Hkc).
      destruct (decide (pk = parentKey)) as [->|Hpk'].
      * exists parentKey, (cs ++ [child]), c. rewrite lookup_alter_eq, Hcs.
        split; [done|]. split; [|done]. apply elem_of_app. by left.
      * exists pk, cs, c. by rewrite lookup_alter_ne.
    + apply list_elem_of_singleton in Hkey as ->.
      exists parentKey, (cs0 ++ [child]), child. rewrite lookup_alter_eq, Hcs0.
      split; [done|]. split; [|done]. apply elem_of_app. right. left.
Qed.

Section GrowthFacts.
Context {St : Type}.
Variable next : St -> Q * St.

Lemma growLoop_GrowInv rows cols maxDirs start pointByKey fuel :
  (forall key p, pointByKey !! key = Some p -> key = keyOf p) ->
  forall g s g' s',
    GrowInv maxDirs start pointByKey g ->
    growLoop next fuel rows cols maxDirs pointByKey g s = Ok (Some g', s') ->
    GrowInv maxDirs start pointByKey g' /\ size (unassigned g') = 0%nat.
Proof.
  intros HPK. induction fuel as [|fuel IH]; intros g s g' s' Hinv H; simpl in H.
  - destruct (bool_decide (size (unassigned g) = 0%nat)) eqn:Hz; [|discriminate].
    injection H as <- <-. by apply bool_decide_eq_true in Hz.
  - destruct (bool_decide (size (unassigned g) = 0%nat)) eqn:Hz.
    { injection H as <- <-. by apply bool_decide_eq_true in Hz. }
    destruct (filter _ (inTree g)) as [|e eps] eqn:Heps; [discriminate|].
    apply gen_bind_Ok in H as (parentKey & s1 & Hp & H).
    apply Post_chooseRandom in Hp. simpl in Hp. rewrite <- Heps in Hp.
    apply list_elem_of_filter in Hp as [Hexp Hpin]. unfold expandable in Hexp.
    destruct (maxDirs <=? _) eqn:Hmax; [discriminate|]. apply Z.leb_gt in Hmax.
    destruct (pointByKey !! parentKey) as [parent|] eqn:Hparent; [|discriminate].
    destruct (filter _ (getNeighborEntries _ _ rows cols)) as [|c cs] eqn:Hcs.
    { by eapply IH. }
    apply gen_bind_Ok in H as (childEntry & s2 & Hc & H).
    apply Post_chooseRandom in Hc. simpl in Hc. rewrite <- Hcs in Hc.
    apply list_elem_of_filter in Hc as [Hun Hentry].
    destruct (pointByKey !! n_key childEntry) as [child|] eqn:Hchild; [|discriminate].
    eapply IH; [|exact H]. by eapply GrowInv_step.
Qed.

Lemma buildRandomGrowthTree_Spanning rows cols maxDirs s tree s' :
  buildRandomGrowthTree next rows cols maxDirs s = Ok (Some tree, s') ->
  Spanning rows cols maxDirs tree.
Proof.
  unfold buildRandomGrowthTree. intros H.
  destruct (buildAllPoints rows cols) as [|p0 ps] eqn:Hpts; [discriminate|].
  rewrite <- Hpts in H.
  apply gen_bind_Ok in H as (start & s1 & Hstart & H).
  apply Post_chooseRandom in Hstart. simpl in Hstart.
  apply buildAllPoints_elem in Hstart.
  apply gen_bind_Ok in H as (r & s2 & Hloop & H).
  destruct r as [g'|]; [|discriminate]. injection H as <- <-.
  set (pointByKey := mapOfEntries
         (map (fun point => (coordKey (pt_row point) (pt_col point), point))
              (buildAllPoints rows cols))) in *.
  assert (HPK : forall key p, pointByKey !! key = Some p <-> onGrid rows cols p /\ key = keyOf p).
  { intros key p. apply pointByKey_lookup. }
  apply (growLoop_GrowInv rows cols maxDirs start pointByKey) in Hloop as [Hinv Hdone].
  - assert (Hall : forall p, onGrid rows cols p -> keyOf p ∈ inTree g').
    { intros p Hp. destruct (decide (keyOf p ∈ inTree g')) as [|Hout]; [done|].
      exfalso. apply size_empty_inv in Hdone.
      assert (Hin : keyOf p ∈ unassigned g').
      { apply (gi_unassigned _ _ _ _ Hinv). split; [|done]. exists p. by apply HPK. }
      by apply Hdone in Hin. }
    assert (Hch : forall p c, onGrid rows cols p -> c ∈ childrenOf (mkTree start (g_children g')) p ->
              exists cs, g_children g' !! keyOf p = Some cs /\ c ∈ cs).
    { intros p c Hp Hc. unfold childrenOf in Hc. simpl in Hc.
      destruct (g_children g' !! keyOf p) as [cs|]; [eauto|inversion Hc]. }
    split; [done|]. simpl. split; [|split; [|split; [|split]]].
    + intros p Hp. split.
      * apply (gi_dom _ _ _ _ Hinv). exists p. by apply HPK.
      * destruct (gi_reach _ _ _ _ Hinv _ (Hall p Hp)) as (q & Hq & Hreach).
        apply HPK in Hq as [_ Hq]. by apply keyOf_inj in Hq as ->.
    + intros p c Hp Hc. destruct (Hch p c Hp Hc) as (cs & Hcs & Hc').
      destruct (gi_child _ _ _ _ Hinv _ _ _ Hcs Hc') as (_ & _ & Hnr & Hpc & q & dir & Hq & Hstep).
      apply HPK in Hpc as [Hgrid _]. split; [done|]. split; [by intros ->|].
      apply HPK in Hq as [_ Hq]. apply keyOf_inj in Hq as <-.
      exists dir. by apply directionBetween_Some.
    + intros p Hp. unfold childrenOf. simpl.
      destruct (g_children g' !! keyOf p) as [cs|] eqn:Hcs.
      * destruct (gi_count _ _ _ _ Hinv _ _ Hcs) as (Hnd & _ & Hle). done.
      * simpl. split; [constructor|lia].
    + intros p q c Hp Hq Hc Hc'.
      destruct (Hch p c Hp Hc) as (cs & Hcs & Hin).
      destruct (Hch q c Hq Hc') as (cs' & Hcs' & Hin').
      apply keyOf_inj. by eapply (gi_parent_unique _ _ _ _ Hinv).
    + intros c Hc Hnr.
      destruct (gi_parent _ _ _ _ Hinv (keyOf c) (Hall c Hc)) as (pk & cs & c' & Hcs & Hc' & Hk).
      { intros Heq. by apply keyOf_inj in Heq. }
      apply keyOf_inj in Hk as ->.
      destruct (gi_child _ _ _ _ Hinv _ _ _ Hcs Hc') as (_ & _ & _ & _ & q & _ & Hq & _).
      apply HPK in Hq as [Hq ->]. exists q. split; [done|].
      unfold childrenOf. simpl. by rewrite Hcs.
  - intros key p Hp. by apply HPK in Hp as [_ ->].
  - assert (Hstart' : pointByKey !! keyOf start = Some start) by (by apply HPK).
    constructor; cbn [g_children inTree unassigned outCount].
    + apply NoDup_singleton.
    + intros key. rewrite elem_of_difference, elem_of_dom, elem_of_singleton,
        list_elem_of_singleton. done.
    + left.
    + intros key. split.
      * intros [cs Hcs]. apply childrenByKey_init in Hcs as (_ & p & Hp & ->).
        exists p. by apply HPK.
      * intros [p Hp]. apply HPK in Hp as [Hp ->]. exists [].
        apply childrenByKey_init. eauto.
    + intros key cs c Hcs Hc. apply childrenByKey_init in Hcs as [-> _]. inversion Hc.
    + intros key cs Hcs. apply childrenByKey_init in Hcs as [-> _].
      split; [constructor|]. split; [|simpl; lia].
      change (coordKey (pt_row start) (pt_col start)) with (keyOf start).
      destruct (decide (key = keyOf start)) as [->|Hne].
      * by rewrite lookup_singleton_eq.
      * by rewrite lookup_singleton_ne.
    + intros k1 k2 cs1 cs2 c Hcs1 _ Hc. apply childrenByKey_init in Hcs1 as [-> _].
      inversion Hc.
    + intros key Hkey. apply list_elem_of_singleton in Hkey as ->.
      exists start. split; [done|]. constructor.
    + intros key Hkey Hne. by apply list_elem_of_singleton in Hkey.
Qed.

End GrowthFacts.

(** X14: a tree that [buildRandomGrowthTree] returns spans the grid: the
    root is a cell; every cell has its entry in [childrenByKey] and is under
    the root; the children of a cell are distinct neighbouring cells, at most
    [maxDirs] of them, none the root; every cell other than the root is the
    child of exactly one cell.  With rng in [[0,1)] the function returns such
    a tree or null, whatever the size of the grid. *)
Theorem growth_tree_spans {St} (next : St -> Q * St) rows cols maxDirs s :
  (forall tree s',
      buildRandomGrowthTree next rows cols maxDirs s = Ok (Some tree, s') ->
      Spanning rows cols maxDirs tree)
  /\ (InRange next ->
      exists t s',
        buildRandomGrowthTree next rows cols maxDirs s = Ok (t, s')
        /\ forall tree, t = Some tree -> Spanning rows cols maxDirs tree).
Proof.
  split.
  - intros tree s'. apply buildRandomGrowthTree_Spanning.
  - intros Hrange.
    destruct (Total_buildRandomGrowthTree next Hrange rows cols maxDirs s) as (t & s' & H).
    exists t, s'. split; [done|]. intros tree ->.
    by eapply buildRandomGrowthTree_Spanning.
Qed.

Lemma growth_tree_spans_witness :
  exists tree s',
    buildRandomGrowthTree seededNext 3 3 2 (createSeededRandom 7) = Ok (Some tree, s')
    /\ Spanning 3 3 2 tree.
Proof.
  eassert (H : buildRandomGrowthTree seededNext 3 3 2 (createSeededRandom 7)
               = Ok (Some _, _)) by (vm_compute; reflexivity).
  eexists _, _. split; [exact H|].
  exact (proj1 (growth_tree_spans seededNext 3 3 2 (createSeededRandom 7)) _ _ H).
Defined.

(** X15: the degenerate grids of [buildRandomGrowthTree].  A grid without
    rows or without columns gives null before any draw from rng; and when
    [maxDirs] is not positive, a grid of more than one cell never gives a
    tree. *)
Theorem growth_tree_degenerate {St} (next : St -> Q * St) rows cols maxDirs s :
  (rows <= 0 \/ cols <= 0 ->
   buildRandomGrowthTree next rows cols maxDirs s = Ok (None, s))
  /\ (maxDirs <= 0 -> 2 <= rows \/ 2 <= cols ->
      forall tree s',
        buildRandomGrowthTree next rows cols maxDirs s <> Ok (Some tree, s')).
Proof.
  split.
  - intros Hempty. unfold buildRandomGrowthTree.
    assert (Hnil : buildAllPoints rows cols = []).
    { destruct (buildAllPoints rows cols) as [|p ps] eqn:Hpts; [done|].
      assert (Hp : p ∈ buildAllPoints rows cols) by (rewrite Hpts; left).
      apply buildAllPoints_inBounds, inBounds_true in Hp. lia. }
    by rewrite Hnil.
  - intros Hmax Hbig tree s' H.
    pose proof (buildRandomGrowthTree_Spanning next _ _ _ _ _ _ H)
      as (Hroot & _ & _ & Hcount & _ & Hparent).
    pose proof Hroot as Hroot'. apply inBounds_true in Hroot'.
    assert (Hother : exists c, onGrid rows cols c /\ c <> root tree).
    { destruct (decide (pt_row (root tree) = 0 /\ pt_col (root tree) = 0)) as [[Hr Hc]|Hne].
      - destruct Hbig.
        + exists (mkPoint 1 0). split; [apply inBounds_true; simpl; lia|].
          intros Heq. rewrite <- Heq in Hr. discriminate.
        + exists (mkPoint 0 1). split; [apply inBounds_true; simpl; lia|].
          intros Heq. rewrite <- Heq in Hc. discriminate.
      - exists (mkPoint 0 0). split; [apply inBounds_true; simpl; lia|].
        intros Heq. apply Hne. by rewrite <- Heq. }
    destruct Hother as (c & Hc & Hne).
    destruct (Hparent c Hc Hne) as (p & Hp & Hin).
    destruct (Hcount p Hp) as [_ Hle].
    destruct (childrenOf tree p); [inversion Hin|]. simpl in Hle. lia.
Qed.

Lemma growth_tree_degenerate_witness :
  (0 <= 0 \/ 3 <= 0)
  /\ buildRandomGrowthTree (constNext (1 # 2)) 0 3 2 tt = Ok (None, tt).
Proof.
  assert (H : 0 <= 0 \/ 3 <= 0) by (left; lia).
  exact (conj H (proj1 (growth_tree_degenerate (constNext (1 # 2)) 0 3 2 tt) H)).
Defined.

(** ** The layout of a growth tree *)

Lemma neighbour_dirs row col rows cols dir :
  dir ∈ map n_dir (getNeighborEntries row col rows cols)
  <-> inBounds (row + (DIR_VECTORS dir).1) (col + (DIR_VECTORS dir).2) rows cols = true.
Proof.
  rewrite list_elem_of_fmap. split.
  - intros (entry & -> & Hentry).
    apply getNeighborEntries_elem in Hentry as (Hin & Hr & Hc & _). by rewrite <- Hr, <- Hc.
  - intros Hin.
    exists (mkEntry dir (row + (DIR_VECTORS dir).1) (col + (DIR_VECTORS dir).2)
              (coordKey (row + (DIR_VECTORS dir).1) (col + (DIR_VECTORS dir).2))).
    split; [done|]. by apply getNeighborEntries_elem.
Qed.

Lemma setAdd_length {A} `{EqDecision A} (s : list A) (x : A) :
  (length (setAdd s x) <= Datatypes.S (length s))%nat.
Proof.
  unfold setAdd. destruct (decide (x ∈ s)); [lia|]. rewrite length_app. simpl. lia.
Qed.

(** The directions of the children of a cell, as the [forEach] collects
    them. *)
Lemma childDirs_spec (point : Point) (children : list Point) :
  forall acc,
    NoDup acc ->
    let dirs := foldl (fun dirs child =>
                         match directionBetween point child with
                         | Some dir => setAdd dirs dir
                         | None => dirs
                         end) acc children in
    NoDup dirs
    /\ (forall dir, dir ∈ dirs <->
          dir ∈ acc \/ exists child, child ∈ children
                                     /\ directionBetween point child = Some dir)
    /\ (length dirs <= length acc + length children)%nat.
Proof.
  induction children as [|child children IH]; intros acc Hnd; simpl.
  - split; [done|]. split; [|lia]. intros dir. split; [by left|].
    intros [H|(c & Hc & _)]; [done|inversion Hc].
  - destruct (directionBetween point child) as [d|] eqn:Hd.
    + destruct (IH (setAdd acc d) (setAdd_NoDup _ _ Hnd)) as (H1 & H2 & H3).
      split; [done|]. split.
      * intros dir. rewrite H2, setAdd_elem. split.
        -- intros [[Hacc | ->] | (c & Hc & Hdir)]; [by left| |].
           ++ right. exists child. split; [left|done].
           ++ right. exists c. split; [by right|done].
        -- intros [Hacc | (c & Hc & Hdir)]; [by left; left|].
           apply elem_of_cons in Hc as [-> | Hc].
           ++ left. right. congruence.
           ++ right. eauto.
      * pose proof (setAdd_length acc d). lia.
    + destruct (IH acc Hnd) as (H1 & H2 & H3).
      split; [done|]. split; [|lia].
      intros dir. rewrite H2. split.
      * intros [Hacc | (c & Hc & Hdir)]; [by left|]. right. exists c. split; [by right|done].
      * intros [Hacc | (c & Hc & Hdir)]; [by left|].
        apply elem_of_cons in Hc as [-> | Hc]; [congruence|]. right. eauto.
Qed.

Lemma DirsOf_add tree config p dirs dir :
  DirsOf tree config p dirs ->
  dir ∈ map n_dir (getNeighborEntries (pt_row p) (pt_col p)
                     (cfg_rows config) (cfg_cols config)) ->
  Z.of_nat (length dirs) < maxDirs config \/ dirs = [] ->
  DirsOf tree config p (setAdd dirs dir).
Proof.
  intros (Hnd & Hchildren & Hin & Hlen) Hdir Hroom. apply neighbour_dirs in Hdir.
  split; [by apply setAdd_NoDup|]. split; [|split].
  - intros child d Hc Hd. apply setAdd_elem. left. by eapply Hchildren.
  - intros d Hd. apply setAdd_elem in Hd as [Hd | ->]; [by apply Hin|by right].
  - pose proof (setAdd_length dirs dir). destruct Hroom as [Hroom | ->]; [lia|].
    simpl in *. lia.
Qed.

Lemma DirsOf_perm tree config p dirs dirs' :
  dirs' ≡ₚ dirs -> DirsOf tree config p dirs -> DirsOf tree config p dirs'.
Proof.
  intros Hperm (Hnd & Hchildren & Hin & Hlen).
  split; [by rewrite Hperm|]. split; [|split].
  - intros child d Hc Hd. rewrite Hperm. by eapply Hchildren.
  - intros d Hd. rewrite Hperm in Hd. by apply Hin.
  - by rewrite Hperm.
Qed.

Lemma Forall2_points {B} (P : Point -> B -> Prop) (rowsL colsL : list Z)
    (yss : list (list B)) :
  Forall2 (fun r ys => Forall2 (fun c y => P (mkPoint r c) y) colsL ys) rowsL yss ->
  Forall2 P (r ← rowsL; c ← colsL; [mkPoint r c]) (List.concat yss).
Proof.
  induction 1 as [|r ys rowsL yss Hrow _ IH]; [constructor|].
  rewrite bind_cons. simpl. apply Forall2_app; [|done].
  clear IH. induction Hrow as [|c y colsL ys Hy _ IH]; [constructor|].
  rewrite bind_cons. simpl. by constructor.
Qed.

Section LayoutFacts.
Context {St : Type}.
Variable next : St -> Q * St.

Lemma Post_addRandom_cases dirs candidates :
  Post (addRandom next dirs candidates)
       (fun d => d = dirs \/ exists dir, dir ∈ candidates /\ d = setAdd dirs dir).
Proof.
  unfold addRandom. destruct candidates as [|c cs]; [apply Post_ret; by left|].
  eapply Post_bind; [apply Post_chooseRandom|].
  intros dir Hdir. apply Post_ret. right. by exists dir.
Qed.

Lemma Post_sparseCell_CellOf tree serial config row col :
  Post (sparseCell next tree serial config row col)
       (CellOf tree serial config (mkPoint row col)).
Proof.
  unfold sparseCell.
  pose proof (childDirs_spec (mkPoint row col)
                (default [] (childrenByKey tree !! coordKey row col)) [] (NoDup_nil_2))
    as (Hnd0 & Hin0 & Hlen0).
  set (dirs0 := foldl _ [] _) in *.
  assert (H0 : DirsOf tree config (mkPoint row col) dirs0).
  { split; [done|]. split; [|split].
    - intros child dir Hc Hd. apply Hin0. right. eauto.
    - intros dir Hd. apply Hin0 in Hd as [Hd|Hd]; [inversion Hd|by left].
    - unfold childrenOf, keyOf. simpl in *. lia. }
  eapply Post_bind with (P := DirsOf tree config (mkPoint row col)).
  { destruct (_ <? maxDirs config) eqn:Hroom; [|by apply Post_ret].
    apply Z.ltb_lt in Hroom.
    post_skip. intros r _. destruct (Qlt_le_dec _ _); [|by apply Post_ret].
    eapply Post_weaken; [apply Post_addRandom_cases|].
    intros d [-> | (dir & Hdir & ->)]; [done|].
    apply list_elem_of_filter in Hdir as [_ Hdir]. apply DirsOf_add; [done..|by left]. }
  intros dirs1 H1.
  eapply Post_bind with (P := DirsOf tree config (mkPoint row col)).
  { destruct (length dirs1 =? 0)%nat eqn:Hlen; [|by apply Post_ret].
    apply Nat.eqb_eq, length_zero_iff_nil in Hlen.
    post_skip. intros r _. destruct (Qlt_le_dec _ _); [|by apply Post_ret].
    eapply Post_weaken; [apply Post_addRandom_cases|].
    intros d [-> | (dir & Hdir & ->)]; [done|]. apply DirsOf_add; [done..|by right]. }
  intros dirs2 H2.
  eapply Post_bind with (P := DirsOf tree config (mkPoint row col)).
  { destruct (length dirs2 =? 0)%nat eqn:Hlen; [|by apply Post_ret].
    apply Nat.eqb_eq, length_zero_iff_nil in Hlen.
    eapply Post_weaken; [apply Post_addRandom_cases|].
    intros d [-> | (dir & Hdir & ->)]; [done|]. apply DirsOf_add; [done..|by right]. }
  intros dirs3 H3.
  eapply Post_bind; [apply Post_shuffleFrom_perm|].
  intros shuffled Hperm. apply Post_ret.
  split; [done|]. split; [done|]. split; [done|].
  exact (DirsOf_perm _ _ _ _ _ Hperm H3).
Qed.

Lemma Post_traverseGen_Forall2 {A B} (f : A -> Gen St B) (P : A -> B -> Prop)
    (l : list A) :
  (forall x, x ∈ l -> Post (f x) (P x)) -> Post (traverseGen f l) (Forall2 P l).
Proof.
  induction l as [|x l IH]; intros Hf; simpl.
  - apply Post_ret. constructor.
  - eapply Post_bind; [apply Hf; left|]. intros y Hy.
    eapply Post_bind; [apply IH; intros z Hz; apply Hf; by right|]. intros ys Hys.
    apply Post_ret. by constructor.
Qed.

Lemma Post_createSparseBlocksFromTree_cells tree serial config :
  Post (createSparseBlocksFromTree next tree serial config)
       (Forall2 (CellOf tree serial config)
                (buildAllPoints (cfg_rows config) (cfg_cols config))).
Proof.
  unfold createSparseBlocksFromTree.
  eapply Post_bind.
  - apply Post_traverseGen_Forall2 with
      (P := fun row bs =>
              Forall2 (fun col b => CellOf tree serial config (mkPoint row col) b)
                      (seqZ 0 (cfg_cols config)) bs).
    intros row _. apply Post_traverseGen_Forall2.
    intros col _. apply Post_sparseCell_CellOf.
  - intros rowsOfBlocks H. apply Post_ret. unfold buildAllPoints.
    by apply Forall2_points.
Qed.

End LayoutFacts.

Lemma blockId_nonempty serial row col : blockId serial row col <> "".
Proof. unfold blockId. simpl. discriminate. Qed.

Lemma cells_block_of tree serial config rows cols blocks p :
  Forall2 (CellOf tree serial config) (buildAllPoints rows cols) blocks ->
  onGrid rows cols p ->
  exists b, b ∈ blocks /\ CellOf tree serial config p b.
Proof.
  intros Hcells Hp. apply buildAllPoints_elem, list_elem_of_lookup in Hp as [i Hi].
  destruct (Forall2_lookup_l _ _ _ _ _ Hcells Hi) as (b & Hb & Hcell).
  exists b. split; [by eapply list_elem_of_lookup_2|done].
Qed.

Lemma cells_cell_of tree serial config rows cols blocks b :
  Forall2 (CellOf tree serial config) (buildAllPoints rows cols) blocks ->
  b ∈ blocks ->
  exists p, onGrid rows cols p /\ CellOf tree serial config p b.
Proof.
  intros Hcells Hb. apply list_elem_of_lookup in Hb as [i Hi].
  destruct (Forall2_lookup_r _ _ _ _ _ Hcells Hi) as (p & Hp & Hcell).
  exists p. split; [|done]. by eapply buildAllPoints_elem, list_elem_of_lookup_2.
Qed.

Lemma cells_ids tree serial config points blocks :
  Forall2 (CellOf tree serial config) points blocks ->
  map b_id blocks = map (fun p => blockId serial (pt_row p) (pt_col p)) points
  /\ map (fun b => (b_row b, b_col b)) blocks = map (fun p => (pt_row p, pt_col p)) points.
Proof.
  induction 1 as [|p b points blocks (Hid & Hr & Hc & _) _ [IH1 IH2]]; [done|].
  simpl. by rewrite Hid, Hr, Hc, IH1, IH2.
Qed.

Lemma grid_wellFormed serial rows cols blocks :
  map b_id blocks
  = map (fun p => blockId serial (pt_row p) (pt_col p)) (buildAllPoints rows cols) ->
  map (fun b => (b_row b, b_col b)) blocks
  = map (fun p => (pt_row p, pt_col p)) (buildAllPoints rows cols) ->
  wellFormed blocks.
Proof.
  intros Hids Hpos. split.
  - rewrite Hids. apply (NoDup_fmap_2_strong _); [|apply buildAllPoints_NoDup].
    intros p q Hp Hq Heq.
    apply buildAllPoints_elem, inBounds_true in Hp.
    apply buildAllPoints_elem, inBounds_true in Hq.
    apply blockId_same_serial in Heq as [Hr Hc]; [|lia..].
    destruct p, q. simpl in *. congruence.
  - rewrite Hpos. apply (NoDup_fmap_2_strong _); [|apply buildAllPoints_NoDup].
    intros p q _ _ [= Hr Hc]. destruct p, q. simpl in *. congruence.
Qed.

Lemma cells_wellFormed tree serial config rows cols blocks :
  Forall2 (CellOf tree serial config) (buildAllPoints rows cols) blocks ->
  wellFormed blocks.
Proof.
  intros Hcells. destruct (cells_ids _ _ _ _ _ Hcells) as [Hids Hpos].
  by eapply grid_wellFormed.
Qed.

Lemma cells_standing tree serial config rows cols blocks b :
  Forall2 (CellOf tree serial config) (buildAllPoints rows cols) blocks ->
  b ∈ blocks ->
  b_id b <> "" /\ inBounds (b_row b) (b_col b) rows cols = true.
Proof.
  intros Hcells Hb.
  destruct (cells_cell_of _ _ _ _ _ _ _ Hcells Hb) as (p & Hp & Hid & Hr & Hc & _).
  rewrite Hid, Hr, Hc. split; [apply blockId_nonempty|done].
Qed.

(** X16: the layout that [createSparseBlocksFromTree] returns lists one
    block per cell of the grid in row-major order; the block of the cell
    [(row, col)] has the id [arrow-serial-row-col], stands at the cell, has
    no arrow twice, has an arrow towards each child of the cell in the tree,
    and its other arrows point at neighbouring cells of the grid.  So ids and
    cells are unique, no id is empty and every block stands inside the
    grid. *)
Theorem sparse_layout_cells {St} (next : St -> Q * St) tree serial config s blocks s' :
  createSparseBlocksFromTree next tree serial config s = Ok (blocks, s') ->
  Forall2 (CellOf tree serial config)
          (buildAllPoints (cfg_rows config) (cfg_cols config)) blocks
  /\ wellFormed blocks
  /\ (forall b, b ∈ blocks ->
        b_id b <> ""
        /\ inBounds (b_row b) (b_col b) (cfg_rows config) (cfg_cols config) = true)
  /\ length blocks = (Z.to_nat (cfg_rows config) * Z.to_nat (cfg_cols config))%nat.
Proof.
  intros H. apply Post_createSparseBlocksFromTree_cells in H.
  split; [done|]. split; [by eapply cells_wellFormed|]. split.
  - intros b Hb. by eapply cells_standing.
  - rewrite <- (Forall2_length _ _ _ H). unfold buildAllPoints.
    rewrite (bind_length_uniform _ _ (Z.to_nat (cfg_cols config))), length_seqZ; [done|].
    intros r _. rewrite (bind_length_uniform _ _ 1%nat), length_seqZ; [lia|done].
Qed.

Lemma sparse_layout_cells_witness :
  let tree := mkTree (mkPoint 0 0) (∅ : gmap string (list Point)) in
  let config := mkConfig 2 3 2 (1 # 2) (1 # 2) in
  exists blocks s',
    createSparseBlocksFromTree (constNext (1 # 4)) tree 1 config tt = Ok (blocks, s')
    /\ wellFormed blocks
    /\ length blocks = 6%nat.
Proof.
  intros tree config.
  eassert (H : createSparseBlocksFromTree (constNext (1 # 4)) tree 1 config tt
               = Ok (_, _)) by (vm_compute; reflexivity).
  eexists _, _. split; [exact H|].
  pose proof (sparse_layout_cells (constNext (1 # 4)) tree 1 config tt _ _ H)
    as (_ & Hwf & _ & Hlen).
  split; [exact Hwf|exact Hlen].
Defined.

(** The block of the root clears the layout of a spanning tree: every cell
    is under the root, and a block hits the block of each of its children in
    the first cell of the arrow towards it. *)
Lemma cells_solved tree serial config blocks :
  Spanning (cfg_rows config) (cfg_cols config) (maxDirs config) tree ->
  Forall2 (CellOf tree serial config)
          (buildAllPoints (cfg_rows config) (cfg_cols config)) blocks ->
  Solved blocks (blockId serial (pt_row (root tree)) (pt_col (root tree)))
         (cfg_rows config) (cfg_cols config).
Proof.
  intros (Hroot & Hreach & Hedge & _) Hcells.
  pose proof (cells_wellFormed _ _ _ _ _ _ Hcells) as Hwf.
  set (rows := cfg_rows config) in *. set (cols := cfg_cols config) in *.
  set (startId := blockId serial (pt_row (root tree)) (pt_col (root tree))).
  destruct (simulateAttempt_total blocks startId rows cols) as [r Hr].
  exists r. split; [done|].
  destruct (simulateAttempt_HitsClosed blocks startId rows cols r Hwf) as
    (st & -> & Hinv & Hclosed & Hexit); [|done|].
  { intros b Hb. by eapply cells_standing. }
  assert (Hunder : forall p, Reaches (childrenByKey tree) (root tree) p ->
            onGrid rows cols p
            /\ blockId serial (pt_row p) (pt_col p) ∈ vanished (sim_waves st)).
  { intros p Hp. induction Hp as [|p c cs _ [Hp IH] Hcs Hc].
    - split; [done|]. apply (start_vanishes blocks startId rows cols); [done..|].
      destruct (cells_block_of _ _ _ _ _ _ _ Hcells Hroot) as (b & Hb & Hid & _).
      apply list_elem_of_fmap. exists b. by rewrite Hid.
    - assert (Hc' : c ∈ childrenOf tree p) by (unfold childrenOf; by rewrite Hcs).
      destruct (Hedge p c Hp Hc') as (Hcgrid & _ & dir & Hdir).
      split; [done|].
      destruct (cells_block_of _ _ _ _ _ _ _ Hcells Hp)
        as (bp & Hbp & Hidp & Hrp & Hcp & _ & Hchildren & _).
      destruct (cells_block_of _ _ _ _ _ _ _ Hcells Hcgrid)
        as (bc & Hbc & Hidc & Hrc & Hcc & _).
      rewrite <- Hidc.
      apply (exit_closed blocks startId rows cols st bp bc); [done..| |by rewrite Hidp].
      exists dir. split; [by eapply Hchildren|].
      apply directionBetween_Some in Hdir as [Hstep1 Hstep2].
      rewrite Hrp, Hcp, Hrc, Hcc. done. }
  destruct Hinv as [Hrun _].
  apply (success_iff_all_vanished blocks rows cols st Hrun).
  intros id Hid. apply list_elem_of_fmap in Hid as (b & -> & Hb).
  destruct (cells_cell_of _ _ _ _ _ _ _ Hcells Hb) as (p & Hp & Hidp & _).
  rewrite Hidp. by apply Hunder, Hreach.
Qed.

Lemma cells_arrows tree serial config blocks b :
  Spanning (cfg_rows config) (cfg_cols config) (maxDirs config) tree ->
  Forall2 (CellOf tree serial config)
          (buildAllPoints (cfg_rows config) (cfg_cols config)) blocks ->
  b ∈ blocks ->
  NoDup (b_dirs b)
  /\ (forall dir, dir ∈ b_dirs b ->
        inBounds (b_row b + (DIR_VECTORS dir).1) (b_col b + (DIR_VECTORS dir).2)
                 (cfg_rows config) (cfg_cols config) = true)
  /\ Z.of_nat (length (b_dirs b)) <= Z.max 1 (maxDirs config).
Proof.
  intros (_ & _ & Hedge & Hcount & _) Hcells Hb.
  destruct (cells_cell_of _ _ _ _ _ _ _ Hcells Hb)
    as (p & Hp & _ & Hr & Hc & Hnd & _ & Hin & Hlen).
  split; [done|]. split.
  - intros dir Hdir. rewrite Hr, Hc.
    destruct (Hin dir Hdir) as [(child & Hchild & Hd)|Hn]; [|done].
    destruct (Hedge p child Hp Hchild) as (Hgrid & _).
    apply directionBetween_Some in Hd as [Hr' Hc']. by rewrite <- Hr', <- Hc'.
  - destruct (Hcount p Hp) as [_ Hle]. lia.
Qed.

(** X17: the layout built from a spanning tree is cleared from the root.
    When the tree spans the grid of the configuration, the attempt started
    at the block of the root clears the layout that
    [createSparseBlocksFromTree] returns; every arrow of the layout points at
    a cell of the grid, and no block has more than [max(1, maxDirs)]
    arrows. *)
Theorem spanning_layout_solved {St} (next : St -> Q * St)
    tree serial config s blocks s' :
  Spanning (cfg_rows config) (cfg_cols config) (maxDirs config) tree ->
  createSparseBlocksFromTree next tree serial config s = Ok (blocks, s') ->
  Solved blocks (blockId serial (pt_row (root tree)) (pt_col (root tree)))
         (cfg_rows config) (cfg_cols config)
  /\ (forall b dir, b ∈ blocks -> dir ∈ b_dirs b ->
        inBounds (b_row b + (DIR_VECTORS dir).1) (b_col b + (DIR_VECTORS dir).2)
                 (cfg_rows config) (cfg_cols config) = true)
  /\ (forall b, b ∈ blocks -> Z.of_nat (length (b_dirs b)) <= Z.max 1 (maxDirs config)).
Proof.
  intros Hspan H.
  apply Post_createSparseBlocksFromTree_cells in H as Hcells.
  split; [by apply cells_solved|]. split.
  - intros b dir Hb Hdir.
    destruct (cells_arrows _ _ _ _ _ Hspan Hcells Hb) as (_ & Hin & _). by apply Hin.
  - intros b Hb.
    by destruct (cells_arrows _ _ _ _ _ Hspan Hcells Hb) as (_ & _ & Hlen).
Qed.

Lemma spanning_layout_solved_witness :
  let config := mkConfig 3 3 2 (12 # 100) (84 # 100) in
  exists tree s1 blocks s2,
    buildRandomGrowthTree seededNext 3 3 2 (createSeededRandom 7) = Ok (Some tree, s1)
    /\ createSparseBlocksFromTree seededNext tree 1 config s1 = Ok (blocks, s2)
    /\ Solved blocks (blockId 1 (pt_row (root tree)) (pt_col (root tree))) 3 3.
Proof.
  intros config.
  eassert (Ht : buildRandomGrowthTree seededNext 3 3 2 (createSeededRandom 7)
                = Ok (Some _, _)) by (vm_compute; reflexivity).
  match type of Ht with
  | _ = Ok (Some ?tree, ?s1) =>
      eassert (Hb : createSparseBlocksFromTree seededNext tree 1 config s1 = Ok (_, _))
        by (vm_compute; reflexivity)
  end.
  eexists _, _, _, _. split; [exact Ht|]. split; [exact Hb|].
  exact (proj1 (spanning_layout_solved seededNext _ 1 config _ _ _
                  (buildRandomGrowthTree_Spanning seededNext _ _ _ _ _ _ Ht) Hb)).
Defined.

(** ** The scan for winning starts *)

Lemma wins_success all rows cols block r :
  simulateAttempt all (b_id block) rows cols = Ok r -> wins all rows cols block = success r.
Proof. intros H. unfold wins. by rewrite H. Qed.

(** The loop of [collectWinningStarts] with [winners] already pushed and
    room for more: it pushes the winners among [rest] until the result has
    [max 1 stopAfter] ids. *)
Lemma scanWinners_take all rows cols stopAfter rest :
  forall winners,
    (length winners < Nat.max 1 stopAfter)%nat ->
    scanWinners all rest rows cols stopAfter winners
    = Ok (winners
          ++ take (Nat.max 1 stopAfter - length winners)
                  (map b_id (filter (fun block => wins all rows cols block = true) rest))).
Proof.
  induction rest as [|block rest IH]; intros winners Hroom; simpl.
  - by rewrite take_nil, app_nil_r.
  - destruct (simulateAttempt_total all (b_id block) rows cols) as [r Hr].
    rewrite Hr. simpl. rewrite filter_cons, (wins_success _ _ _ _ _ Hr).
    destruct (success r); simpl.
    + rewrite length_app. simpl.
      destruct (stopAfter <=? length winners + 1)%nat eqn:Hstop.
      * apply Nat.leb_le in Hstop.
        replace (Nat.max 1 stopAfter - length winners)%nat with 1%nat by lia.
        simpl. by rewrite take_0.
      * apply Nat.leb_gt in Hstop. rewrite IH by (rewrite length_app; simpl; lia).
        rewrite length_app. simpl.
        replace (Nat.max 1 stopAfter - length winners)%nat
          with (Datatypes.S (Nat.max 1 stopAfter - (length winners + 1))) by lia.
        simpl. by rewrite <- app_assoc.
    + by apply IH.
Qed.

(** X18: [collectWinningStarts] returns the ids of the first
    [max(1, stopAfter)] blocks of the layout whose activation clears it, in
    layout order: never more than that many, all the winners when there are
    fewer, and no id exactly when no block wins. *)
Theorem collectWinningStarts_first_winners blocks rows cols stopAfter :
  exists ws,
    collectWinningStarts blocks rows cols stopAfter = Ok ws
    /\ ws = take (Nat.max 1 stopAfter) (map b_id (winnersOf blocks rows cols))
    /\ (length ws <= Nat.max 1 stopAfter)%nat
    /\ ((length ws < Nat.max 1 stopAfter)%nat ->
        ws = map b_id (winnersOf blocks rows cols))
    /\ (ws = [] <-> winnersOf blocks rows cols = []).
Proof.
  eexists. split.
  { unfold collectWinningStarts. rewrite scanWinners_take by (simpl; lia).
    simpl. by rewrite Nat.sub_0_r. }
  fold (winnersOf blocks rows cols).
  split; [done|]. split; [|split].
  - rewrite length_take. lia.
  - intros Hlen. rewrite length_take in Hlen. apply take_ge. lia.
  - destruct (winnersOf blocks rows cols) as [|w ws]; [by destruct (Nat.max 1 stopAfter)|].
    destruct (Nat.max 1 stopAfter) as [|n] eqn:Hmax; [lia|]. simpl. split; discriminate.
Qed.

(** ** The search loop and its fallback *)

Lemma FromTree_solved serial config blocks startId :
  FromTree serial config blocks startId ->
  Solved blocks startId (cfg_rows config) (cfg_cols config)
  /\ exists b, b ∈ blocks /\ b_id b = startId.
Proof.
  intros (tree & Hspan & Hcells & ->). split; [by apply cells_solved|].
  destruct Hspan as (Hroot & _).
  destruct (cells_block_of _ _ _ _ _ _ _ Hcells Hroot) as (b & Hb & Hid & _). eauto.
Qed.

Lemma FromTree_winner serial config blocks startId :
  FromTree serial config blocks startId ->
  (1 <= length (winnersOf blocks (cfg_rows config) (cfg_cols config)))%nat.
Proof.
  intros H. destruct (FromTree_solved _ _ _ _ H) as [(r & Hr & Hs) (b & Hb & Hid)].
  assert (Hin : b ∈ winnersOf blocks (cfg_rows config) (cfg_cols config)).
  { apply list_elem_of_filter. split; [|done]. unfold wins. by rewrite Hid, Hr. }
  destruct (winnersOf _ _ _); [inversion Hin|simpl; lia].
Qed.

Section KeptFacts.
Context {St : Type}.
Variable next : St -> Q * St.

Lemma Post_attemptOnce_kept serial config fallback :
  FallbackKept serial config fallback ->
  Post (attemptOnce next serial config fallback) (AttemptKept serial config fallback).
Proof.
  intros Hfb. unfold attemptOnce.
  eapply Post_bind with
    (P := fun t => forall tree, t = Some tree ->
                     Spanning (cfg_rows config) (cfg_cols config) (maxDirs config) tree).
  { intros s t s' H tree ->. by eapply buildRandomGrowthTree_Spanning. }
  intros [tree|] Htree; [|by apply Post_ret].
  specialize (Htree tree eq_refl).
  eapply Post_bind; [apply Post_createSparseBlocksFromTree_cells|]. intros blocks Hcells.
  assert (Hfrom : FromTree serial config blocks
                    (blockId serial (pt_row (root tree)) (pt_col (root tree)))).
  { by exists tree. }
  eapply Post_bind; [apply Post_liftRes; intros a Ha; exact Ha|].
  intros rootValidation Hroot. simpl in Hroot.
  destruct (FromTree_solved _ _ _ _ Hfrom) as [(r & Hr & Hs) _].
  assert (r = rootValidation) as -> by congruence. rewrite Hs. simpl.
  eapply Post_bind; [apply Post_liftRes; intros a Ha; exact Ha|].
  intros winners Hwinners. simpl in Hwinners.
  unfold collectWinningStarts in Hwinners.
  rewrite scanWinners_take in Hwinners by (simpl; lia).
  injection Hwinners as Hwinners. simpl in Hwinners.
  fold (winnersOf blocks (cfg_rows config) (cfg_cols config)) in Hwinners.
  pose proof (FromTree_winner _ _ _ _ Hfrom) as Hone.
  assert (Hlen : length winners
                 = Nat.min 3 (length (winnersOf blocks (cfg_rows config) (cfg_cols config)))).
  { rewrite <- Hwinners. by rewrite length_take, length_map. }
  destruct (length winners <=? TARGET_MAX_WINNERS)%nat eqn:Hcount.
  - apply Nat.leb_le in Hcount. unfold TARGET_MAX_WINNERS in *.
    apply Post_ret. split; [done|]. unfold TARGET_MAX_WINNERS. lia.
  - apply Nat.leb_gt in Hcount. unfold TARGET_MAX_WINNERS in *.
    apply Post_ret. destruct fallback as [fb|].
    + destruct Hfb as (Hfb1 & Hfb2 & Hfb3). rewrite Hfb2.
      unfold WINNER_SCAN_STOP, TARGET_MAX_WINNERS.
      destruct (length winners <? 2 + 1)%nat eqn:Hlt.
      { apply Nat.ltb_lt in Hlt. lia. }
      split; [done|]. by intros fb' [= ->].
    + split; [|done]. simpl. split; [done|].
      unfold WINNER_SCAN_STOP, TARGET_MAX_WINNERS. lia.
Qed.

Lemma Post_searchLoop_kept serial config n :
  forall fallback,
    FallbackKept serial config fallback ->
    Post (searchLoop next n serial config fallback) (AttemptKept serial config fallback).
Proof.
  induction n as [|n IH]; intros fallback Hfb; simpl.
  - by apply Post_ret.
  - eapply Post_bind; [by apply Post_attemptOnce_kept|].
    intros [fallback'|blocks startId] Ha.
    + destruct Ha as [Hkept Hsame].
      eapply Post_weaken; [by apply IH|].
      intros [after|blocks startId] Hafter; [|done].
      destruct Hafter as [Hkept' Hsame']. split; [done|].
      intros fb Heq. by apply Hsame', Hsame.
    + by apply Post_ret.
Qed.

End KeptFacts.

(** X23: the check of the root validation never sends the loop of
    [createPuzzle] to its next iteration.  An iteration that starts without
    a fallback ends without a layout exactly when
    [buildRandomGrowthTree] returned null: once a tree is built, the layout
    is cleared from the block of its root, so it is accepted or recorded as
    the fallback. *)
Theorem iteration_fails_without_tree {St} (next : St -> Q * St) serial config s s' :
  attemptOnce next serial config None s = Ok (Retry None, s')
  <-> buildRandomGrowthTree next (cfg_rows config) (cfg_cols config) (maxDirs config) s
      = Ok (None, s').
Proof.
  unfold attemptOnce. split.
  - intros H. apply gen_bind_Ok in H as ([tree|] & s1 & Ht & H).
    2:{ by injection H as <-. }
    exfalso. apply buildRandomGrowthTree_Spanning in Ht as Hspan.
    apply gen_bind_Ok in H as (blocks & s2 & Hb & H).
    apply Post_createSparseBlocksFromTree_cells in Hb.
    destruct (cells_solved _ _ _ _ Hspan Hb) as (r & Hr & Hs).
    apply gen_bind_Ok in H as (rootValidation & s3 & Hroot & H).
    unfold liftRes in Hroot. rewrite Hr in Hroot. simpl in Hroot.
    injection Hroot as <- <-. rewrite Hs in H. simpl in H.
    apply gen_bind_Ok in H as (winners & s4 & _ & H).
    destruct (length winners <=? TARGET_MAX_WINNERS)%nat; discriminate.
  - intros H. unfold mbind, Gen_bind. by rewrite H.
Qed.

(** X19: what the search loop of [createPuzzle] ends with.  A layout it
    accepts is cleared from its start and has one or two winning starts.  A
    fallback it records is cleared from its start, has at least
    [WINNER_SCAN_STOP] winning starts and the winner count
    [WINNER_SCAN_STOP]; so a recorded fallback is never replaced: a loop that
    starts with such a fallback and does not accept a layout ends with the
    same fallback. *)
Theorem search_loop_outcome {St} (next : St -> Q * St) serial config n s a s' :
  searchLoop next n serial config None s = Ok (a, s') ->
  match a with
  | Accept blocks startId =>
      Solved blocks startId (cfg_rows config) (cfg_cols config)
      /\ (1 <= length (winnersOf blocks (cfg_rows config) (cfg_cols config)) <= 2)%nat
  | Retry (Some fb) =>
      Solved (f_blocks fb) (f_solutionStartId fb) (cfg_rows config) (cfg_cols config)
      /\ f_winnerCount fb = 3%nat
      /\ (3 <= length (winnersOf (f_blocks fb) (cfg_rows config) (cfg_cols config)))%nat
      /\ forall m s1 after s2,
           searchLoop next m serial config (Some fb) s1 = Ok (Retry after, s2) ->
           after = Some fb
  | Retry None => True
  end.
Proof.
  intros H. apply (Post_searchLoop_kept next serial config n None I) in H.
  destruct a as [[fb|]|blocks startId]; [|done|].
  - destruct H as [Hkept _]. pose proof Hkept as (Hfrom & Hcount & Hwinners).
    split; [by apply (FromTree_solved serial)|]. split; [done|]. split; [done|].
    intros m s1 after s2 Hloop.
    apply (Post_searchLoop_kept next serial config m (Some fb) Hkept) in Hloop.
    destruct Hloop as [_ Hsame]. by apply Hsame.
  - destruct H as [Hfrom Hwinners]. split; [by apply (FromTree_solved serial)|done].
Qed.

Lemma search_loop_outcome_witness :
  let config := mkConfig 3 3 2 (12 # 100) (84 # 100) in
  exists fb s',
    searchLoop seededNext 1 1 config None (createSeededRandom 1)
    = Ok (Retry (Some fb), s')
    /\ Solved (f_blocks fb) (f_solutionStartId fb) 3 3
    /\ f_winnerCount fb = 3%nat.
Proof.
  intros config.
  eassert (H : searchLoop seededNext 1 1 config None (createSeededRandom 1)
               = Ok (Retry (Some _), _)) by (vm_compute; reflexivity).
  eexists _, _. split; [exact H|].
  pose proof (search_loop_outcome seededNext 1 config 1 _ _ _ H) as (Hs & Hc & _).
  split; [exact Hs|exact Hc].
Defined.

(** ** The shape of the puzzles of [createPuzzle] *)

Lemma FromTree_grid serial config blocks startId :
  maxDirs config <= 2 ->
  FromTree serial config blocks startId ->
  GridLayout serial (cfg_rows config) (cfg_cols config) blocks
  /\ startId ∈ map b_id blocks.
Proof.
  intros Hmax Hfrom. pose proof Hfrom as (tree & Hspan & Hcells & _).
  destruct (cells_ids _ _ _ _ _ Hcells) as [Hids Hpos].
  split.
  - split; [done|]. split; [done|]. intros b Hb.
    destruct (cells_arrows _ _ _ _ _ Hspan Hcells Hb) as (Hnd & Hin & Hlen).
    split; [done|]. split; [lia|done].
  - destruct (FromTree_solved _ _ _ _ Hfrom) as [_ (b & Hb & <-)].
    apply list_elem_of_fmap. eauto.
Qed.

Lemma basicBlocks_grid serial config blocks :
  basicBlocks serial config = Ok blocks ->
  GridLayout serial (cfg_rows config) (cfg_cols config) blocks.
Proof.
  intros H. apply traverse_Forall2 in H.
  assert (Hcells :
    Forall2 (fun p b =>
               b_id b = blockId serial (pt_row p) (pt_col p)
               /\ b_row b = pt_row p /\ b_col b = pt_col p
               /\ exists dir, b_dirs b = [dir]
                    /\ inBounds (pt_row p + (DIR_VECTORS dir).1)
                                (pt_col p + (DIR_VECTORS dir).2)
                                (cfg_rows config) (cfg_cols config) = true)
            (buildAllPoints (cfg_rows config) (cfg_cols config)) blocks).
  { eapply Forall2_impl; [exact H|]. intros p b Hb. simpl in Hb.
    apply res_bind_Ok in Hb as (dir & Hdir & [= <-]). simpl.
    split; [done|]. split; [done|]. split; [done|]. exists dir. split; [done|].
    unfold runWith in Hdir. apply res_bind_Ok in Hdir as ([d s'] & Hd & [= <-]).
    apply Post_chooseRandom in Hd. by apply neighbour_dirs in Hd. }
  clear H. split; [|split].
  - induction Hcells as [|p b ps bs (Hid & _) _ IH]; [done|]. simpl. by rewrite Hid, IH.
  - induction Hcells as [|p b ps bs (_ & Hr & Hc & _) _ IH]; [done|].
    simpl. by rewrite Hr, Hc, IH.
  - intros b Hb. apply list_elem_of_lookup in Hb as [i Hi].
    destruct (Forall2_lookup_r _ _ _ _ _ Hcells Hi)
      as (p & _ & _ & Hr & Hc & dir & Hdirs & Hin).
    rewrite Hdirs, Hr, Hc. split; [apply NoDup_singleton|]. split; [simpl; lia|].
    intros d Hd. by apply list_elem_of_singleton in Hd as ->.
Qed.

Lemma config_maxDirs difficulty : maxDirs (DIFFICULTY_CONFIGS difficulty) <= 2.
Proof. by destruct difficulty. Qed.

Lemma Post_createPuzzleVia_grid {St} (next : St -> Q * St) difficulty serial :
  Post (createPuzzleVia next difficulty serial)
       (fun via =>
          p_serial via.2 = serial
          /\ GridLayout serial (p_rows via.2) (p_cols via.2) (initialBlocks via.2)
          /\ solutionStartId via.2 ∈ map b_id (initialBlocks via.2)).
Proof.
  unfold createPuzzleVia.
  eapply Post_bind; [by apply (Post_searchLoop_kept next serial _ _ None)|].
  intros [[fb|]|blocks startId] Ha.
  - apply Post_ret. simpl. destruct Ha as [(Hfrom & _) _].
    split; [done|]. by apply FromTree_grid; [apply config_maxDirs|].
  - apply Post_liftRes. intros via Hvia.
    unfold degradedPuzzle in Hvia. pose proof (emergencyTree_null difficulty) as Htree.
    simpl in Htree. unfold mbind, Res_bind in Hvia. rewrite Htree in Hvia. simpl in Hvia.
    apply res_bind_Ok in Hvia as (blocks & Hblocks & Hvia).
    destruct blocks as [|first rest]; [discriminate|]. injection Hvia as <-. simpl.
    split; [done|]. split; [by apply basicBlocks_grid|left].
  - apply Post_ret. simpl. destruct Ha as [Hfrom _].
    split; [done|]. by apply FromTree_grid; [apply config_maxDirs|].
Qed.

(** X20: the shape of every puzzle of [createPuzzle], whatever the path it
    returns through.  The puzzle carries the serial it was asked for; its
    layout has one block per cell of the grid, in row-major order, the block
    of the cell [(row, col)] with the id [arrow-serial-row-col]; so ids and
    cells are unique.  No block has an arrow twice or more than two arrows,
    every arrow points at a cell of the grid, and [solutionStartId] is the id
    of a block of the layout. *)
Theorem createPuzzle_layout_shape {St} (next : St -> Q * St) difficulty serial s p s' :
  createPuzzle next difficulty serial s = Ok (p, s') ->
  p_serial p = serial
  /\ GridLayout serial (p_rows p) (p_cols p) (initialBlocks p)
  /\ wellFormed (initialBlocks p)
  /\ solutionStartId p ∈ map b_id (initialBlocks p)
  /\ length (initialBlocks p) = (Z.to_nat (p_rows p) * Z.to_nat (p_cols p))%nat.
Proof.
  intros H. unfold createPuzzle in H.
  apply gen_bind_Ok in H as (via & s1 & Hvia & [= <- <-]).
  apply Post_createPuzzleVia_grid in Hvia as (Hserial & Hgrid & Hstart).
  split; [done|]. split; [done|]. pose proof Hgrid as (Hids & Hpos & _).
  split; [by eapply grid_wellFormed|]. split; [done|].
  rewrite <- (length_map b_id), Hids, length_map. unfold buildAllPoints.
  rewrite (bind_length_uniform _ _ (Z.to_nat (p_cols via.2))), length_seqZ; [done|].
  intros r _. rewrite (bind_length_uniform _ _ 1%nat), length_seqZ; [lia|done].
Qed.

Lemma createPuzzle_layout_shape_witness :
  exists p s',
    createPuzzle seededNext easy 1 (createSeededRandom 1573) = Ok (p, s')
    /\ wellFormed (initialBlocks p)
    /\ solutionStartId p ∈ map b_id (initialBlocks p)
    /\ length (initialBlocks p) = 25%nat.
Proof.
  eassert (H : createPuzzle seededNext easy 1 (createSeededRandom 1573) = Ok (_, _))
    by (vm_compute; reflexivity).
  eexists _, _. split; [exact H|].
  pose proof (createPuzzle_layout_shape seededNext easy 1 _ _ _ H)
    as (_ & _ & Hwf & Hstart & Hlen).
  split; [exact Hwf|]. split; [exact Hstart|exact Hlen].
Defined.

(** ** The session *)

Lemma known_start_has_wave blocks startId rows cols :
  startId ∈ map b_id blocks ->
  exists r, simulateAttempt blocks startId rows cols = Ok r /\ waves r <> [].
Proof.
  intros Hstart. destruct (simulateAttempt_total blocks startId rows cols) as [r Hr].
  exists r. split; [done|].
  destruct (simulateAttempt_SimInv _ _ _ _ _ Hr) as (st & -> & Hinv & Hexit).
  destruct (first_wave_start _ _ _ _ _ Hinv Hexit Hstart) as (w & post & Hws & _).
  simpl. by rewrite Hws.
Qed.

Lemma playAttempt_known_start s startId :
  controlsLocked s = false ->
  startId ∈ map b_id (blocks s) ->
  playAttempt s startId
  = Ok (mkSession (puzzle s) (blocks s) (attempts s + 1) animating None
                  [] [] [] false None (animationRun s + 1)).
Proof.
  intros Hfree Hstart. unfold playAttempt. rewrite Hfree.
  destruct (blocks s) as [|b bs] eqn:Hbs; [inversion Hstart|]. rewrite <- Hbs in *.
  replace (length (blocks s) =? 0)%nat with false by (by rewrite Hbs).
  simpl.
  destruct (existsb _ (blocks s)) eqn:Hex.
  2:{ by apply existsb_id_false in Hex. }
  simpl.
  destruct (known_start_has_wave (blocks s) startId (p_rows (puzzle s)) (p_cols (puzzle s))
              Hstart) as (r & -> & Hwaves).
  simpl. by destruct (waves r).
Qed.

(** X21: a click on a block of the board while the controls are free
    always starts an attempt: the simulation of a known start has a first
    wave, so [playAttempt] counts the attempt, bumps the animation run, clears
    hint, result and modal, and locks the controls; the board itself is not
    touched before the playback.  While the controls are locked every click
    is ignored. *)
Theorem valid_click_starts_attempt s startId :
  controlsLocked s = false ->
  startId ∈ map b_id (blocks s) ->
  exists s',
    playAttempt s startId = Ok s'
    /\ s' = mkSession (puzzle s) (blocks s) (attempts s + 1) animating None
                      [] [] [] false None (animationRun s + 1)
    /\ controlsLocked s' = true
    /\ forall id, playAttempt s' id = Ok s'.
Proof.
  intros Hfree Hstart. eexists. split; [by apply playAttempt_known_start|].
  split; [done|]. split; [done|]. intros id. done.
Qed.

Lemma valid_click_starts_attempt_witness :
  exists s',
    playAttempt sessionA "arrow-1-0-1" = Ok s'
    /\ attempts s' = 1 /\ controlsLocked s' = true.
Proof.
  assert (Hfree : controlsLocked sessionA = false) by reflexivity.
  assert (Hstart : "arrow-1-0-1" ∈ map b_id (blocks sessionA)) by (right; left).
  destruct (valid_click_starts_attempt sessionA "arrow-1-0-1" Hfree Hstart)
    as (s' & Hplay & -> & Hlocked & _).
  eexists. split; [exact Hplay|]. split; [reflexivity|exact Hlocked].
Defined.

Lemma createPuzzle_start_known {St} (next : St -> Q * St) difficulty serial s p s' :
  createPuzzle next difficulty serial s = Ok (p, s') ->
  solutionStartId p ∈ map b_id (initialBlocks p).
Proof.
  intros H. unfold createPuzzle in H.
  apply gen_bind_Ok in H as (via & s1 & Hvia & [= <- <-]).
  by apply Post_createPuzzleVia_grid in Hvia as (_ & _ & Hstart).
Qed.

(** X22: restarting and hinting.  [restartCurrentPuzzle] is [applyPuzzle]
    of the current puzzle: it puts the initial layout back, frees the
    controls even during a playback, and a second restart only bumps the
    animation run.  On a puzzle of [createPuzzle] that has been applied to
    the session, [showFeasibleSolution] hints [solutionStartId], and a click
    on the hinted block starts the first attempt and clears the hint. *)
Theorem restart_and_hint {St} (next : St -> Q * St) difficulty serial g p g' s :
  createPuzzle next difficulty serial g = Ok (p, g') ->
  restartCurrentPuzzle s = applyPuzzle s (puzzle s)
  /\ blocks (restartCurrentPuzzle s) = initialBlocks (puzzle s)
  /\ controlsLocked (restartCurrentPuzzle s) = false
  /\ restartCurrentPuzzle (restartCurrentPuzzle s)
     = mkSession (puzzle s) (initialBlocks (puzzle s)) 0 idle None
                 [] [] [] false None (animationRun s + 2)
  /\ hintStartId (showFeasibleSolution (applyPuzzle s p)) = Some (solutionStartId p)
  /\ playAttempt (showFeasibleSolution (applyPuzzle s p)) (solutionStartId p)
     = Ok (mkSession p (initialBlocks p) 1 animating None
                     [] [] [] false None (animationRun s + 2)).
Proof.
  intros Hp. apply createPuzzle_start_known in Hp as Hstart.
  split; [done|]. split; [apply cloneBlocks_id|]. split; [done|]. split; [|split].
  - unfold restartCurrentPuzzle. simpl. rewrite cloneBlocks_id. f_equal. lia.
  - done.
  - unfold showFeasibleSolution, applyPuzzle. simpl.
    rewrite playAttempt_known_start; simpl; rewrite ?cloneBlocks_id; [|done..].
    do 2 f_equal. lia.
Qed.

Lemma restart_and_hint_witness :
  exists p g',
    createPuzzle seededNext easy 1 (createSeededRandom 1573) = Ok (p, g')
    /\ playAttempt (showFeasibleSolution (applyPuzzle sessionA p)) (solutionStartId p)
       = Ok (mkSession p (initialBlocks p) 1 animating None
                       [] [] [] false None (animationRun sessionA + 2)).
Proof.
  eassert (H : createPuzzle seededNext easy 1 (createSeededRandom 1573) = Ok (_, _))
    by (vm_compute; reflexivity).
  eexists _, _. split; [exact H|].
  exact (proj2 (proj2 (proj2 (proj2 (proj2
           (restart_and_hint seededNext easy 1 _ _ _ sessionA H)))))).
Defined.

(** ** Random integers *)

(** X24: with rng in [[0,1)] and integers [min <= max] between [-2^51] and
    [2^51], where the sums and differences of the source are exact,
    [randomInt] draws once and returns an integer of the closed range from
    [min] to [max], although the product [rng() * (max - min + 1)] is
    rounded to a double before the floor; a range of one integer gives that
    integer whatever rng returns. *)
Theorem randomInt_within {St} (next : St -> Q * St) (min max : Z) s :
  InRange next ->
  - 2 ^ 51 <= min -> min <= max -> max <= 2 ^ 51 ->
  exists i,
    randomInt next min max s = Ok (i, (next s).2)
    /\ min <= i <= max
    /\ (max = min -> i = min).
Proof.
  intros Hrange _ Hle _. destruct (Hrange s) as (Hd & H0 & H1).
  exists (min + Qfloor (toDouble ((next s).1 * inject_Z (max - min + 1)))).
  split; [done|].
  pose proof (floor_rounded (next s).1 (max - min + 1) Hd H0 H1 ltac:(lia)) as Hfloor.
  split; [lia|]. intros ->. lia.
Qed.

(** At the double nearest to one third, the product with 3 rounds to one
    and the integer drawn from 0..2 is 1. *)
Lemma randomInt_within_witness :
  let third := (6004799503160661 # 18014398509481984)%Q in
  exists i,
    randomInt (constNext third) 0 2 tt = Ok (i, tt)
    /\ 0 <= i <= 2
    /\ i = 1.
Proof.
  intros third.
  assert (Hrange : InRange (constNext third)).
  { apply constNext_in_range; [|done|done].
    by apply (dyadic_IsDouble 6004799503160661 (-54)). }
  destruct (randomInt_within (constNext third) 0 2 tt Hrange
              ltac:(done) ltac:(done) ltac:(done)) as (i & Hi & Hin & _).
  exists i. split; [exact Hi|]. split; [exact Hin|].
  vm_compute in Hi. congruence.
Defined.

(** * The simulator on the store *)

(** ** Reading the caller's objects *)

Lemma gen_bind_run {St A B} (m : Gen St A) (f : A -> Gen St B) s a s1 :
  m s = Ok (a, s1) -> (m ≫= f) s = f a s1.
Proof. intros H. unfold mbind, Gen_bind. by rewrite H. Qed.

Lemma traverseGen_reads {St A B} (f : A -> Gen St B) (l : list A) (ys : list B) s :
  Forall2 (fun x y => f x s = Ok (y, s)) l ys -> traverseGen f l s = Ok (ys, s).
Proof.
  induction 1 as [|x y l ys Hx _ IH]; simpl; [done|].
  rewrite (gen_bind_run _ _ _ _ _ Hx), (gen_bind_run _ _ _ _ _ IH). done.
Qed.

Lemma foldGen_reads {St A B} (f : A -> B -> Gen St A) (g : A -> B -> A) s (l : list B) :
  (forall acc x, f acc x s = Ok (g acc x, s)) ->
  forall acc, foldGen f acc l s = Ok (foldl g acc l, s).
Proof.
  intros Hf. induction l as [|x l IH]; intros acc; simpl; [done|].
  by rewrite (gen_bind_run _ _ _ _ _ (Hf acc x)).
Qed.

Lemma kept_lookup (h0 h : Store) (ref : Ref) (o : Obj) :
  h0 ⊆ h -> h0 !! ref = Some o -> h !! ref = Some o.
Proof. intros Hsub H. by eapply lookup_weaken. Qed.

Lemma store_insert_eq (h : Store) (ref : Ref) (o : Obj) :
  <[ref := o]> h !! ref = Some o.
Proof. apply lookup_insert_eq. Qed.

Lemma store_insert_ne (h : Store) (ref ref' : Ref) (o : Obj) :
  ref <> ref' -> <[ref := o]> h !! ref' = h !! ref'.
Proof. apply lookup_insert_ne. Qed.

Lemma blockAt_kept h0 h block b :
  h0 ⊆ h -> blockAt h0 block = Some b -> blockAt h block = Some b.
Proof.
  unfold blockAt. intros Hsub H.
  destruct (h0 !! block) as [[id row col d| | | |]|] eqn:Hb; try discriminate.
  destruct (h0 !! d) as [[|items| | |]|] eqn:Hd; try discriminate.
  by rewrite (kept_lookup _ _ _ _ Hsub Hb), (kept_lookup _ _ _ _ Hsub Hd).
Qed.

Lemma layoutAt_items h blocks bs :
  layoutAt h blocks = Some bs <->
  exists items, h !! blocks = Some (BlocksObj items)
                /\ Forall2 (fun a b => blockAt h a = Some b) items bs.
Proof.
  unfold layoutAt. split.
  - intros H. destruct (h !! blocks) as [[| |items| |]|]; try discriminate.
    exists items. split; [done|]. by apply mapM_Some.
  - intros (items & -> & H). by apply mapM_Some.
Qed.

Lemma layoutAt_kept h0 h blocks bs :
  h0 ⊆ h -> layoutAt h0 blocks = Some bs -> layoutAt h blocks = Some bs.
Proof.
  intros Hsub H. apply layoutAt_items in H as (items & Hitems & Hall).
  apply layoutAt_items. exists items. split; [by eapply kept_lookup|].
  eapply Forall2_impl; [exact Hall|]. intros a b. by apply blockAt_kept.
Qed.

Lemma blockAt_reads h block b :
  blockAt h block = Some b ->
  getId block h = Ok (b_id b, h)
  /\ getRow block h = Ok (b_row b, h)
  /\ getCol block h = Ok (b_col b, h)
  /\ exists dirs, getDirs block h = Ok (dirs, h)
                  /\ getDirItems dirs h = Ok (b_dirs b, h).
Proof.
  unfold blockAt, getId, getRow, getCol, getDirs. intros H.
  destruct (h !! block) as [[id row col d| | | |]|] eqn:Hb; try discriminate.
  destruct (h !! d) as [[|items| | |]|] eqn:Hd; try discriminate.
  injection H as <-. simpl. repeat split; try done.
  exists d. split; [done|]. unfold getDirItems. by rewrite Hd.
Qed.

Lemma alloc_new (o : Obj) (h : Store) :
  alloc o h = Ok (fresh (dom h), <[fresh (dom h) := o]> h)
  /\ h !! fresh (dom h) = None.
Proof. split; [done|]. apply not_elem_of_dom, is_fresh. Qed.

(** ** Maps of references and maps of blocks *)

Lemma HoldsIn_lookup h refs m k :
  HoldsIn h refs m ->
  (refs !! k = None /\ m !! k = None)
  \/ exists a b, refs !! k = Some a /\ m !! k = Some b /\ blockAt h a = Some b.
Proof.
  intros H. assert (Hk : (blockAt h <$> refs) !! k = (Some <$> m) !! k) by (by rewrite H).
  rewrite !lookup_fmap in Hk.
  destruct (refs !! k) as [a|], (m !! k) as [b|]; simpl in Hk; try discriminate.
  - right. exists a, b. split; [done|]. split; [done|]. congruence.
  - by left.
Qed.

Lemma HoldsIn_has h refs m k : HoldsIn h refs m -> has refs k = has m k.
Proof.
  intros H. unfold has.
  destruct (HoldsIn_lookup h refs m k H) as [[-> ->]|(a & b & -> & -> & _)]; [done|].
  rewrite !bool_decide_eq_true_2; eauto.
Qed.

Lemma HoldsIn_size h refs m : HoldsIn h refs m -> size refs = size m.
Proof.
  intros H. rewrite <- (map_size_fmap (blockAt h) refs), <- (map_size_fmap Some m).
  by rewrite H.
Qed.

Lemma HoldsIn_delete h refs m k :
  HoldsIn h refs m -> HoldsIn h (delete k refs) (delete k m).
Proof. unfold HoldsIn. intros H. by rewrite !fmap_delete, H. Qed.

Lemma HoldsIn_insert h refs m k a b :
  blockAt h a = Some b -> HoldsIn h refs m -> HoldsIn h (<[k := a]> refs) (<[k := b]> m).
Proof. unfold HoldsIn. intros Hb H. by rewrite !fmap_insert, Hb, H. Qed.

(** The entries that [blocks.map((block) => [block.id, block])] reads make
    a map that holds the blocks of the layout. *)
Lemma idEntries_hold h0 h blocks bs :
  h0 ⊆ h -> layoutAt h0 blocks = Some bs ->
  exists entries,
    mapBlocks (fun block => id ← getId block; mret (id, block)) blocks h
    = Ok (entries, h)
    /\ HoldsIn h0 (mapOfEntries entries) (layoutOf bs).
Proof.
  intros Hsub Hlayout. apply layoutAt_items in Hlayout as (items & Hitems & Hall).
  assert (Hfold : forall refs m,
            HoldsIn h0 refs m ->
            HoldsIn h0 (foldl (fun m kv => <[kv.1 := kv.2]> m) refs
                          (zip (b_id <$> bs) items))
                       (foldl (fun m kv => <[kv.1 := kv.2]> m) m
                          (map (fun block => (b_id block, block)) bs))).
  { clear Hitems. induction Hall as [|a b items bs Hb _ IH]; intros refs m H; [done|].
    simpl. apply IH. by apply HoldsIn_insert. }
  exists (zip (b_id <$> bs) items). split.
  - unfold mapBlocks.
    assert (Hread : getBlockItems blocks h = Ok (items, h)).
    { unfold getBlockItems. by rewrite (kept_lookup _ _ _ _ Hsub Hitems). }
    rewrite (gen_bind_run _ _ _ _ _ Hread).
    apply traverseGen_reads. clear Hfold Hitems Hread.
    induction Hall as [|a b items bs Hb _ IH]; simpl; [constructor|].
    constructor; [|done].
    destruct (blockAt_reads _ _ _ (blockAt_kept _ _ _ _ Hsub Hb)) as (Hid & _).
    by rewrite (gen_bind_run _ _ _ _ _ Hid).
  - apply Hfold. unfold HoldsIn. by rewrite !fmap_empty.
Qed.

Lemma coordEntries_read h0 h blocks bs :
  h0 ⊆ h -> layoutAt h0 blocks = Some bs ->
  mapBlocks (fun block =>
               row ← getRow block;
               col ← getCol block;
               id ← getId block;
               mret (coordKey row col, id)) blocks h
  = Ok (map (fun block => (coordKey (b_row block) (b_col block), b_id block)) bs, h).
Proof.
  intros Hsub Hlayout. apply layoutAt_items in Hlayout as (items & Hitems & Hall).
  unfold mapBlocks.
  assert (Hread : getBlockItems blocks h = Ok (items, h)).
  { unfold getBlockItems. by rewrite (kept_lookup _ _ _ _ Hsub Hitems). }
  rewrite (gen_bind_run _ _ _ _ _ Hread).
  apply traverseGen_reads. clear Hitems Hread.
  induction Hall as [|a b items bs Hb _ IH]; simpl; [constructor|].
  constructor; [|done].
  destruct (blockAt_reads _ _ _ (blockAt_kept _ _ _ _ Hsub Hb)) as (Hid & Hrow & Hcol & _).
  rewrite (gen_bind_run _ _ _ _ _ Hrow), (gen_bind_run _ _ _ _ _ Hcol).
  by rewrite (gen_bind_run _ _ _ _ _ Hid).
Qed.

(** ** The steps of a wave *)

Section Run.
Context (h0 : Store) (layoutRef aliveRef indexRef : Ref).
Context (layout : gmap string ArrowBlock).

Lemma blockMapHas_spec h alive index k :
  SameRun h0 h layoutRef aliveRef indexRef layout alive index ->
  blockMapHas aliveRef k h = Ok (has alive k, h).
Proof.
  intros Hrun. destruct (run_alive _ _ _ _ _ _ _ _ Hrun) as (refs & Hrefs & Hholds).
  unfold blockMapHas. by rewrite Hrefs, (HoldsIn_has _ _ _ k Hholds).
Qed.

Lemma filterGen_spec h alive index ids :
  SameRun h0 h layoutRef aliveRef indexRef layout alive index ->
  filterGen (blockMapHas aliveRef) ids h
  = Ok (filter (fun id => has alive id = true) ids, h).
Proof.
  intros Hrun. induction ids as [|id ids IH]; simpl; [done|].
  rewrite (gen_bind_run _ _ _ _ _ (blockMapHas_spec h alive index id Hrun)).
  rewrite (gen_bind_run _ _ _ _ _ IH). rewrite filter_cons.
  destruct (has alive id) eqn:Hhas.
  - by rewrite decide_True.
  - by rewrite decide_False.
Qed.

Lemma vanishOneAt_spec h alive index id :
  SameRun h0 h layoutRef aliveRef indexRef layout alive index ->
  exists h',
    vanishOneAt aliveRef indexRef id h = Ok (tt, h')
    /\ SameRun h0 h' layoutRef aliveRef indexRef layout
         (vanishOne (alive, index) id).1 (vanishOne (alive, index) id).2.
Proof.
  intros Hrun. pose proof Hrun as [Hsub Hl Ha Hi Hal Hil Hia Hlay Halive Hindex].
  destruct Halive as (refs & Hrefs & Hholds).
  unfold vanishOneAt, vanishOne. cbn [fst snd].
  assert (Hget : blockMapGet aliveRef id h = Ok (refs !! id, h)).
  { unfold blockMapGet. by rewrite Hrefs. }
  rewrite (gen_bind_run _ _ _ _ _ Hget).
  destruct (HoldsIn_lookup h0 refs alive id Hholds) as [[-> ->]|(a & b & -> & -> & Hb)].
  { exists h. done. }
  set (h1 := <[aliveRef := BlockMapObj (delete id refs)]> h).
  assert (Hdel : blockMapDelete aliveRef id h = Ok (tt, h1)).
  { unfold blockMapDelete. by rewrite Hrefs. }
  assert (Hsub1 : h0 ⊆ h1) by (by apply insert_subseteq_r).
  rewrite (gen_bind_run _ _ _ _ _ Hdel).
  destruct (blockAt_reads _ _ _ (blockAt_kept _ _ _ _ Hsub1 Hb)) as (_ & Hrow & Hcol & _).
  rewrite (gen_bind_run _ _ _ _ _ Hrow), (gen_bind_run _ _ _ _ _ Hcol).
  assert (Hindex1 : h1 !! indexRef = Some (IdMapObj index)).
  { unfold h1. by rewrite store_insert_ne. }
  unfold idMapDelete. rewrite Hindex1. eexists. split; [done|].
  cbn [fst snd]. split; try done.
  - by apply insert_subseteq_r.
  - destruct Hlay as (lrefs & Hlrefs & Hlholds). exists lrefs. split; [|done].
    unfold h1. by rewrite !store_insert_ne.
  - exists (delete id refs). split; [|by apply HoldsIn_delete].
    unfold h1. by rewrite store_insert_ne, store_insert_eq.
  - by rewrite store_insert_eq.
Qed.

Lemma vanishWaveAt_spec ids :
  forall h alive index,
    SameRun h0 h layoutRef aliveRef indexRef layout alive index ->
    exists h',
      forEachGen (vanishOneAt aliveRef indexRef) ids h = Ok (tt, h')
      /\ SameRun h0 h' layoutRef aliveRef indexRef layout
           (vanishWave ids alive index).1 (vanishWave ids alive index).2.
Proof.
  unfold vanishWave.
  induction ids as [|id ids IH]; intros h alive index Hrun; simpl.
  - exists h. done.
  - destruct (vanishOneAt_spec h alive index id Hrun) as (h1 & Hone & Hrun1).
    rewrite (gen_bind_run _ _ _ _ _ Hone).
    destruct (vanishOne (alive, index) id) as [alive1 index1] eqn:Hv.
    by apply IH.
Qed.

Lemma castLoopAt_spec h index dir dr dc rows cols fuel :
  h !! indexRef = Some (IdMapObj index) ->
  forall row col rayCells,
    castLoopAt fuel dir dr dc indexRef rows cols row col rayCells h
    = liftRes (castLoop fuel dir dr dc index rows cols row col rayCells) h.
Proof.
  intros Hindex. induction fuel as [|fuel IH]; intros row col rayCells; simpl;
    destruct (inBounds row col rows cols); try done.
  assert (Hget : idMapGet indexRef (coordKey row col) h
                 = Ok (index !! coordKey row col, h)).
  { unfold idMapGet. by rewrite Hindex. }
  rewrite (gen_bind_run _ _ _ _ _ Hget).
  destruct (truthy (index !! coordKey row col)); [done|]. apply IH.
Qed.

Lemma castNearestAt_spec h alive index block b dir rows cols cast :
  SameRun h0 h layoutRef aliveRef indexRef layout alive index ->
  blockAt h0 block = Some b ->
  castNearest b dir index rows cols = Ok cast ->
  castNearestAt block dir indexRef rows cols h = Ok (cast, h).
Proof.
  intros Hrun Hb Hcast. unfold castNearestAt, castNearest in *.
  destruct (DIR_VECTORS dir) as [dr dc].
  destruct (blockAt_reads _ _ _ (blockAt_kept _ _ _ _ (run_kept _ _ _ _ _ _ _ _ Hrun) Hb))
    as (_ & Hrow & Hcol & _).
  rewrite (gen_bind_run _ _ _ _ _ Hrow), (gen_bind_run _ _ _ _ _ Hcol).
  rewrite (castLoopAt_spec h index); [|by destruct Hrun].
  unfold liftRes. by rewrite Hcast.
Qed.

Lemma castWaveAt_spec h alive index ids rows cols srcs :
  SameRun h0 h layoutRef aliveRef indexRef layout alive index ->
  castWave layout ids index rows cols = Ok srcs ->
  castWaveAt layoutRef ids indexRef rows cols h = Ok (srcs, h).
Proof.
  intros Hrun Hcast. unfold castWave, fmap, Res_fmap in Hcast.
  apply res_bind_Ok in Hcast as (ys & Hys & [= <-]).
  destruct (run_layout _ _ _ _ _ _ _ _ Hrun) as (refs & Hrefs & Hholds).
  unfold castWaveAt. apply traverse_Forall2 in Hys.
  rewrite (gen_bind_run _ _ _ ys h); [done|].
  apply traverseGen_reads. eapply Forall2_impl; [exact Hys|].
  intros id y Hy. simpl in Hy.
  assert (Hget : blockMapGet layoutRef id h = Ok (refs !! id, h)).
  { unfold blockMapGet. by rewrite Hrefs. }
  rewrite (gen_bind_run _ _ _ _ _ Hget).
  destruct (HoldsIn_lookup h0 refs layout id Hholds)
    as [[-> Hnone]|(a & b & -> & Hsome & Hb)].
  - rewrite Hnone in Hy. by injection Hy as <-.
  - rewrite Hsome in Hy. apply res_bind_Ok in Hy as (cs & Hcs & [= <-]).
    destruct (blockAt_reads _ _ _
                (blockAt_kept _ _ _ _ (run_kept _ _ _ _ _ _ _ _ Hrun) Hb))
      as (_ & _ & _ & dirs & Hdirs & Hitems).
    rewrite (gen_bind_run _ _ _ _ _ Hdirs), (gen_bind_run _ _ _ _ _ Hitems).
    rewrite (gen_bind_run _ _ _ cs h); [done|].
    apply traverseGen_reads. apply traverse_Forall2 in Hcs.
    eapply Forall2_impl; [exact Hcs|].
    intros dir cast Hc. by eapply castNearestAt_spec.
Qed.

Lemma collectHitsAt_spec h alive index srcs :
  SameRun h0 h layoutRef aliveRef indexRef layout alive index ->
  collectHitsAt aliveRef srcs h = Ok (collectHits alive srcs, h).
Proof.
  intros Hrun. unfold collectHitsAt, collectHits.
  apply foldGen_reads. intros acc src.
  apply foldGen_reads. intros acc' cast.
  destruct (truthy (c_toId cast)) as [toId|]; [|done].
  by rewrite (gen_bind_run _ _ _ _ _ (blockMapHas_spec h alive index toId Hrun)).
Qed.

(** ** The run on the store and the run on values *)

Lemma waveLoopAt_spec rows cols fuel :
  forall h pure pure',
    layoutById pure = layout ->
    SameRun h0 h layoutRef aliveRef indexRef layout (aliveById pure) (byCoord pure) ->
    waveLoop fuel rows cols pure = Ok pure' ->
    exists h',
      waveLoopAt fuel rows cols layoutRef aliveRef indexRef
        (sim_waves pure) (frontier pure) h
      = Ok (sim_waves pure', h')
      /\ SameRun h0 h' layoutRef aliveRef indexRef layout
           (aliveById pure') (byCoord pure').
Proof.
  induction fuel as [|fuel IH]; intros h pure pure' Hlayout Hrun Hloop.
  - simpl in *. destruct (frontier pure) as [|id ids] eqn:Hf.
    { injection Hloop as <-. exists h. done. }
    rewrite <- Hf in *.
    rewrite (gen_bind_run _ _ _ _ _ (filterGen_spec h _ _ (frontier pure) Hrun)).
    destruct (filter _ (frontier pure)) as [|c cur]; [|discriminate].
    injection Hloop as <-. exists h. done.
  - simpl in *. destruct (frontier pure) as [|id ids] eqn:Hf.
    { injection Hloop as <-. exists h. done. }
    rewrite <- Hf in *.
    rewrite (gen_bind_run _ _ _ _ _ (filterGen_spec h _ _ (frontier pure) Hrun)).
    destruct (filter _ (frontier pure)) as [|c cur] eqn:Hcur.
    { injection Hloop as <-. exists h. done. }
    destruct (vanishWaveAt_spec (c :: cur) h _ _ Hrun) as (h1 & Hvanish & Hrun1).
    destruct (vanishWave (c :: cur) (aliveById pure) (byCoord pure))
      as [alive index] eqn:Hv.
    apply res_bind_Ok in Hloop as (srcs & Hsrcs & Hloop).
    rewrite (gen_bind_run _ _ _ _ _ Hvanish). cbn [fst snd] in *.
    rewrite Hlayout in Hsrcs.
    rewrite (gen_bind_run _ _ _ _ _ (castWaveAt_spec h1 _ _ _ _ _ _ Hrun1 Hsrcs)).
    rewrite (gen_bind_run _ _ _ _ _ (collectHitsAt_spec h1 _ _ srcs Hrun1)).
    exact (IH h1 (mkSim (sim_blocks pure) (layoutById pure) alive index
                        (sim_waves pure ++ [mkWave srcs]) (collectHits alive srcs))
              pure' Hlayout Hrun1 Hloop).
Qed.

End Run.

(** The call on the store returns what the call on the values of the
    layout returns; the store it leaves holds every object that the caller's
    store held, unchanged, and the maps that the call created. *)
Lemma simulateAttemptAt_spec h blocks bs startId rows cols r :
  layoutAt h blocks = Some bs ->
  simulateAttempt bs startId rows cols = Ok r ->
  exists h', simulateAttemptAt blocks startId rows cols h = Ok (r, h') /\ h ⊆ h'.
Proof.
  intros Hlayout Hr.
  unfold simulateAttempt, simulateAttemptWith, runAttempt, fmap, Res_fmap in Hr.
  apply res_bind_Ok in Hr as (pure' & Hloop & [= <-]).
  unfold simulateAttemptAt.
  destruct (idEntries_hold h h blocks bs) as (entries1 & Hentries1 & Hholds1);
    [done|done|].
  rewrite (gen_bind_run _ _ _ _ _ Hentries1).
  destruct (alloc_new (BlockMapObj (mapOfEntries entries1)) h) as [Halloc1 Hnew1].
  set (layoutRef := fresh (dom h)) in *.
  set (h1 := <[layoutRef := BlockMapObj (mapOfEntries entries1)]> h) in *.
  unfold newBlockMap at 1. rewrite (gen_bind_run _ _ _ _ _ Halloc1).
  assert (Hsub1 : h ⊆ h1) by (by apply insert_subseteq).
  destruct (idEntries_hold h h1 blocks bs) as (entries2 & Hentries2 & Hholds2);
    [done|done|].
  rewrite (gen_bind_run _ _ _ _ _ Hentries2).
  destruct (alloc_new (BlockMapObj (mapOfEntries entries2)) h1) as [Halloc2 Hnew2].
  set (aliveRef := fresh (dom h1)) in *.
  set (h2 := <[aliveRef := BlockMapObj (mapOfEntries entries2)]> h1) in *.
  unfold newBlockMap. rewrite (gen_bind_run _ _ _ _ _ Halloc2).
  assert (Hsub2 : h1 ⊆ h2) by (by apply insert_subseteq).
  assert (Hsub02 : h ⊆ h2) by (by etrans).
  rewrite (gen_bind_run _ _ _ _ _ (coordEntries_read h h2 blocks bs Hsub02 Hlayout)).
  destruct (alloc_new (IdMapObj (indexOf bs)) h2) as [Halloc3 Hnew3].
  set (indexRef := fresh (dom h2)) in *.
  set (h3 := <[indexRef := IdMapObj (indexOf bs)]> h2) in *.
  unfold newIdMap. fold (indexOf bs). rewrite (gen_bind_run _ _ _ _ _ Halloc3).
  assert (Hsub3 : h2 ⊆ h3) by (by apply insert_subseteq).
  assert (Hsub03 : h ⊆ h3) by (by etrans).
  apply layoutAt_items in Hlayout as (items & Hitems & Hall).
  assert (Hread : getBlockItems blocks h3 = Ok (items, h3)).
  { unfold getBlockItems. by rewrite (kept_lookup _ _ _ _ Hsub03 Hitems). }
  rewrite (gen_bind_run _ _ _ _ _ Hread), (Forall2_length _ _ _ Hall).
  assert (Hne21 : aliveRef <> layoutRef).
  { intros Heq. rewrite Heq in Hnew2. unfold h1 in Hnew2.
    by rewrite store_insert_eq in Hnew2. }
  assert (Hne32 : indexRef <> aliveRef).
  { intros Heq. rewrite Heq in Hnew3. unfold h2 in Hnew3.
    by rewrite store_insert_eq in Hnew3. }
  assert (Hne31 : indexRef <> layoutRef).
  { intros Heq. rewrite Heq in Hnew3. unfold h2, h1 in Hnew3.
    by rewrite store_insert_ne, store_insert_eq in Hnew3. }
  assert (Hrun : SameRun h h3 layoutRef aliveRef indexRef (layoutOf bs)
                   (aliveById (initialSim bs startId)) (byCoord (initialSim bs startId))).
  { split; try done.
    - by eapply lookup_weaken_None.
    - eapply lookup_weaken_None; [exact Hnew3|done].
    - exists (mapOfEntries entries1). split; [|done].
      unfold h3, h2, h1.
      by rewrite store_insert_ne, store_insert_ne, store_insert_eq.
    - exists (mapOfEntries entries2). split; [|done].
      unfold h3, h2. by rewrite store_insert_ne, store_insert_eq.
    - unfold h3. by rewrite store_insert_eq. }
  destruct (waveLoopAt_spec h layoutRef aliveRef indexRef (layoutOf bs)
              rows cols (length bs) h3 (initialSim bs startId) pure' eq_refl Hrun Hloop)
    as (h' & Hwaves & Hrun').
  simpl in Hwaves. rewrite (gen_bind_run _ _ _ _ _ Hwaves).
  destruct (run_alive _ _ _ _ _ _ _ _ Hrun') as (refs & Hrefs & Hholds).
  exists h'. split; [|by destruct Hrun'].
  assert (Hsize : blockMapSize aliveRef h' = Ok (size refs, h')).
  { unfold blockMapSize. by rewrite Hrefs. }
  rewrite (gen_bind_run _ _ _ _ _ Hsize).
  unfold mret, Gen_ret, resultOf. by rewrite (HoldsIn_size _ _ _ Hholds).
Qed.

(** ** The claims about the store *)

(** C6: [simulateAttempt] never mutates its layout argument.  In every
    store in which [blocks] refers to an array of blocks, the call returns,
    and in the store it leaves the array has the length, the order and the
    contents of every block (id, row, col and the list of directions) that
    it had before the call.  More: every object that existed before the
    call is still there, unchanged, whether or not the layout refers to it
    and whatever the blocks share; what the call writes, it writes to the
    three maps it created. *)
Theorem simulateAttemptAt_keeps_layout h blocks bs startId rows cols :
  layoutAt h blocks = Some bs ->
  exists r h',
    simulateAttemptAt blocks startId rows cols h = Ok (r, h')
    /\ layoutAt h' blocks = Some bs
    /\ Kept h h'.
Proof.
  intros Hlayout.
  destruct (simulateAttempt_total bs startId rows cols) as [r Hr].
  destruct (simulateAttemptAt_spec h blocks bs startId rows cols r Hlayout Hr)
    as (h' & Hrun & Hsub).
  exists r, h'. split; [done|]. split; [by eapply layoutAt_kept|].
  intros ref o Ho. by eapply kept_lookup.
Qed.

Lemma simulateAttemptAt_keeps_layout_witness :
  exists r h',
    simulateAttemptAt 1%positive "arrow-1-0-0" 2 2 storeA = Ok (r, h')
    /\ layoutAt h' 1%positive = Some cycle4
    /\ Kept storeA h'.
Proof. apply simulateAttemptAt_keeps_layout. vm_compute. reflexivity. Defined.

(** C5: [simulateAttempt] is deterministic.  Let the array [blocks1] in the
    store [h1] and the array [blocks2] in the store [h2] hold the same blocks
    list: the same ids, rows, columns and lists of directions in the same
    order, at whatever references and among whatever other objects.  Then
    the call in [h1], the same call repeated in the store that the first
    call left, and the call in [h2] all return, and they return one and the
    same [AttemptResult]: the same wave list (sources, fromIds, casts, dirs,
    toIds and rayCells in the same order) and the same success flag.  The
    result is the one that [simulateAttempt] computes from the values of the
    blocks list. *)
Theorem simulateAttemptAt_deterministic h1 h2 blocks1 blocks2 bs startId rows cols :
  layoutAt h1 blocks1 = Some bs ->
  layoutAt h2 blocks2 = Some bs ->
  exists r h1' h1'' h2',
    simulateAttemptAt blocks1 startId rows cols h1 = Ok (r, h1')
    /\ simulateAttemptAt blocks1 startId rows cols h1' = Ok (r, h1'')
    /\ simulateAttemptAt blocks2 startId rows cols h2 = Ok (r, h2')
    /\ simulateAttempt bs startId rows cols = Ok r.
Proof.
  intros Hlayout1 Hlayout2.
  destruct (simulateAttempt_total bs startId rows cols) as [r Hr].
  destruct (simulateAttemptAt_spec h1 blocks1 bs startId rows cols r Hlayout1 Hr)
    as (h1' & Hrun1 & Hsub1).
  destruct (simulateAttemptAt_spec h1' blocks1 bs startId rows cols r
              (layoutAt_kept _ _ _ _ Hsub1 Hlayout1) Hr)
    as (h1'' & Hrun1' & _).
  destruct (simulateAttemptAt_spec h2 blocks2 bs startId rows cols r Hlayout2 Hr)
    as (h2' & Hrun2 & _).
  by exists r, h1', h1'', h2'.
Qed.

Lemma simulateAttemptAt_deterministic_witness :
  exists r h1' h1'' h2',
    simulateAttemptAt 1%positive "arrow-1-0-0" 2 2 storeA = Ok (r, h1')
    /\ simulateAttemptAt 1%positive "arrow-1-0-0" 2 2 h1' = Ok (r, h1'')
    /\ simulateAttemptAt 20%positive "arrow-1-0-0" 2 2 storeB = Ok (r, h2')
    /\ simulateAttempt cycle4 "arrow-1-0-0" 2 2 = Ok r.
Proof.
  apply simulateAttemptAt_deterministic; vm_compute; reflexivity.
Defined.
